(** * The partial extractor (src/main.py): shallow embedding and properties

    The program mines large subtrees of a corpus of HTML documents, clusters
    near duplicates, emits one partial per cluster and rewrites the documents.
    The embedding follows [HtmlRefactorer] method by method.  The libraries the
    program calls (the Python text primitives, BeautifulSoup, datasketch,
    simhash) are interfaces here: type classes whose operations the methods
    call, with concrete instances for the worked scenarios. *)

From Stdlib Require Import Ascii String QArith.
From stdpp Require Import gmap list sorting.

Set Warnings "-register-all,-clear-no-such-hyp".

Close Scope Q_scope.
Close Scope string_scope.
Open Scope nat_scope.

(** ** Python strings

    A Python [str] is a sequence of code points. *)

Definition char := N.
Definition str := list char.

(** A literal of the source, written in ASCII. *)
Definition lit (s : string) : str := N_of_ascii <$> list_ascii_of_string s.
Arguments lit s%_string.

(** [a <= b] on [str]: lexicographic on code points, a proper prefix first. *)
Fixpoint str_leb (a b : str) : bool :=
  match a, b with
  | [], _ => true
  | _ :: _, [] => false
  | x :: a', y :: b' =>
      if (x <? y)%N then true
      else if (y <? x)%N then false
      else str_leb a' b'
  end.

Definition str_le (a b : str) : Prop := str_leb a b = true.
Definition str_lt (a b : str) : Prop := str_le a b ∧ a ≠ b.

#[global] Instance str_le_dec : RelDecision str_le.
Proof. intros a b. unfold str_le. apply _. Defined.

(** [sorted(xs)] on strings. *)
Definition sorted (xs : list str) : list str := merge_sort str_le xs.

(** [s.startswith(p)] *)
Fixpoint startswith (p s : str) : bool :=
  match p, s with
  | [], _ => true
  | _ :: _, [] => false
  | x :: p', y :: s' => (x =? y)%N && startswith p' s'
  end.

(** [s.lstrip(..)], [s.rstrip(..)] and [s.strip(..)], the stripped characters
    given by a predicate. *)
Fixpoint lstrip_by (p : char → bool) (s : str) : str :=
  match s with
  | [] => []
  | c :: r => if p c then lstrip_by p r else s
  end.

Fixpoint rstrip_by (p : char → bool) (s : str) : str :=
  match s with
  | [] => []
  | c :: r =>
      match rstrip_by p r with
      | [] => if p c then [] else [c]
      | r' => c :: r'
      end
  end.

Definition strip_by (p : char → bool) (s : str) : str :=
  rstrip_by p (lstrip_by p s).

(** [c in chars] for a string of characters. *)
Definition char_in (chars : str) (c : char) : bool :=
  existsb (N.eqb c) chars.

(** [sep.join(lines)] *)
Fixpoint join (sep : str) (lines : list str) : str :=
  match lines with
  | [] => []
  | [l] => l
  | l :: ls => l ++ sep ++ join sep ls
  end.

(** [f"{n}"] for a non-negative integer: its decimal digits. *)
Fixpoint digits_aux (fuel n : nat) (acc : str) : str :=
  match fuel with
  | 0 => acc
  | S fuel' =>
      let acc' := (48 + N.of_nat (n mod 10))%N :: acc in
      if n <? 10 then acc' else digits_aux fuel' (n / 10) acc'
  end.

Definition decimal (n : nat) : str := digits_aux (S n) n [].

(** The text primitives of the Python runtime that the program relies on:
    [str.isspace] (also the class [\s] of [re]), the class [\w] of [re], and
    the character equivalence of [re.I]. *)
Class PyText := {
  isspace : char → bool;
  isword : char → bool;
  ci_eq : char → char → bool
}.

(** ** [_longest_common_suffix] and the residual titles *)

(** [min(len(s) for s in rev)] of a non-empty list. *)
Definition min_len (rev : list str) : nat :=
  match rev with
  | [] => 0
  | s :: rest => foldr (λ t m, Nat.min (length t) m) (length s) rest
  end.

(** [{s[i] for s in rev}] *)
Definition chars_at (i : nat) (rev : list str) : gset char :=
  list_to_set ((λ s : str, s !!! i) <$> rev).

(** The loop [for i in range(shortest)], with its [break]. *)
Fixpoint suffix_loop (rev : list str) (range : list nat) (suffix : list char)
    : list char :=
  match range with
  | [] => suffix
  | i :: range' =>
      let chars := chars_at i rev in
      if decide (size chars = 1) then
        match elements chars with
        | c :: _ => suffix_loop rev range' (suffix ++ [c])
        | [] => suffix
        end
      else suffix
  end.

Definition _longest_common_suffix (strings : list str) : str :=
  match strings with
  | [] => []
  | _ =>
      let rev := reverse <$> strings in
      let shortest := min_len rev in
      reverse (suffix_loop rev (seq 0 shortest) [])
  end.

(** [t[:len(t) - len(common_suffix)].strip(" |-") if common_suffix else t] *)
Definition residual_title (common_suffix t : str) : str :=
  match common_suffix with
  | [] => t
  | _ => strip_by (char_in (lit " |-"))
           (take (length t - length common_suffix) t)
  end.

(** The title line of the shared fragment. *)
Definition title_line (common_suffix : str) : str :=
  match common_suffix with
  | [] => lit "<title>{{ page_title }}</title>"
  | _ => lit "<title>{{ page_title }} " ++ common_suffix ++ lit "</title>"
  end.

(** ** The document tree of BeautifulSoup

    An element has a name, an ordered attribute mapping and ordered children;
    the other nodes are strings: text and comments ([Comment] is a subclass of
    [NavigableString]).  The [BeautifulSoup] object is itself an element, named
    [[document]].  An attribute value is a string, or a list of strings for the
    multi-valued attributes ([class], [rel]). *)

Inductive AttrValue :=
| VStr (s : str)
| VList (l : list str).

Definition Attrs := list (str * AttrValue).

Inductive Node :=
| Elem (name : str) (attrs : Attrs) (children : list Node)
| Text (s : str)
| Comment (s : str).

#[global] Instance AttrValue_eq_dec : EqDecision AttrValue.
Proof. solve_decision. Defined.

Definition is_elem (n : Node) : bool :=
  match n with Elem _ _ _ => true | _ => false end.

Definition is_comment (n : Node) : bool :=
  match n with Comment _ => true | _ => false end.

Definition tag_name (n : Node) : str :=
  match n with Elem name _ _ => name | _ => [] end.

Definition tag_attrs (n : Node) : Attrs :=
  match n with Elem _ attrs _ => attrs | _ => [] end.

Definition contents (n : Node) : list Node :=
  match n with Elem _ _ children => children | _ => [] end.

(** The attribute dict: [k in d], [d.get(k)], [del d[k]], [d[k] = v]
    (in place when the key is present, appended otherwise). *)
Definition attrs_get (k : str) (d : Attrs) : option AttrValue :=
  snd <$> List.find (λ kv, bool_decide (kv.1 = k)) d.

Definition has_attr (k : str) (d : Attrs) : bool :=
  bool_decide (is_Some (attrs_get k d)).

Definition attrs_del (k : str) (d : Attrs) : Attrs :=
  List.filter (λ kv, negb (bool_decide (kv.1 = k))) d.

Definition attrs_set (k : str) (v : AttrValue) (d : Attrs) : Attrs :=
  if has_attr k d
  then (λ kv : str * AttrValue, if bool_decide (kv.1 = k) then (k, v) else kv) <$> d
  else d ++ [(k, v)].

(** Truthiness of an attribute value, as in [if m.get("charset")]. *)
Definition truthy (v : option AttrValue) : bool :=
  match v with
  | None | Some (VStr []) | Some (VList []) => false
  | Some _ => true
  end.

(** [tag.descendants]: every node below the tag, in document order. *)
Fixpoint descendants (n : Node) : list Node :=
  match n with
  | Elem _ _ children => flat_map (λ c, c :: descendants c) children
  | _ => []
  end.

(** [tag.find_all(True)], [tag.find_all(name)], [tag.find(name)],
    [tag.find_all(names, recursive=False)] and
    [tag.find(name, recursive=False)]. *)
Definition find_all_tags (n : Node) : list Node :=
  List.filter is_elem (descendants n).

Definition named (names : list str) (n : Node) : bool :=
  is_elem n && bool_decide (tag_name n ∈ names).

Definition find_all (name : str) (n : Node) : list Node :=
  List.filter (named [name]) (descendants n).

Definition find (name : str) (n : Node) : option Node :=
  head (find_all name n).

Definition find_all_children (names : list str) (n : Node) : list Node :=
  List.filter (named names) (contents n).

Definition find_child (name : str) (n : Node) : option Node :=
  head (find_all_children [name] n).

(** [tag.find_all(string=f)]: the strings below the tag that satisfy [f]. *)
Definition find_all_strings (f : str → bool) (n : Node) : list Node :=
  List.filter (λ d, match d with
                    | Text s | Comment s => f s
                    | Elem _ _ _ => false
                    end) (descendants n).

(** [tag.string]: the single string child, looked for through single
    element children. *)
Fixpoint tag_string (n : Node) : option str :=
  match n with
  | Elem _ _ [c] =>
      match c with
      | Elem _ _ _ => tag_string c
      | Text s | Comment s => Some s
      end
  | Elem _ _ _ => None
  | Text s | Comment s => Some s
  end.

(** The parser and the serialiser of BeautifulSoup: [str(tag)],
    [BeautifulSoup(markup, "html.parser")] and
    [BeautifulSoup(markup, "html5lib")], which return the soup. *)
Class Bs4 := {
  str_of : Node → str;
  html_parser : str → Node;
  html5lib : str → Node
}.

(** ** [_canonicalize] *)

Section canonicalizer.
Context `{PyText, Bs4}.

(** [re.sub(r"\s+", " ", s)]; [in_run] tells that the previous character
    belonged to the run of white space being replaced. *)
Fixpoint collapse_ws (in_run : bool) (s : str) : str :=
  match s with
  | [] => []
  | c :: r =>
      if isspace c
      then (if in_run then collapse_ws true r else 32%N :: collapse_ws true r)
      else c :: collapse_ws false r
  end.

(** [re.sub(r"\s+", " ", str(t)).strip()] *)
Definition normalize_text (s : str) : str :=
  strip_by isspace (collapse_ws false s).

(** [STATEFUL_CLASSES]: the alternatives of the pattern
    [\b(active|current|open|show|selected|aria-current)\b], compiled with
    [re.I]. *)
Definition STATEFUL_ALTERNATIVES : list str :=
  [lit "active"; lit "current"; lit "open"; lit "show"; lit "selected";
   lit "aria-current"].

(** [\b] between two neighbours, a missing neighbour being the end of the
    string. *)
Definition word_boundary (prev next : option char) : bool :=
  xorb (from_option isword false prev) (from_option isword false next).

(** Matches the literal [pat] at the start of [s] ignoring case; gives the
    last character consumed and the rest of [s]. *)
Fixpoint match_ci (pat s : str) (prev : option char)
    : option (option char * str) :=
  match pat, s with
  | [], _ => Some (prev, s)
  | _ :: _, [] => None
  | p :: pat', c :: s' =>
      if ci_eq p c then match_ci pat' s' (Some c) else None
  end.

Definition match_here (prev : option char) (s : str) : bool :=
  word_boundary prev (head s) &&
  existsb (λ alt, match match_ci alt s prev with
                  | Some (last, rest) => word_boundary last (head rest)
                  | None => false
                  end) STATEFUL_ALTERNATIVES.

(** [STATEFUL_CLASSES.search(c)], as a truth value. *)
Fixpoint search_from (prev : option char) (s : str) : bool :=
  match_here prev s ||
  match s with
  | [] => false
  | c :: s' => search_from (Some c) s'
  end.

Definition STATEFUL_CLASSES_search (c : str) : bool := search_from None c.

Definition stateful : list str :=
  [lit "active"; lit "show"; lit "current"; lit "open"; lit "selected";
   lit "collapsing"].

Definition DROP_ATTRS : list str := [lit "onclick"; lit "onload"; lit "style"].
Definition KEEP_ATTRS : list str :=
  [lit "class"; lit "role"; lit "aria-label"; lit "aria-labelledby";
   lit "href"; lit "src"; lit "id"].

(** Iterating an attribute value: the items of a list, the characters of a
    string. *)
Definition iter_value (v : AttrValue) : list str :=
  match v with
  | VList l => l
  | VStr s => (λ c, [c]) <$> s
  end.

Definition keep_class (c : str) : bool :=
  negb (STATEFUL_CLASSES_search c) && negb (bool_decide (c ∈ stateful)).

(** The [if el.has_attr("class")] block. *)
Definition normalize_class (attrs : Attrs) : Attrs :=
  match attrs_get (lit "class") attrs with
  | None => attrs
  | Some v =>
      match sorted (List.filter keep_class (iter_value v)) with
      | [] => if has_attr (lit "class") attrs
              then attrs_del (lit "class") attrs else attrs
      | cls => attrs_set (lit "class") (VList cls) attrs
      end
  end.

(** The three branches of the loop over [el.attrs.items()]. *)
Definition to_normalize (attr : str) (value : AttrValue) : bool :=
  bool_decide (attr ∈ [lit "href"; lit "data-bs-target"]) &&
  match value with
  | VStr s => startswith (lit "#") s
  | VList _ => false
  end.

Definition to_delete (attr : str) (value : AttrValue) : bool :=
  negb (to_normalize attr value) &&
  (bool_decide (attr ∈ [lit "id"; lit "aria-controls"; lit "aria-expanded";
                        lit "data-bs-toggle"])
   || bool_decide (attr ∈ DROP_ATTRS)
   || (startswith (lit "data-") attr && negb (bool_decide (attr ∈ KEEP_ATTRS)))).

(** [attrs_to_normalize], a dict, and [attrs_to_delete], a list. *)
Definition attrs_to_normalize (attrs : Attrs) : Attrs :=
  foldl (λ d kv, if to_normalize kv.1 kv.2
                 then attrs_set kv.1 (VStr (lit "#")) d else d) [] attrs.

Definition attrs_to_delete (attrs : Attrs) : list str :=
  fst <$> List.filter (λ kv, to_delete kv.1 kv.2) attrs.

(** The body of [for el in list(root_tag_in_copy.find_all(True))] on the
    attributes of [el]. *)
Definition normalize_attrs (attrs : Attrs) : Attrs :=
  let attrs1 := normalize_class attrs in
  let attrs2 :=
    foldl (λ d attr, if has_attr attr d then attrs_del attr d else d)
          attrs1 (attrs_to_delete attrs1) in
  foldl (λ d kv, attrs_set kv.1 kv.2 d) attrs2 (attrs_to_normalize attrs1).

(** The first loop extracts every comment below the root. *)
Fixpoint remove_comments (n : Node) : Node :=
  match n with
  | Elem name attrs children =>
      Elem name attrs
        (flat_map (λ c, if is_comment c then [] else [remove_comments c])
                  children)
  | _ => n
  end.

(** The second loop visits [find_all(True)]: every element below the root,
    the root itself not being among them. *)
Fixpoint normalize_element (n : Node) : Node :=
  match n with
  | Elem name attrs children =>
      Elem name (normalize_attrs attrs) (normalize_element <$> children)
  | _ => n
  end.

Definition normalize_below (root : Node) : Node :=
  match root with
  | Elem name attrs children => Elem name attrs (normalize_element <$> children)
  | _ => root
  end.

(** The third loop visits every string below the root: it is replaced by its
    normal form, or extracted when that is empty. *)
Fixpoint normalize_strings (n : Node) : Node :=
  match n with
  | Elem name attrs children =>
      Elem name attrs
        (flat_map (λ c, match c with
                        | Elem _ _ _ => [normalize_strings c]
                        | Text s | Comment s =>
                            match normalize_text s with
                            | [] => []
                            | nt => [Text nt]
                            end
                        end) children)
  | _ => n
  end.

(** [_canonicalize(tag)]: [None] when the copy has no root; a [Tag] is
    always true. *)
Definition _canonicalize (tag : Node) : option Node :=
  let soup_copy := html_parser (str_of tag) in
  match find_child (tag_name tag) soup_copy with
  | None => None
  | Some root_tag_in_copy =>
      Some (normalize_strings (normalize_below (remove_comments root_tag_in_copy)))
  end.

(** [_get_node_size]: the elements below the tag and the strings below it
    that are not blank. *)
Definition not_blank (s : str) : bool :=
  match strip_by isspace s with [] => false | _ => true end.

Definition _get_node_size (tag : Node) : nat :=
  length (find_all_tags tag) + length (find_all_strings not_blank tag).

(** [_get_structural_paths]: the tag-name paths from the tag to its leaves. *)
Fixpoint get_paths (node : Node) (prefix : list str) : list (list str) :=
  match node with
  | Elem name _ children =>
      let path := prefix ++ [name] in
      match List.filter is_elem children with
      | [] => [path]
      | _ => flat_map (λ child, if is_elem child then get_paths child path
                                else []) children
      end
  | _ => []
  end.

Definition _get_structural_paths (tag : Node) : list (list str) :=
  get_paths tag [].

(** The shingles of [_get_minhash]: [">".join(p[i:i + 3])] for every window
    of three names of every path. *)
Fixpoint windows3 (p : list str) : list str :=
  match p with
  | a :: ((b :: c :: _) as p') => join (lit ">") [a; b; c] :: windows3 p'
  | _ => []
  end.

Definition shingles (tag : Node) : gset str :=
  list_to_set (flat_map windows3 (_get_structural_paths tag)).

(** The tokens of [_get_simhash]. *)
Definition simhash_tokens (tag : Node) : list str :=
  tag_name <$> List.filter is_elem (descendants tag).
End canonicalizer.

(** ** Candidates, the similarity library and [_cluster_candidates] *)

Definition Path := str.

(** datasketch and simhash: the sketch of a set of shingles
    ([MinHash(num_perm=128)] updated with each of them), the fingerprint of a
    token sequence, the Hamming distance of two fingerprints, and the index
    [MinHashLSH(threshold=0.6, num_perm=128)] with [insert] and [query]. *)
Class Similarity := {
  MinHash : Type;
  Simhash : Type;
  LSH : Type;
  minhash : gset str → MinHash;
  simhash : list str → Simhash;
  distance : Simhash → Simhash → nat;
  lsh_empty : LSH;
  lsh_insert : str → MinHash → LSH → LSH;
  lsh_query : LSH → MinHash → list str
}.

(** The tuple stored in [self.items]. *)
Record Candidate `{Similarity} := mkCandidate {
  html_path : Path;
  raw_tag_html : str;
  canonical_tag : Node;
  mh : MinHash;
  simh : Simhash
}.

Definition SIMHASH_DISTANCE : nat := 6.
Definition MIN_NODE_COUNT : nat := 30.

(** [NODE_COUNT_SIMILARITY] and the quotient [a / b] of two sizes, [b > 0].
    The source divides in floating point; the quotient is taken exactly here,
    which gives the same comparison with 0.85 for all sizes below 10^14. *)
Definition NODE_COUNT_SIMILARITY : Q := (85 # 100)%Q.

Definition true_div (a b : nat) : Q := (Z.of_nat a # Pos.of_nat b)%Q.

(** [x < y] on quotients. *)
Definition Qltb (x y : Q) : bool := negb (Qle_bool y x).

(** [data-refactor-id], the transient marker, and [f"c_{idx}"]. *)
Definition MARKER : str := lit "data-refactor-id".

Definition key_of (idx : nat) : str := lit "c_" ++ decimal idx.

Section clustering.
Context `{PyText, Similarity}.

Definition Cluster := list (str * Candidate).

(** The two tests of the inner loop that end in [continue]. *)
Definition too_far (seed near : Candidate) : bool :=
  SIMHASH_DISTANCE <? distance (simh seed) (simh near).

Definition size_mismatch (seed near : Candidate) : bool :=
  let n1 := _get_node_size (canonical_tag seed) in
  let n2 := _get_node_size (canonical_tag near) in
  (0 <? n1) && (0 <? n2) &&
  Qltb (true_div (Nat.min n1 n2) (Nat.max n1 n2)) NODE_COUNT_SIMILARITY.

(** [for nk in near_keys]; [None] is the [KeyError] of [self.items[nk]]. *)
Fixpoint near_loop (items : gmap str Candidate) (key : str) (seed : Candidate)
    (near_keys : list str) (cluster : Cluster) (visited : gset str)
    : option (Cluster * gset str) :=
  match near_keys with
  | [] => Some (cluster, visited)
  | nk :: rest =>
      if bool_decide (nk = key) || bool_decide (nk ∈ visited)
      then near_loop items key seed rest cluster visited
      else
        match items !! nk with
        | None => None
        | Some near =>
            if too_far seed near
            then near_loop items key seed rest cluster visited
            else if size_mismatch seed near
            then near_loop items key seed rest cluster visited
            else near_loop items key seed rest
                   (cluster ++ [(nk, near)]) ({[nk]} ∪ visited)
        end
  end.

(** [for key in sorted_keys] *)
Fixpoint seed_loop (items : gmap str Candidate) (lsh : LSH)
    (sorted_keys : list str) (clusters : list Cluster) (visited : gset str)
    : option (list Cluster) :=
  match sorted_keys with
  | [] => Some clusters
  | key :: rest =>
      if bool_decide (key ∈ visited)
      then seed_loop items lsh rest clusters visited
      else
        match items !! key with
        | None => None
        | Some seed =>
            let near_keys := lsh_query lsh (mh seed) in
            match near_loop items key seed near_keys [(key, seed)]
                    ({[key]} ∪ visited) with
            | None => None
            | Some (cluster, visited') =>
                seed_loop items lsh rest
                  (if 1 <? length cluster then clusters ++ [cluster]
                   else clusters)
                  visited'
            end
        end
  end.

(** [sorted(self.items.keys())] *)
Definition sorted_keys (items : gmap str Candidate) : list str :=
  sorted (elements (dom items)).

Definition _cluster_candidates (items : gmap str Candidate) (lsh : LSH)
    : option (list Cluster) :=
  seed_loop items lsh (sorted_keys items) [] ∅.
End clustering.

(** ** [_extract_partials] *)

(** An entry of [final_clusters_info]; an instance is a pair of
    [refactor_id] and [source_file]. *)
Record ClusterInfo := mkClusterInfo {
  partial_file : str;
  instances : list (str * Path)
}.

(** A file written by [write_partial]: its name and the tree it holds. *)
Record Partial := mkPartial {
  partial_name : str;
  partial_body : Node
}.

Section partials.
Context `{PyText, Bs4, Similarity}.

(** [del t['data-refactor-id']] when the attribute is there. *)
Definition strip_marker (t : Node) : Node :=
  match t with
  | Elem name attrs children =>
      Elem name (if has_attr MARKER attrs then attrs_del MARKER attrs
                 else attrs) children
  | _ => t
  end.

(** One turn of [for i, cluster in enumerate(self.clusters)]; [None] is an
    exception: the cluster has no first member, or the raw markup parses to
    no element ([medoid_template.name] on [None]).  The canonical tag of
    the medoid is a [Tag], which is always true and has a name. *)
Definition extract_partial (i : nat) (cluster : Cluster)
    : option (Partial * ClusterInfo) :=
  match cluster with
  | [] => None
  | (medoid_key, medoid_data) :: _ =>
      let partial_soup := html_parser (raw_tag_html medoid_data) in
      match head (find_all_tags partial_soup) with
      | None => None
      | Some medoid_template =>
          let template := strip_marker medoid_template in
          let name := lit "partial_" ++ decimal (i + 1) ++ lit "_"
                      ++ tag_name template ++ lit ".html" in
          Some (mkPartial name template,
                mkClusterInfo name
                  ((λ kc : str * Candidate, (kc.1, html_path kc.2)) <$> cluster))
      end
  end.

Fixpoint extract_loop (i : nat) (clusters : list Cluster)
    : option (list (Partial * ClusterInfo)) :=
  match clusters with
  | [] => Some []
  | cluster :: rest =>
      match extract_partial i cluster with
      | None => None
      | Some r => cons r <$> extract_loop (S i) rest
      end
  end.

Definition _extract_partials (clusters : list Cluster)
    : option (list (Partial * ClusterInfo)) :=
  extract_loop 0 clusters.
End partials.

(** ** Places in the live tree, and the marker replacement of
    [_replace_in_files] *)

(** A place below a node: the child indices leading to it. *)
Definition place := list nat.

Fixpoint get_at (p : place) (n : Node) : option Node :=
  match p with
  | [] => Some n
  | i :: p' =>
      match contents n !! i with
      | Some c => get_at p' c
      | None => None
      end
  end.

(** The tree with [f] applied to the node at [p]; [None] when there is no such
    node. *)
Fixpoint update_at (p : place) (f : Node → Node) (n : Node) : option Node :=
  match p with
  | [] => Some (f n)
  | i :: p' =>
      match n with
      | Elem name attrs children =>
          match children !! i with
          | Some c =>
              (λ c', Elem name attrs (<[i := c']> children)) <$> update_at p' f c
          | None => None
          end
      | _ => None
      end
  end.

(** The tree in which the node at [p] gives its position among the children
    of its parent to the nodes [news]; [None] when there is no node at [p] or
    the node is the root, which has no parent. *)
Fixpoint splice_at (p : place) (news : list Node) (n : Node) : option Node :=
  match p, n with
  | [i], Elem name attrs children =>
      match children !! i with
      | Some _ =>
          Some (Elem name attrs (take i children ++ news ++ drop (S i) children))
      | None => None
      end
  | i :: ((_ :: _) as p'), Elem name attrs children =>
      match children !! i with
      | Some c =>
          (λ c', Elem name attrs (<[i := c']> children)) <$> splice_at p' news c
      | None => None
      end
  | _, _ => None
  end.

(** The results of [f] on the children, each with its index, from [i] on. *)
Definition walk_children {A} (f : nat → Node → list A)
    : nat → list Node → list A :=
  fix go (i : nat) (cs : list Node) : list A :=
    match cs with
    | [] => []
    | c :: cs' => f i c ++ go (S i) cs'
    end.

(** Every node below [n] with its place, in document order. *)
Fixpoint descendants_at (here : place) (n : Node) : list (place * Node) :=
  match n with
  | Elem _ _ children =>
      walk_children
        (λ i c, (here ++ [i], c) :: descendants_at (here ++ [i]) c) 0 children
  | _ => []
  end.

(** The value [v] of an attribute matches the string [wanted], as in
    [find(attrs={name: wanted})]. *)
Definition attr_matches (wanted : str) (v : option AttrValue) : bool :=
  match v with
  | None => false
  | Some (VStr s) => bool_decide (s = wanted)
  | Some (VList l) =>
      bool_decide (wanted ∈ l) || bool_decide (join (lit " ") l = wanted)
  end.

Definition has_marker (ref_id : str) (n : Node) : bool :=
  is_elem n && attr_matches ref_id (attrs_get MARKER (tag_attrs n)).

(** [soup.find(attrs={"data-refactor-id": ref_id})]: the place of the first
    element below the soup that carries the marker. *)
Definition find_marker (ref_id : str) (soup : Node) : option place :=
  fst <$> List.find (λ pn, has_marker ref_id pn.2) (descendants_at [] soup).

(** [create_include_statement(filename)], without parameters. *)
Definition create_include_statement (filename : str) : str :=
  lit "@@include('./partials/" ++ filename ++ lit "')".

(** The result of a step that may raise. *)
Inductive Outcome (A : Type) :=
| Ok (a : A)
| Raised.
Arguments Ok {A} a.
Arguments Raised {A}.

Section rewriter.
Context `{Bs4}.

(** [target.replace_with(new)] for a parsed soup [new]: the target is taken
    out of its parent and bs4 inserts, at the index the target had, the
    children of the [BeautifulSoup] object, not the object; it raises when
    the target is not part of the tree or has no parent. *)
Definition replace_with (target : place) (new : Node) (soup : Node)
    : Outcome Node :=
  match splice_at target (contents new) soup with
  | Some soup' => Ok soup'
  | None => Raised
  end.

(** The body of [for inst in cluster["instances"]] for the document [p]. *)
Definition replace_instance (p : Path) (include_stmt : str)
    (inst : str * Path) (soup : Node) : Outcome Node :=
  if bool_decide (inst.2 = p) then
    match find_marker inst.1 soup with
    | Some target => replace_with target (html_parser include_stmt) soup
    | None => Ok soup
    end
  else Ok soup.

Fixpoint replace_instances (p : Path) (include_stmt : str)
    (insts : list (str * Path)) (soup : Node) : Outcome Node :=
  match insts with
  | [] => Ok soup
  | inst :: rest =>
      match replace_instance p include_stmt inst soup with
      | Ok soup' => replace_instances p include_stmt rest soup'
      | Raised => Raised
      end
  end.

(** [for cluster in self.clusters] for the document [p]. *)
Fixpoint replace_clusters (p : Path) (clusters : list ClusterInfo)
    (soup : Node) : Outcome Node :=
  match clusters with
  | [] => Ok soup
  | cluster :: rest =>
      let include_stmt := create_include_statement (partial_file cluster) in
      match replace_instances p include_stmt (instances cluster) soup with
      | Ok soup' => replace_clusters p rest soup'
      | Raised => Raised
      end
  end.
End rewriter.

(** ** [_extract_common_head_and_footer]

    The corpus is [self.all_html_files] in its sorted order, every file with
    the tree that html5lib parses it to. *)

(** What the method writes and keeps: the lines of the three partials
    (joined with a newline in the files), [self.page_titles] and
    [self.common_js_srcs]. *)
Record Fragments := mkFragments {
  title_meta : list str;
  head_css : list str;
  footer_scripts : list str;
  page_titles : gmap Path str;
  common_js_srcs : gset str
}.

(** The accumulators of the loop over the heads. *)
Record HeadAcc := mkHeadAcc {
  titles : list str;
  meta_sets : list (gset str);
  link_sets : list (gset str);
  style_sets : list (gset str);
  head_script_sets : list (gset str);
  rep_meta : gmap str str;
  rep_link : gmap str str;
  rep_style : gmap str str;
  rep_script : gmap str str
}.

(** The intersection of all the sets of a list, the empty set for none. *)
Definition intersection_all (sets : list (gset str)) : gset str :=
  match sets with
  | [] => ∅
  | s :: rest => foldl (∩) s rest
  end.

(** [[rep[k] for k in sorted(keys)]]; [None] is a [KeyError]. *)
Definition rep_lines (rep : gmap str str) (keys : gset str) : option (list str) :=
  mapM (λ k, rep !! k) (sorted (elements keys)).

Section head_footer.
Context `{PyText, Bs4}.

(** [soup.head] and [soup.body] *)
Definition soup_head (soup : Node) : option Node := find (lit "head") soup.
Definition soup_body (soup : Node) : option Node := find (lit "body") soup.

(** [m.get(k)] *)
Definition tag_get (k : str) (m : Node) : option AttrValue :=
  attrs_get k (tag_attrs m).

(** The title of a head, stripped; empty without a title or a title string. *)
Definition head_title (head : Node) : str :=
  match find (lit "title") head with
  | Some title =>
      match tag_string title with
      | Some ((_ :: _) as s) => strip_by isspace s
      | _ => []
      end
  | None => []
  end.

(** The four filters of the set comprehensions. *)
Definition meta_kept (m : Node) : bool := negb (truthy (tag_get (lit "charset") m)).

Definition link_kept (l : Node) : bool :=
  negb (bool_decide (tag_get (lit "rel") l = Some (VList [lit "stylesheet"]))).

Definition head_script_kept (s : Node) : bool :=
  truthy (tag_get (lit "src") s) ||
  match tag_string s with Some (_ :: _) => true | _ => false end.

(** [{str(m) for m in elems if kept(m)}] and
    [rep.update({str(m): str(m) for m in elems})]. *)
Definition str_set (kept : Node → bool) (elems : list Node) : gset str :=
  list_to_set (str_of <$> List.filter kept elems).

Definition rep_update (elems : list Node) (rep : gmap str str) : gmap str str :=
  foldl (λ r m, <[str_of m := str_of m]> r) rep elems.

(** One turn of the first loop; a document without a head is skipped. *)
Definition head_step (acc : HeadAcc) (soup : Node) : HeadAcc :=
  match soup_head soup with
  | None => acc
  | Some head =>
      let metas := find_all (lit "meta") head in
      let links := find_all (lit "link") head in
      let styles := find_all (lit "style") head in
      let scripts := find_all (lit "script") head in
      {| titles := titles acc ++ [head_title head];
         meta_sets := meta_sets acc ++ [str_set meta_kept metas];
         link_sets := link_sets acc ++ [str_set link_kept links];
         style_sets := style_sets acc ++ [str_set (λ _, true) styles];
         head_script_sets :=
           head_script_sets acc ++ [str_set head_script_kept scripts];
         rep_meta := rep_update metas (rep_meta acc);
         rep_link := rep_update links (rep_link acc);
         rep_style := rep_update styles (rep_style acc);
         rep_script := rep_update scripts (rep_script acc) |}
  end.

Definition head_acc0 : HeadAcc :=
  mkHeadAcc [] [] [] [] [] ∅ ∅ ∅ ∅.

(** [head.find_all("link", rel="stylesheet")] of the first document. *)
Definition stylesheet_lines (corpus : list (Path * Node)) : list str :=
  match corpus with
  | [] => []
  | (_, first_soup) :: _ =>
      match soup_head first_soup with
      | None => []
      | Some head =>
          str_of <$>
            List.filter (λ l, attr_matches (lit "stylesheet") (tag_get (lit "rel") l))
              (find_all (lit "link") head)
      end
  end.

(** [body.find_all("script", src=True)] *)
Definition scripts_with_src (body : Node) : list Node :=
  List.filter (λ s, bool_decide (is_Some (tag_get (lit "src") s)))
    (find_all (lit "script") body).

(** The inner loop of the footer pass: [srcs.add(s.get("src"))] and
    [rep_script_footer[s.get("src")] = str(s)].  A list is not hashable, so a
    list value raises. *)
Fixpoint footer_scripts_loop (scripts : list Node) (srcs : gset str)
    (rep : gmap str str) : option (gset str * gmap str str) :=
  match scripts with
  | [] => Some (srcs, rep)
  | s :: rest =>
      match tag_get (lit "src") s with
      | Some (VStr src) =>
          footer_scripts_loop rest ({[src]} ∪ srcs) (<[src := str_of s]> rep)
      | _ => None
      end
  end.

(** The loop over the bodies; a document without a body is skipped. *)
Fixpoint footer_loop (soups : list Node) (all_script_sets : list (gset str))
    (rep : gmap str str) : option (list (gset str) * gmap str str) :=
  match soups with
  | [] => Some (all_script_sets, rep)
  | soup :: rest =>
      match soup_body soup with
      | None => footer_loop rest all_script_sets rep
      | Some body =>
          match footer_scripts_loop (scripts_with_src body) ∅ rep with
          | None => None
          | Some (srcs, rep') =>
              footer_loop rest (all_script_sets ++ [srcs]) rep'
          end
      end
  end.

(** [self.page_titles], from [zip(self.all_html_files, titles)]. *)
Definition page_titles_of (files : list Path) (titles : list str)
    (common_suffix : str) : gmap Path str :=
  foldl (λ d pt, <[pt.1 := residual_title common_suffix pt.2]> d) ∅
        (zip files titles).

Definition _extract_common_head_and_footer (corpus : list (Path * Node))
    : option Fragments :=
  let acc := foldl head_step head_acc0 corpus.*2 in
  let common_metas := intersection_all (meta_sets acc) in
  let common_links := intersection_all (link_sets acc) in
  let common_styles := intersection_all (style_sets acc) in
  let common_head_scripts := intersection_all (head_script_sets acc) in
  let common_suffix := _longest_common_suffix (titles acc) in
  meta_lines ← rep_lines (rep_meta acc) common_metas;
  link_lines ← rep_lines (rep_link acc) common_links;
  style_lines ← rep_lines (rep_style acc) common_styles;
  script_lines ← rep_lines (rep_script acc) common_head_scripts;
  '(all_script_sets, rep_script_footer) ← footer_loop corpus.*2 [] ∅;
  let common_js := intersection_all all_script_sets in
  footer_lines ← rep_lines rep_script_footer common_js;
  Some {| title_meta := [title_line common_suffix] ++ meta_lines ++ link_lines;
          head_css := stylesheet_lines corpus ++ style_lines ++ script_lines;
          footer_scripts := footer_lines;
          page_titles := page_titles_of corpus.*1 (titles acc) common_suffix;
          common_js_srcs := common_js |}.
End head_footer.

(** ** [_mine_and_tag_candidates] *)

(** [found_tags] is a Python set of tags, and the loop over it follows the
    order of the set, which the hashes of the tags decide: the hash of a tag is
    the hash of its markup, and string hashes are salted per process.
    [set_iter l] is the order in which a set iterates after the elements of
    [l] were added to it: each object once, equal tags being kept once. *)
Class PySet := {
  set_iter : list (place * Node) → list (place * Node);
  set_iter_submseteq : ∀ l, set_iter l ⊆+ l
}.

(** A marker assignment [tag['data-refactor-id'] = key]: the page, the place
    of the element, the key, and whether the candidate was stored. *)
Record Mark := mkMark {
  mark_page : Path;
  mark_place : place;
  mark_key : str;
  mark_stored : bool
}.

(** The state of the miner: the counter [idx], [self.items], [self.lsh] and
    [self.soups]; [marks] records the marker assignments in the order of
    their execution and is read by no operation. *)
Record MineState `{Similarity} := mkMineState {
  idx : nat;
  items : gmap str Candidate;
  lsh : LSH;
  soups : gmap Path Node;
  marks : list Mark
}.

Definition PRIORITY_TAGS : list str :=
  [lit "header"; lit "nav"; lit "footer"; lit "aside"].

Section miner.
Context `{PyText, Bs4, Similarity, PySet}.

(** [soup.body or soup], with its place in the soup. *)
Definition body_or_soup (soup : Node) : place * Node :=
  match List.find (λ pn, named [lit "body"] pn.2) (descendants_at [] soup) with
  | Some pn => pn
  | None => ([], soup)
  end.

Definition big_enough (pn : place * Node) : bool :=
  MIN_NODE_COUNT <=? _get_node_size pn.2.

(** The elements added to [found_tags], in the order of the two loops. *)
Definition candidates_of (soup : Node) : list (place * Node) :=
  let '(here, body) := body_or_soup soup in
  flat_map (λ tag_name,
              List.filter big_enough
                (List.filter (λ pn, named [tag_name] pn.2)
                   (descendants_at here body)))
           PRIORITY_TAGS
  ++ List.filter big_enough
       (List.filter (λ pn, named [lit "div"; lit "section"] pn.2)
          (imap (λ i c, (here ++ [i], c)) (contents body))).

(** [tag['data-refactor-id'] = key] *)
Definition set_marker (key : str) (tag : Node) : Node :=
  match tag with
  | Elem name attrs children => Elem name (attrs_set MARKER (VStr key) attrs) children
  | _ => tag
  end.

Definition with_marks (st : MineState) (ms : list Mark) : MineState :=
  {| idx := idx st; items := items st; lsh := lsh st; soups := soups st;
     marks := ms |}.

(** The body of [for tag in found_tags].  The result has the state and the
    live tree, or no tree when an exception was raised: the state changes made
    before it stay. *)
Definition tag_step (html_path : Path) (st : MineState) (soup : Node)
    (tag : place) : MineState * option Node :=
  let key := key_of (idx st) in
  match update_at tag (set_marker key) soup with
  | None => (st, None)
  | Some soup' =>
      let marked := default (Text []) (get_at tag soup') in
      let raw_tag_html := str_of marked in
      let mark stored := marks st ++ [mkMark html_path tag key stored] in
      match find (tag_name marked) (html5lib raw_tag_html) with
      | None =>
          (with_marks st (mark false), None)
      | Some tag_copy =>
          match _canonicalize (strip_marker tag_copy) with
          | None =>
              (with_marks st (mark false), Some soup')
          | Some canonical_tag =>
              let mh := minhash (shingles canonical_tag) in
              let simh := simhash (simhash_tokens canonical_tag) in
              ({| idx := S (idx st);
                  items := <[key := {| html_path := html_path;
                                       raw_tag_html := raw_tag_html;
                                       canonical_tag := canonical_tag;
                                       mh := mh;
                                       simh := simh |}]> (items st);
                  lsh := lsh_insert key mh (lsh st);
                  soups := soups st;
                  marks := mark true |},
               Some soup')
          end
      end
  end.

Fixpoint tag_loop (html_path : Path) (st : MineState) (soup : Node)
    (found : list place) : MineState * option Node :=
  match found with
  | [] => (st, Some soup)
  | tag :: rest =>
      match tag_step html_path st soup tag with
      | (st', Some soup') => tag_loop html_path st' soup' rest
      | (st', None) => (st', None)
      end
  end.

(** One turn of [for html_path in self.all_html_files]: the [try] block, and
    [self.soups[html_path] = soup] when it ends without an exception. *)
Definition mine_page (st : MineState) (page : Path * Node) : MineState :=
  let '(html_path, soup) := page in
  match tag_loop html_path st soup (set_iter (candidates_of soup)).*1 with
  | (st', Some soup') =>
      {| idx := idx st'; items := items st'; lsh := lsh st';
         soups := <[html_path := soup']> (soups st'); marks := marks st' |}
  | (st', None) => st'
  end.

Definition mine_state0 : MineState :=
  {| idx := 0; items := ∅; lsh := lsh_empty; soups := ∅; marks := [] |}.

Definition _mine_and_tag_candidates (corpus : list (Path * Node)) : MineState :=
  foldl mine_page mine_state0 corpus.
End miner.

(** ** Instances of the libraries for the worked scenarios *)

Definition in_range (lo hi c : char) : bool := ((lo <=? c) && (c <=? hi))%N.

Definition ascii_lower (c : char) : char :=
  if in_range 65%N 90%N c then (c + 32)%N else c.

(** The text primitives on ASCII: white space, word characters, and equality
    up to the case of letters. *)
Definition ascii_text : PyText :=
  {| isspace c := in_range 9%N 13%N c || in_range 28%N 32%N c;
     isword c := in_range 48%N 57%N c || in_range 65%N 90%N c || in_range 97%N 122%N c
                 || (c =? 95)%N;
     ci_eq p c := (ascii_lower p =? ascii_lower c)%N |}.

(** A serialiser and a parser for plain markup: elements with quoted
    attributes, text without markup characters, comments.  [class] and [rel]
    are the multi-valued attributes; [meta] and [link] have no contents. *)
Definition QUOTE : char := 34%N.
Definition DOCUMENT : str := lit "[document]".
Definition VOID_TAGS : list str := [lit "meta"; lit "link"].
Definition MULTI_VALUED : list str := [lit "class"; lit "rel"].

Definition render_value (v : AttrValue) : str :=
  match v with
  | VStr s => s
  | VList l => join (lit " ") l
  end.

Definition render_attrs (attrs : Attrs) : str :=
  flat_map (λ kv : str * AttrValue,
              lit " " ++ kv.1 ++ lit "=" ++ [QUOTE] ++ render_value kv.2 ++ [QUOTE])
           attrs.

Fixpoint render (n : Node) : str :=
  match n with
  | Text s => s
  | Comment s => lit "<!--" ++ s ++ lit "-->"
  | Elem name attrs children =>
      let inner := flat_map render children in
      if bool_decide (name = DOCUMENT) then inner
      else if bool_decide (name ∈ VOID_TAGS)
      then lit "<" ++ name ++ render_attrs attrs ++ lit "/>"
      else lit "<" ++ name ++ render_attrs attrs ++ lit ">" ++ inner
           ++ lit "</" ++ name ++ lit ">"
  end.

(** The longest prefix of characters that satisfy [p], and the rest. *)
Fixpoint span (p : char → bool) (s : str) : str * str :=
  match s with
  | [] => ([], [])
  | c :: r => if p c then let '(a, b) := span p r in (c :: a, b) else ([], s)
  end.

Definition is_not (c d : char) : bool := negb (c =? d)%N.

Fixpoint words (s cur : str) : list str :=
  match s with
  | [] => match cur with [] => [] | _ => [cur] end
  | c :: r =>
      if (c =? 32)%N
      then match cur with [] => words r [] | _ => cur :: words r [] end
      else words r (cur ++ [c])
  end.

(** The attributes of a start tag, whether it closes itself, and the markup
    after it. *)
Fixpoint parse_attrs (fuel : nat) (s : str) : Attrs * bool * str :=
  match fuel with
  | 0 => ([], false, s)
  | S fuel' =>
      match s with
      | [] => ([], false, [])
      | 62%N :: r => ([], false, r)
      | 47%N :: 62%N :: r => ([], true, r)
      | 32%N :: r => parse_attrs fuel' r
      | _ =>
          let '(k, r1) := span (is_not 61%N) s in
          match r1 with
          | 61%N :: 34%N :: r2 =>
              let '(v, r3) := span (is_not 34%N) r2 in
              let '(more, closed, r4) := parse_attrs fuel' (tail r3) in
              let value := if bool_decide (k ∈ MULTI_VALUED)
                           then VList (words v []) else VStr v in
              ((k, value) :: more, closed, r4)
          | _ => ([], false, [])
          end
      end
  end.

Fixpoint comment_body (s : str) : str * str :=
  match s with
  | [] => ([], [])
  | 45%N :: 45%N :: 62%N :: r => ([], r)
  | c :: r => let '(a, b) := comment_body r in (c :: a, b)
  end.

Definition is_name_char (c : char) : bool :=
  is_not 32%N c && is_not 62%N c && is_not 47%N c.

(** The nodes up to the end tag of the enclosing element, and the markup
    after that end tag. *)
Fixpoint parse_nodes (fuel : nat) (s : str) : list Node * str :=
  match fuel with
  | 0 => ([], s)
  | S fuel' =>
      match s with
      | [] => ([], [])
      | 60%N :: 47%N :: r => ([], tail (span (is_not 62%N) r).2)
      | 60%N :: 33%N :: 45%N :: 45%N :: r =>
          let '(c, r1) := comment_body r in
          let '(ns, r2) := parse_nodes fuel' r1 in
          (Comment c :: ns, r2)
      | 60%N :: r =>
          let '(name, r1) := span is_name_char r in
          let '(attrs, closed, r2) := parse_attrs (S (length r1)) r1 in
          if closed || bool_decide (name ∈ VOID_TAGS) then
            let '(ns, r3) := parse_nodes fuel' r2 in
            (Elem name attrs [] :: ns, r3)
          else
            let '(cs, r3) := parse_nodes fuel' r2 in
            let '(ns, r4) := parse_nodes fuel' r3 in
            (Elem name attrs cs :: ns, r4)
      | _ =>
          let '(t, r1) := span (is_not 60%N) s in
          let '(ns, r2) := parse_nodes fuel' r1 in
          (Text t :: ns, r2)
      end
  end.

Definition parse_markup (s : str) : list Node :=
  (parse_nodes (S (length s)) s).1.

(** html5lib builds the whole document around a fragment. *)
Definition parse_document (s : str) : Node :=
  match parse_markup s with
  | [Elem name attrs children] as nodes =>
      if bool_decide (name = lit "html") then Elem DOCUMENT [] nodes
      else Elem DOCUMENT []
             [Elem (lit "html") [] [Elem (lit "head") [] [];
                                    Elem (lit "body") [] nodes]]
  | nodes =>
      Elem DOCUMENT []
        [Elem (lit "html") [] [Elem (lit "head") [] [];
                               Elem (lit "body") [] nodes]]
  end.

Definition plain_bs4 : Bs4 :=
  {| str_of := render;
     html_parser s := Elem DOCUMENT [] (parse_markup s);
     html5lib := parse_document |}.

(** An index that answers with the keys of identical sketches, a sketch being
    the set of shingles itself and a fingerprint the token sequence itself. *)
Definition exact_similarity : Similarity :=
  {| MinHash := gset str;
     Simhash := list str;
     LSH := list (str * gset str);
     minhash shingles := shingles;
     simhash tokens := tokens;
     distance a b := if decide (a = b) then 0 else 64;
     lsh_empty := [];
     lsh_insert key m index := index ++ [(key, m)];
     lsh_query index m :=
       (List.filter (λ km : str * gset str, bool_decide (km.2 = m)) index).*1 |}.

(** Two orders in which a set of different tags may iterate: the order of
    insertion and its reverse. *)
Definition insertion_order : PySet :=
  {| set_iter l := l; set_iter_submseteq l := reflexivity l |}.

Definition reverse_order : PySet :=
  {| set_iter l := reverse l;
     set_iter_submseteq l := Permutation_submseteq _ _ (reverse_Permutation l) |}.

(** ** The part of [run] from mining to the replacement of the instances

    [run] also extracts the shared head and footer and rewrites the heads and
    the ends of the bodies; that part is [_extract_common_head_and_footer]
    above and is not repeated here. *)

Record RunResult := mkRunResult {
  run_partials : list Partial;
  run_pages : list (Path * Node)
}.

Section run.
Context `{PyText, Bs4, Similarity, PySet}.

Definition replace_page (infos : list ClusterInfo) (page : Path * Node)
    : option (Path * Node) :=
  match replace_clusters page.1 infos page.2 with
  | Ok soup => Some (page.1, soup)
  | Raised => None
  end.

Definition mine_cluster_replace (corpus : list (Path * Node)) : option RunResult :=
  let st := _mine_and_tag_candidates corpus in
  clusters ← _cluster_candidates (items st) (lsh st);
  emitted ← _extract_partials clusters;
  pages ← mapM (replace_page emitted.*2) (map_to_list (soups st));
  Some (mkRunResult emitted.*1 pages).
End run.

(** ** The documents of the worked scenarios *)

(** An element of thirty nodes: fifteen items with a text each. *)
Definition big (name : str) (attrs : Attrs) : Node :=
  Elem name attrs (replicate 15 (Elem (lit "li") [] [Text (lit "x")])).

Definition document (head_children body_children : list Node) : Node :=
  Elem DOCUMENT []
    [Elem (lit "html") []
       [Elem (lit "head") [] head_children; Elem (lit "body") [] body_children]].

(** A page whose body holds a header and a nav, both large enough. *)
Definition header_nav_page : Node :=
  document [] [big (lit "header") []; big (lit "nav") []].

(** Scenario A: three pages with the same nav up to its [id]. *)
Definition nav_pages : list (Path * Node) :=
  [(lit "a.html", document [] [big (lit "nav") [(lit "id", VStr (lit "nav-a"))]]);
   (lit "b.html", document [] [big (lit "nav") [(lit "id", VStr (lit "nav-b"))]]);
   (lit "c.html", document [] [big (lit "nav") [(lit "id", VStr (lit "nav-c"))]])].

(** A nav with volatile attributes on the root and below it. *)
Definition nav_with_ids : Node :=
  Elem (lit "nav")
    [(lit "id", VStr (lit "main"));
     (lit "class", VList [lit "navbar"; lit "show"; lit "dark"])]
    [Comment (lit " menu ");
     Elem (lit "a")
       [(lit "id", VStr (lit "x")); (lit "href", VStr (lit "#top"));
        (lit "data-bs-toggle", VStr (lit "collapse"))]
       [Text (lit "  Home   page ")];
     Text (lit "  ")].

(** Scenario B: the two titles. *)
Definition EM_DASH : char := 8212%N.
Definition home_title : str := lit "Home " ++ [EM_DASH] ++ lit " Acme Inc.".
Definition about_title : str := lit "About " ++ [EM_DASH] ++ lit " Acme Inc.".

(** A head with a charset declaration and an empty script among its
    elements, and a body with scripts. *)
Definition charset_meta : Node :=
  Elem (lit "meta") [(lit "charset", VStr (lit "utf-8"))] [].
Definition empty_script : Node := Elem (lit "script") [] [].

Definition shared_page : Node :=
  document
    [charset_meta;
     Elem (lit "meta") [(lit "name", VStr (lit "author")); (lit "content", VStr (lit "me"))] [];
     Elem (lit "title") [] [Text (lit "Home | Acme")];
     Elem (lit "link") [(lit "rel", VList [lit "stylesheet"]); (lit "href", VStr (lit "a.css"))] [];
     Elem (lit "link") [(lit "rel", VList [lit "icon"]); (lit "href", VStr (lit "i.png"))] [];
     Elem (lit "style") [] [Text (lit "p{}")];
     empty_script;
     Elem (lit "script") [(lit "src", VStr (lit "h.js"))] []]
    [Elem (lit "p") [] [Text (lit "hello")];
     Elem (lit "script") [(lit "src", VStr (lit "app.js"))] [];
     Elem (lit "script") [] [Text (lit "go()")]].

Definition shared_pages : list (Path * Node) :=
  [(lit "a.html", shared_page); (lit "b.html", shared_page)].

(** Eleven stored candidates, with the keys that the miner gives them. *)
Definition eleven_items : gmap str (@Candidate exact_similarity) :=
  list_to_map
    ((λ i, (key_of i,
            @mkCandidate exact_similarity (lit "a.html") [] (big (lit "nav") []) ∅ []))
       <$> seq 0 11).

(** ** Notions used in the statements and proofs *)

(** *** Decimal keys and the order of the seeds *)

Definition digit (n : nat) : char := (48 + N.of_nat (n mod 10))%N.

(** The number that a string of digits denotes. *)
Definition digit_value (c : char) : nat := N.to_nat c - 48.

Definition value (ds : str) : nat :=
  foldl (λ a d, 10 * a + digit_value d) 0 ds.

Definition is_digit (c : char) : Prop := (48 ≤ c ≤ 57)%N.

(** [a] comes before [b] in the list [l]. *)
Definition seeded_before (a b : str) (l : list str) : Prop :=
  ∃ l1 l2 l3, l = l1 ++ a :: l2 ++ b :: l3.

(** *** Induction on trees *)

Section node_induction.
Variable P : Node → Prop.
Hypothesis HElem : ∀ name attrs children,
  Forall P children → P (Elem name attrs children).
Hypothesis HText : ∀ s, P (Text s).
Hypothesis HComment : ∀ s, P (Comment s).

Fixpoint Node_nested_ind (n : Node) : P n :=
  match n with
  | Elem name attrs children =>
      HElem name attrs children
        ((fix go (cs : list Node) : Forall P cs :=
            match cs with
            | [] => @List.Forall_nil _ P
            | c :: cs' => @List.Forall_cons _ P c cs' (Node_nested_ind c) (go cs')
            end) children)
  | Text s => HText s
  | Comment s => HComment s
  end.
End node_induction.

(** *** The canonical form *)

Section canonical_notions.
Context `{PyText}.

(** No white space opens the string. *)
Definition head_nonspace (l : str) : Prop :=
  match l with
  | [] => True
  | d :: _ => isspace d = false
  end.

(** Every white space character is a single blank between other characters. *)
Fixpoint collapsed (l : str) : Prop :=
  match l with
  | [] => True
  | c :: r => (isspace c = true → c = 32%N ∧ head_nonspace r) ∧ collapsed r
  end.

(** The value of [class] left by the canonicalizer: a non-empty sorted list
    of the classes that are kept. *)
Definition class_normal (v : AttrValue) : Prop :=
  ∃ cls, v = VList cls ∧ cls ≠ [] ∧ sorted (List.filter keep_class cls) = cls.

(** The attribute dicts that the canonicalizer leaves unchanged. *)
Record normal_attrs (d : Attrs) : Prop := {
  na_nodup : NoDup d.*1;
  na_class : ∀ v, (lit "class", v) ∈ d → class_normal v;
  na_delete : ∀ k v, (k, v) ∈ d → to_delete k v = false;
  na_normalize : ∀ k v, (k, v) ∈ d → to_normalize k v = true → v = VStr (lit "#")
}.

(** The dict [attrs_to_normalize] while it is built. *)
Definition normalize_into (acc d : Attrs) : Attrs :=
  foldl (λ acc kv, if to_normalize kv.1 kv.2
                   then attrs_set kv.1 (VStr (lit "#")) acc else acc) acc d.

(** The three loops of [_canonicalize] in one pass over a node below the
    root: what the node becomes, or nothing when it is extracted. *)
Fixpoint canon_node (c : Node) : list Node :=
  match c with
  | Elem name attrs children =>
      [Elem name (normalize_attrs attrs) (flat_map canon_node children)]
  | Text s =>
      match normalize_text s with
      | [] => []
      | nt => [Text nt]
      end
  | Comment _ => []
  end.

Definition comment_step (c : Node) : list Node :=
  if is_comment c then [] else [remove_comments c].

Definition string_step (c : Node) : list Node :=
  match c with
  | Elem _ _ _ => [normalize_strings c]
  | Text s | Comment s =>
      match normalize_text s with
      | [] => []
      | nt => [Text nt]
      end
  end.
End canonical_notions.

(** Deleting the keys of a list one after the other, and setting the entries
    of a list one after the other. *)
Definition delete_all (ks : list str) (d : Attrs) : Attrs :=
  foldl (λ d attr, if has_attr attr d then attrs_del attr d else d) d ks.

Definition set_all (new : Attrs) (d : Attrs) : Attrs :=
  foldl (λ d kv, attrs_set kv.1 kv.2 d) d new.

(** The four attributes that the canonicalizer always removes. *)
Definition VOLATILE_ATTRS : list str :=
  [lit "id"; lit "aria-controls"; lit "aria-expanded"; lit "data-bs-toggle"].

(** An element that carries none of the four attributes. *)
Definition clean (o : Node) : Prop :=
  ∀ k, k ∈ VOLATILE_ATTRS → attrs_get k (tag_attrs o) = None.

(** Every element of the tree has a proper attribute dict: no key twice. *)
Fixpoint dict_attrs (n : Node) : bool :=
  match n with
  | Elem _ attrs children =>
      bool_decide (NoDup attrs.*1) && forallb dict_attrs children
  | _ => true
  end.

(** *** Clusters *)

Section cluster_notions.
Context `{PyText, Similarity}.

(** The pair passed both tests of the inner loop. *)
Definition accepted (seed near : Candidate) : Prop :=
  too_far seed near = false ∧ size_mismatch seed near = false.

(** The keys of all clusters, in order. *)
Definition cluster_keys (clusters : list Cluster) : list str :=
  concat ((λ cl : Cluster, cl.*1) <$> clusters).

(** A cluster as the outer loop builds it: the seed first, then members that
    were accepted against it and come after it in the order of the keys. *)
Definition seeded (items : gmap str Candidate) (cl : Cluster) : Prop :=
  ∃ key seed rest,
    cl = (key, seed) :: rest ∧ items !! key = Some seed ∧
    Forall (λ m, str_lt key m.1 ∧ items !! m.1 = Some m.2 ∧ accepted seed m.2) rest.

Record clusters_ok (items : gmap str Candidate) (clusters : list Cluster)
    (visited : gset str) : Prop := {
  ok_size : Forall (λ cl, 2 ≤ length cl) clusters;
  ok_nodup : NoDup (cluster_keys clusters);
  ok_visited : ∀ k, k ∈ cluster_keys clusters → k ∈ visited;
  ok_seeded : Forall (seeded items) clusters
}.
End cluster_notions.

(** *** The shared footer *)

(** The source of a script that has one, when it is a string. *)
Definition src_of (s : Node) : option str :=
  match tag_get (lit "src") s with
  | Some (VStr src) => Some src
  | _ => None
  end.

Section footer_notions.
Context `{Bs4}.

(** The footer dict maps every source in [srcs] to the markup of a script of
    [scripts] that has this source. *)
Definition footer_rep_ok (scripts : list Node) (srcs : gset str)
    (rep : gmap str str) : Prop :=
  ∀ src, src ∈ srcs →
    ∃ s, s ∈ scripts ∧ src_of s = Some src ∧ rep !! src = Some (str_of s).
End footer_notions.

(** *** The ids of the miner *)

Section miner_notions.
Context `{Similarity}.

(** The counter bounds the ordinal of every assigned key, strictly when the
    candidate was stored. *)
Definition mark_bounded (n : nat) (m : Mark) : Prop :=
  ∃ k, mark_key m = key_of k ∧ k ≤ n ∧ (mark_stored m = true → k < n).

(** A stored candidate shares its key with no later marker assignment. *)
Definition marks_apart (ms : list Mark) : Prop :=
  ∀ i j mi mj, ms !! i = Some mi → ms !! j = Some mj → i < j →
    mark_stored mi = true → mark_key mi ≠ mark_key mj.

Record mine_ok (st : MineState) : Prop := {
  ok_bounded : Forall (mark_bounded (idx st)) (marks st);
  ok_apart : marks_apart (marks st);
  ok_dom : dom (items st) = list_to_set (key_of <$> seq 0 (idx st));
  ok_count : size (items st) = idx st;
  ok_stored : ∀ m, m ∈ marks st → mark_stored m = true →
    ∃ c, items st !! mark_key m = Some c ∧ html_path c = mark_page m
}.

(** The three ways in which the loop body leaves the state. *)
Inductive step_effect (page : Path) (st : MineState) : MineState → Prop :=
| effect_none : step_effect page st st
| effect_marked (tag : place) :
    step_effect page st
      (with_marks st (marks st ++ [mkMark page tag (key_of (idx st)) false]))
| effect_stored (tag : place) (c : Candidate) (index : LSH) :
    page = html_path c →
    step_effect page st
      {| idx := S (idx st);
         items := <[key_of (idx st) := c]> (items st);
         lsh := index;
         soups := soups st;
         marks := marks st ++ [mkMark page tag (key_of (idx st)) true] |}.
End miner_notions.

(** *** The ids in the live trees *)

(** The attributes of the element at a place. *)
Definition attrs_at (q : place) (n : Node) : option Attrs :=
  match get_at q n with
  | Some (Elem _ attrs _) => Some attrs
  | _ => None
  end.

Section mined_notions.
Context `{PyText, Similarity, PySet}.

(** The elements that the loop [for tag in found_tags] visits, each with its
    page, in the order of the run. *)
Definition mined (corpus : list (Path * Node)) : list (Path * place) :=
  flat_map (λ page : Path * Node,
              (λ q, (page.1, q)) <$> (set_iter (candidates_of page.2)).*1)
           corpus.


End mined_notions.

(** *** The runs of the scenarios *)

Definition header_nav_corpus : list (Path * Node) :=
  [(lit "a.html", header_nav_page)].


(** A nav whose two texts are separated by a comment. *)
Definition split_text_nav : Node :=
  Elem (lit "nav") [] [Text (lit "a "); Comment (lit " x "); Text (lit " b")].

Definition mine_with (bs4 : Bs4) (order : PySet) (corpus : list (Path * Node))
    : @MineState exact_similarity :=
  @_mine_and_tag_candidates ascii_text bs4 exact_similarity order corpus.

Definition run_with (order : PySet) (corpus : list (Path * Node))
    : option RunResult :=
  @mine_cluster_replace ascii_text plain_bs4 exact_similarity order corpus.

Definition nav_state : @MineState exact_similarity :=
  mine_with plain_bs4 insertion_order nav_pages.

Definition nav_clusters : list (@Cluster exact_similarity) :=
  default [] (@_cluster_candidates ascii_text exact_similarity
                (items nav_state) (lsh nav_state)).

(** What [_extract_partials] emits for the cluster of scenario A. *)
Definition nav_emitted : list (Partial * ClusterInfo) :=
  default [] (@_extract_partials plain_bs4 exact_similarity nav_clusters).

Definition nav_canonical : Node :=
  default (Text []) (@_canonicalize ascii_text plain_bs4 nav_with_ids).

Definition nav_link_canonical : Node :=
  Elem (lit "a") [(lit "href", VStr (lit "#"))] [Text (lit "Home page")].

Definition shared_head : Node :=
  default (Text []) (soup_head shared_page).
Definition shared_body : Node :=
  default (Text []) (soup_body shared_page).

Definition shared_fragments : Fragments :=
  default (mkFragments [] [] [] ∅ ∅)
    (@_extract_common_head_and_footer ascii_text plain_bs4 shared_pages).

(** The place of the header and of the nav in [header_nav_page]. *)
Definition HEADER_PLACE : place := [0; 1; 0].
Definition NAV_PLACE : place := [0; 1; 1].

(** ** Further parts of the program *)

(** *** [_to_zss_node] *)

(** [zss.Node]: a label and the kids added to it. *)
Inductive ZssNode :=
| ZNode (label : str) (kids : list ZssNode).

(** The label is the tag name, followed by a colon and the first two classes
    joined with a comma when the class attribute is there and not empty; the
    kids are the element children.  The method is applied to tags: the
    recursion reaches element children only. *)
Fixpoint _to_zss_node (node : Node) : ZssNode :=
  match node with
  | Elem name attrs children =>
      let label :=
        match attrs_get (lit "class") attrs with
        | Some v =>
            if truthy (Some v)
            then name ++ lit ":" ++ join (lit ",") (take 2 (iter_value v))
            else name
        | None => name
        end in
      ZNode label
        (flat_map (λ ch, if is_elem ch then [_to_zss_node ch] else []) children)
  | _ => ZNode [] []
  end.

Definition zss_label (z : ZssNode) : str :=
  match z with ZNode label _ => label end.

(** The number of nodes of a zss tree. *)
Fixpoint zss_size (z : ZssNode) : nat :=
  match z with
  | ZNode _ kids => S (foldr (λ k n, zss_size k + n) 0 kids)
  end.

(** *** [create_include_statement] with parameters *)

(** [json.dumps(params, indent=4)] for a dict of strings. *)
Class PyJson := {
  json_dumps : list (str * str) → str
}.

(** [create_include_statement(filename, params)]: the parameters are left out
    when there are none or when no value is a non-empty string. *)
Definition create_include_statement_params `{PyJson} (filename : str)
    (params : option (list (str * str))) : str :=
  match params with
  | None => create_include_statement filename
  | Some ps =>
      if negb (existsb (λ kv : str * str, negb (bool_decide (kv.2 = []))) ps)
      then create_include_statement filename
      else lit "@@include('./partials/" ++ filename ++ lit "', "
           ++ json_dumps ps ++ lit ")"
  end.

(** [json.dumps] with [indent=4] for strings of printable ASCII characters
    that hold no quote and no backslash. *)
Definition ascii_json : PyJson :=
  {| json_dumps ps :=
       lit "{" ++
       join (lit ",")
         ((λ kv : str * str,
             [10%N] ++ lit "    " ++ [QUOTE] ++ kv.1 ++ [QUOTE] ++ lit ": "
             ++ [QUOTE] ++ kv.2 ++ [QUOTE]) <$> ps)
       ++ match ps with [] => [] | _ => [10%N] end ++ lit "}" |}.

(** *** The head and the end of the body in [_replace_in_files] *)

(** [tag.decompose()] for every tag below [n] that satisfies [p]; a tag
    inside a decomposed tag goes with it. *)
Fixpoint decompose_all (p : Node → bool) (n : Node) : Node :=
  match n with
  | Elem name attrs children =>
      Elem name attrs
        (flat_map (λ c, if p c then [] else [decompose_all p c]) children)
  | _ => n
  end.

Definition stylesheet_link (tag : Node) : bool :=
  bool_decide (tag_get (lit "rel") tag = Some (VList [lit "stylesheet"])).

(** The tags of one type that the head loop decomposes: the stylesheet links,
    and every tag of another type. *)
Definition head_decomposed (tag_type : str) (tag : Node) : bool :=
  named [tag_type] tag &&
  (if bool_decide (tag_type = lit "link") then stylesheet_link tag else true).

Definition HEAD_TAG_TYPES : list str :=
  [lit "title"; lit "meta"; lit "link"; lit "style"; lit "script"].

(** [for tag_type in types: for tag in head.find_all(tag_type): ...] *)
Definition decompose_types (types : list str) (head : Node) : Node :=
  foldl (λ h tag_type, decompose_all (head_decomposed tag_type) h) head types.

(** A link below a stylesheet link.  [decompose] clears the tags below the
    decomposed one, and the loop, which runs over the list that [find_all]
    returned before, then calls [tag.get("rel")] on a cleared tag, which
    raises.  The other types are decomposed without a test, and decomposing
    a cleared tag again does nothing. *)
Definition cleared_link (head : Node) : bool :=
  existsb (λ l, stylesheet_link l &&
                match find_all (lit "link") l with [] => false | _ => true end)
          (find_all (lit "link") head).

(** [head.insert(0, a)] and [tag.append(b)] for parsed soups [a] and [b]:
    bs4 takes the children out of a [BeautifulSoup] object and inserts them,
    not the object. *)
Definition insert_first (a : Node) (n : Node) : Node :=
  match n with
  | Elem name attrs children => Elem name attrs (contents a ++ children)
  | _ => n
  end.

Definition append_child (b : Node) (n : Node) : Node :=
  match n with
  | Elem name attrs children => Elem name attrs (children ++ contents b)
  | _ => n
  end.

(** A body script whose source is among the shared ones. *)
Definition shared_script (common_js_srcs : gset str) (tag : Node) : bool :=
  named [lit "script"] tag &&
  match tag_get (lit "src") tag with
  | Some (VStr src) => bool_decide (src ∈ common_js_srcs)
  | _ => false
  end.

Definition src_is_str (tag : Node) : bool :=
  match tag_get (lit "src") tag with
  | Some (VStr _) => true
  | _ => false
  end.

(** A script with a source below a shared script with a source: it is
    cleared with the outer script before the loop reaches it. *)
Definition cleared_script (common_js_srcs : gset str) (body : Node) : bool :=
  existsb (λ s, shared_script common_js_srcs s &&
                match scripts_with_src s with [] => false | _ => true end)
          (scripts_with_src body).

Section page_rewrite.
Context `{Bs4, PyJson}.

(** The statement that takes the place of the title and the metas. *)
Definition title_meta_include (page_title : str) : str :=
  create_include_statement_params (lit "title-meta.html")
    (match page_title with
     | [] => None
     | _ => Some [(lit "page_title", page_title)]
     end).

(** The block [if head:] on the head of a page with the residual title
    [page_title]. *)
Definition rewrite_head (page_title : str) (head : Node) : Outcome Node :=
  let head1 := decompose_types [lit "title"; lit "meta"] head in
  if cleared_link head1 then Raised
  else
    let cleared :=
      decompose_types [lit "link"; lit "style"; lit "script"] head1 in
    Ok (append_child (html_parser (lit "@@include('./partials/head-css.html')"))
          (insert_first (html_parser (title_meta_include page_title)) cleared)).

(** The block [if body:].  The test [tag.get("src") in self.common_js_srcs]
    raises for a source that is a list, which is not hashable, and for a
    cleared tag. *)
Definition rewrite_body (common_js_srcs : gset str) (body : Node)
    : Outcome Node :=
  if forallb src_is_str (scripts_with_src body)
     && negb (cleared_script common_js_srcs body)
  then Ok (append_child
             (html_parser (lit "@@include('./partials/footer-scripts.html')"))
             (decompose_all (shared_script common_js_srcs) body))
  else Raised.
End page_rewrite.

(** *** Notions used in the further statements *)

Section further_notions.
Context `{PyText, Similarity}.

(** A string of the canonical form: a text in normal form that is not
    empty. *)
Definition canonical_string (o : Node) : Prop :=
  match o with
  | Elem _ _ _ => True
  | Text s => s ≠ [] ∧ normalize_text s = s
  | Comment _ => False
  end.

(** The strings that [_get_node_size] counts, and the texts among them. *)
Definition counted_string (d : Node) : bool :=
  match d with
  | Text s | Comment s => not_blank s
  | Elem _ _ _ => false
  end.

Definition counted_text (d : Node) : bool :=
  match d with
  | Text s => not_blank s
  | _ => false
  end.

(** The keys of the seeds of the clusters, in the order of the clusters. *)
Definition seeds (clusters : list Cluster) : list str :=
  omap (λ cl : Cluster, fst <$> head cl) clusters.
(** The members of a cluster after the seed were answered by the index for
    the sketch of the seed. *)
Definition answered (index : LSH) (cl : Cluster) : Prop :=
  match cl with
  | [] => True
  | (_, seed) :: rest => Forall (λ m, m.1 ∈ lsh_query index (mh seed)) rest
  end.
(** Every stored answer for the seed of a cluster that is accepted against
    the seed and has a larger key is a member of one of the clusters. *)
Definition complete_in (items : gmap str Candidate) (index : LSH)
    (all : list Cluster) (cl : Cluster) : Prop :=
  ∀ key seed rest nk near,
    cl = (key, seed) :: rest →
    nk ∈ lsh_query index (mh seed) → items !! nk = Some near →
    accepted seed near → str_lt key nk → nk ∈ cluster_keys all.
End further_notions.

(** The tags that the head loop removes: every title, meta, style and
    script, and the stylesheet links. *)
Definition removed_from_head (tag : Node) : bool :=
  named [lit "title"; lit "meta"; lit "style"; lit "script"] tag
  || (named [lit "link"] tag && stylesheet_link tag).

(** A test that looks at the name and the attributes of a tag only. *)
Definition shallow (q : Node → bool) : Prop :=
  ∀ name attrs cs cs', q (Elem name attrs cs) = q (Elem name attrs cs').

(** The heads and the bodies of the documents that have one, in the order
    of the corpus. *)
Definition heads_of (soups : list Node) : list Node := omap soup_head soups.
Definition bodies_of (soups : list Node) : list Node := omap soup_body soups.

(** The sources of the scripts of a body. *)
Definition srcs_of_body (body : Node) : gset str :=
  list_to_set (omap src_of (scripts_with_src body)).

(** The markup [line] is shared: there is a head, and every head holds a tag
    of the given name that passes the filter and prints as [line]. *)
Definition shared_in `{Bs4} (kept : Node → bool) (name : str)
    (heads : list Node) (line : str) : Prop :=
  heads ≠ [] ∧
  ∀ h, h ∈ heads → ∃ m, m ∈ find_all name h ∧ kept m = true ∧ str_of m = line.

Section head_notions.
Context `{PyText, Bs4}.

(** The accumulators after the first loop: one title and one set of each
    kind for every head, and dicts that map the markup of every tag of the
    heads to itself. *)
Record head_fold_ok (acc acc' : HeadAcc) (hs : list Node) : Prop := {
  hf_titles : titles acc' = titles acc ++ (head_title <$> hs);
  hf_metas : meta_sets acc' = meta_sets acc
     ++ ((λ h, str_set meta_kept (find_all (lit "meta") h)) <$> hs);
  hf_links : link_sets acc' = link_sets acc
     ++ ((λ h, str_set link_kept (find_all (lit "link") h)) <$> hs);
  hf_styles : style_sets acc' = style_sets acc
     ++ ((λ h, str_set (λ _, true) (find_all (lit "style") h)) <$> hs);
  hf_scripts : head_script_sets acc' = head_script_sets acc
     ++ ((λ h, str_set head_script_kept (find_all (lit "script") h)) <$> hs);
  hf_rep_meta : ∀ k,
     rep_meta acc !! k = Some k
     ∨ (∃ h, h ∈ hs ∧ k ∈ str_of <$> find_all (lit "meta") h) →
     rep_meta acc' !! k = Some k;
  hf_rep_link : ∀ k,
     rep_link acc !! k = Some k
     ∨ (∃ h, h ∈ hs ∧ k ∈ str_of <$> find_all (lit "link") h) →
     rep_link acc' !! k = Some k;
  hf_rep_style : ∀ k,
     rep_style acc !! k = Some k
     ∨ (∃ h, h ∈ hs ∧ k ∈ str_of <$> find_all (lit "style") h) →
     rep_style acc' !! k = Some k;
  hf_rep_script : ∀ k,
     rep_script acc !! k = Some k
     ∨ (∃ h, h ∈ hs ∧ k ∈ str_of <$> find_all (lit "script") h) →
     rep_script acc' !! k = Some k
}.
End head_notions.

Section stored_notions.
Context `{PyText, Bs4, Similarity}.

(** What the miner stores under a key: the path of a page of the corpus, the
    markup of an element that carries the key as its marker, and the
    canonical form, the sketch and the fingerprint of a parsed copy of this
    markup from which the marker was removed. *)
Definition stored_from (paths : list Path) (key : str) (c : Candidate) : Prop :=
  html_path c ∈ paths ∧
  ∃ el tag_copy,
    raw_tag_html c = str_of (set_marker key el) ∧
    find (tag_name el) (html5lib (raw_tag_html c)) = Some tag_copy ∧
    _canonicalize (strip_marker tag_copy) = Some (canonical_tag c) ∧
    mh c = minhash (shingles (canonical_tag c)) ∧
    simh c = simhash (simhash_tokens (canonical_tag c)).
End stored_notions.

(** The tree without the markers of the miner. *)
Fixpoint erase_markers (n : Node) : Node :=
  match n with
  | Elem name attrs children =>
      Elem name (attrs_del MARKER attrs) (erase_markers <$> children)
  | _ => n
  end.

(** *** The inputs of the further worked examples *)

(** Two stored candidates with the same empty sketch, and an index that
    holds both. *)
Definition small_candidate : @Candidate exact_similarity :=
  @mkCandidate exact_similarity (lit "a.html") (lit "<nav></nav>")
    (Elem (lit "nav") [] []) ∅ [].

Definition pair_items : gmap str (@Candidate exact_similarity) :=
  list_to_map [(key_of 0, small_candidate); (key_of 1, small_candidate)].

Definition pair_index : @LSH exact_similarity :=
  [(key_of 0, ∅); (key_of 1, ∅)].

Definition pair_clusters : list (@Cluster exact_similarity) :=
  [[(key_of 0, small_candidate); (key_of 1, small_candidate)]].

Definition pair_partial : Partial * ClusterInfo :=
  (mkPartial (lit "partial_1_nav.html") (Elem (lit "nav") [] []),
   mkClusterInfo (lit "partial_1_nav.html")
     [(key_of 0, lit "a.html"); (key_of 1, lit "a.html")]).

(** A page with a marked nav. *)
Definition marked_nav : Node :=
  Elem (lit "nav") [(MARKER, VStr (key_of 0))] [Text (lit "x")].

Definition marked_page : Node :=
  document [] [Elem (lit "p") [] [Text (lit "hello")]; marked_nav].

Definition MARKED_PLACE : place := [0; 1; 1].

(** The page of the header and the nav after mining, and the candidate
    stored for the header. *)
Definition mined_page : Node :=
  default (Text [])
    (soups (mine_with plain_bs4 insertion_order header_nav_corpus) !! lit "a.html").

Definition header_candidate : @Candidate exact_similarity :=
  default small_candidate
    (items (mine_with plain_bs4 insertion_order header_nav_corpus) !! key_of 0).

(** ** The order on strings *)

Lemma str_leb_refl (a : str) : str_leb a a = true.
Proof.
  induction a as [|x a IH]; simpl; [done|].
  by rewrite N.ltb_irrefl.
Qed.

Lemma str_leb_total (a b : str) : str_leb a b = true ∨ str_leb b a = true.
Proof.
  revert b. induction a as [|x a IH]; intros [|y b]; simpl; auto.
  destruct (N.ltb_spec x y), (N.ltb_spec y x); auto; lia.
Qed.

Lemma str_leb_antisym (a b : str) :
  str_leb a b = true → str_leb b a = true → a = b.
Proof.
  revert b. induction a as [|x a IH]; intros [|y b]; simpl; try done.
  destruct (N.ltb_spec x y), (N.ltb_spec y x); try done; try lia.
  intros Hab Hba. f_equal; [lia | by apply IH].
Qed.

Lemma str_leb_trans (a b c : str) :
  str_leb a b = true → str_leb b c = true → str_leb a c = true.
Proof.
  revert b c. induction a as [|x a IH]; intros [|y b] [|z c]; simpl; try done.
  destruct (N.ltb_spec x y), (N.ltb_spec y x), (N.ltb_spec y z),
    (N.ltb_spec z y), (N.ltb_spec x z), (N.ltb_spec z x);
    try done; try lia.
  apply IH.
Qed.

#[global] Instance str_le_refl : Reflexive str_le.
Proof. intros a. apply str_leb_refl. Qed.
#[global] Instance str_le_trans : Transitive str_le.
Proof. intros a b c. apply str_leb_trans. Qed.
#[global] Instance str_le_total : Total str_le.
Proof. intros a b. apply str_leb_total. Qed.
#[global] Instance str_le_antisym : AntiSymm (=) str_le.
Proof. intros a b. apply str_leb_antisym. Qed.

(** ** The longest common suffix *)

Lemma chars_at_single (rev : list str) (i : nat) (c : char) :
  rev ≠ [] → (∀ s, s ∈ rev → s !!! i = c) → chars_at i rev = {[c]}.
Proof.
  intros Hne Hall. unfold chars_at. apply set_eq. intros x.
  rewrite elem_of_list_to_set, list_elem_of_fmap, elem_of_singleton. split.
  - intros (s & -> & Hs). by apply Hall.
  - intros ->. destruct rev as [|s rev]; [done|].
    exists s. split; [symmetry; apply Hall|]; left.
Qed.

Lemma chars_at_size_1 (rev : list str) (i : nat) (c : char) (cs : list char) :
  size (chars_at i rev) = 1 → elements (chars_at i rev) = c :: cs →
  ∀ s, s ∈ rev → s !!! i = c.
Proof.
  intros Hsz Hel s Hs.
  apply size_1_elem_of in Hsz as [x Hx]. apply leibniz_equiv in Hx.
  assert (c ∈ chars_at i rev) as Hc.
  { apply elem_of_elements. rewrite Hel. left. }
  assert (s !!! i ∈ chars_at i rev) as Hsi.
  { unfold chars_at. apply elem_of_list_to_set, list_elem_of_fmap. eauto. }
  rewrite Hx in Hc, Hsi. set_solver.
Qed.

Lemma prefix_of_shorter {A} (u v s : list A) :
  u `prefix_of` s → v `prefix_of` s → length u ≤ length v → u `prefix_of` v.
Proof.
  intros Hu Hv Hlen.
  destruct (prefix_weak_total u v s Hu Hv) as [|Hvu]; [done|].
  apply prefix_length in Hvu as Hl.
  assert (v = u) as -> by (apply prefix_length_eq; [done|lia]). done.
Qed.

Lemma suffix_loop_spec (rev : list str) (n i : nat) (acc : list char) :
  rev ≠ [] →
  (∀ s, s ∈ rev → i + n ≤ length s) →
  (∃ s, s ∈ rev ∧ length s = i + n) →
  (∀ s, s ∈ rev → take i s = acc) →
  (∀ s, s ∈ rev → suffix_loop rev (seq i n) acc `prefix_of` s) ∧
  (∀ u, (∀ s, s ∈ rev → u `prefix_of` s) →
        u `prefix_of` suffix_loop rev (seq i n) acc).
Proof.
  intros Hne. revert i acc.
  induction n as [|n IH]; intros i acc Hlen Hmin Hacc; simpl.
  - split.
    + intros s Hs. rewrite <- (Hacc s Hs). apply prefix_take.
    + intros u Hu. destruct Hmin as (s & Hs & Hl).
      apply (prefix_of_shorter u acc s); [by apply Hu| |].
      * rewrite <- (Hacc s Hs). apply prefix_take.
      * rewrite <- (Hacc s Hs), length_take.
        specialize (Hu s Hs). apply prefix_length in Hu. lia.
  - assert (Hbreak : ∀ u, (∀ s, s ∈ rev → u `prefix_of` s) →
               i < length u → ∃ c, chars_at i rev = {[c]}).
    { intros u Hu Hi. destruct (lookup_lt_is_Some_2 u i Hi) as [c Hc].
      exists c. apply chars_at_single; [done|]. intros s Hs.
      apply list_lookup_total_correct. by eapply prefix_lookup_Some, Hu. }
    assert (Hstop : (∀ s, s ∈ rev → acc `prefix_of` s) ∧
               (∀ u, (∀ s, s ∈ rev → u `prefix_of` s) → length u ≤ i →
                     u `prefix_of` acc)).
    { split.
      - intros s Hs. rewrite <- (Hacc s Hs). apply prefix_take.
      - intros u Hu Hl. destruct rev as [|s rev']; [done|].
        apply (prefix_of_shorter u acc s); [apply Hu; left| |].
        + rewrite <- (Hacc s); [apply prefix_take|left].
        + rewrite <- (Hacc s), length_take by left.
          specialize (Hlen s ltac:(left)). lia. }
    destruct (decide (size (chars_at i rev) = 1)) as [Hsz|Hsz].
    + destruct (elements (chars_at i rev)) as [|c cs] eqn:Hel.
      { apply size_1_elem_of in Hsz as [x Hx]. apply leibniz_equiv in Hx.
        rewrite Hx, elements_singleton in Hel. done. }
      apply IH.
      * intros s Hs. specialize (Hlen s Hs). lia.
      * destruct Hmin as (s & Hs & Hl). exists s. split; [done|lia].
      * intros s Hs.
        assert (s !! i = Some c) as Hsi.
        { rewrite <- (chars_at_size_1 rev i c cs Hsz Hel s Hs).
          apply list_lookup_lookup_total_lt. specialize (Hlen s Hs). lia. }
        rewrite (take_S_r _ _ _ Hsi). by rewrite (Hacc s Hs).
    + destruct Hstop as [Hp Hq]. split; [done|].
      intros u Hu. apply Hq; [done|].
      destruct (decide (i < length u)) as [Hi|]; [|lia].
      destruct (Hbreak u Hu Hi) as [c Hc]. rewrite Hc, size_singleton in Hsz. done.
Qed.

Lemma min_len_spec (rev : list str) :
  rev ≠ [] →
  (∀ s, s ∈ rev → min_len rev ≤ length s) ∧
  (∃ s, s ∈ rev ∧ length s = min_len rev).
Proof.
  destruct rev as [|s rest]; [done|]. intros _. simpl.
  induction rest as [|t rest [IH1 IH2]]; simpl.
  - split; [|exists s; split; [left|done]].
    intros s' Hs'. apply list_elem_of_singleton in Hs' as ->. done.
  - split.
    + intros s' Hs'. apply elem_of_cons in Hs' as [->|Hs'].
      * specialize (IH1 s ltac:(left)). lia.
      * apply elem_of_cons in Hs' as [->|Hs']; [lia|].
        specialize (IH1 s' ltac:(by right)). lia.
    + destruct IH2 as (s' & Hs' & Hl).
      destruct (decide (length t ≤ foldr (λ t m, Nat.min (length t) m) (length s) rest)).
      * exists t. split; [right; left|lia].
      * exists s'. split; [|lia].
        apply elem_of_cons in Hs' as [->|Hs']; [left|by do 2 right].
Qed.

(** [_longest_common_suffix] returns a suffix of every string, and the
    longest: every common suffix is a suffix of it. *)
Lemma longest_common_suffix_spec (strings : list str) :
  strings ≠ [] →
  (∀ t, t ∈ strings → _longest_common_suffix strings `suffix_of` t) ∧
  (∀ u, (∀ t, t ∈ strings → u `suffix_of` t) →
        u `suffix_of` _longest_common_suffix strings).
Proof.
  intros Hne. unfold _longest_common_suffix.
  destruct strings as [|t0 ts] eqn:Heq; [done|]. rewrite <- Heq in *. clear Heq.
  assert (reverse <$> strings ≠ []) as Hrev by (by destruct strings).
  destruct (min_len_spec _ Hrev) as [Hmin1 Hmin2].
  destruct (suffix_loop_spec (reverse <$> strings) (min_len (reverse <$> strings))
              0 [] Hrev) as [Hp Hq]; simpl; try done.
  split.
  - intros t Ht. apply suffix_prefix_reverse. rewrite reverse_involutive.
    apply Hp, list_elem_of_fmap. eauto.
  - intros u Hu. apply suffix_prefix_reverse. rewrite reverse_involutive.
    apply Hq. intros s Hs. apply list_elem_of_fmap in Hs as (t & -> & Ht).
    apply prefix_suffix_reverse. rewrite !reverse_involutive. by apply Hu.
Qed.

(** ** Decimal keys *)

Lemma digits_aux_fuel (f1 f2 n : nat) (acc : str) :
  n < f1 → n < f2 → digits_aux f1 n acc = digits_aux f2 n acc.
Proof.
  revert f2 n acc. induction f1 as [|f1 IH]; intros [|f2] n acc H1 H2; try lia.
  cbn [digits_aux]. destruct (Nat.ltb_spec n 10); [done|].
  assert (n / 10 < n) by (apply Nat.div_lt; lia).
  apply IH; lia.
Qed.

Lemma digits_aux_acc (f n : nat) (acc : str) :
  digits_aux f n acc = digits_aux f n [] ++ acc.
Proof.
  revert n acc. induction f as [|f IH]; intros n acc; cbn [digits_aux]; [done|].
  destruct (n <? 10); [done|].
  rewrite (IH _ (_ :: acc)), (IH _ [_]), <- app_assoc. done.
Qed.

Lemma decimal_eq (n : nat) :
  decimal n = if n <? 10 then [digit n] else decimal (n / 10) ++ [digit n].
Proof.
  unfold decimal at 1. cbn [digits_aux]. fold (digit n).
  destruct (Nat.ltb_spec n 10); [done|].
  assert (n / 10 < n) by (apply Nat.div_lt; lia).
  rewrite digits_aux_acc. f_equal. apply digits_aux_fuel; lia.
Qed.

Lemma digit_is_digit (n : nat) : is_digit (digit n).
Proof.
  unfold is_digit, digit. pose proof (Nat.mod_upper_bound n 10). lia.
Qed.

Lemma digit_value_digit (n : nat) : digit_value (digit n) = n mod 10.
Proof. unfold digit_value, digit. lia. Qed.

Lemma value_snoc (ds : str) (d : char) :
  value (ds ++ [d]) = 10 * value ds + digit_value d.
Proof. unfold value. by rewrite foldl_app. Qed.

Lemma decimal_spec (n : nat) :
  value (decimal n) = n ∧ Forall is_digit (decimal n).
Proof.
  induction (lt_wf n) as [n _ IH].
  rewrite decimal_eq. destruct (Nat.ltb_spec n 10).
  - split.
    + unfold value. cbn [foldl]. rewrite digit_value_digit.
      rewrite Nat.mod_small; lia.
    + apply Forall_singleton, digit_is_digit.
  - assert (n / 10 < n) as Hlt by (apply Nat.div_lt; lia).
    destruct (IH _ Hlt) as [Hv Hd]. split.
    + rewrite value_snoc, Hv, digit_value_digit.
      pose proof (Nat.div_mod_eq n 10). lia.
    + apply Forall_app. split; [done|]. apply Forall_singleton, digit_is_digit.
Qed.

Lemma decimal_inj (i j : nat) : decimal i = decimal j → i = j.
Proof.
  intros Heq. destruct (decimal_spec i) as [<- _], (decimal_spec j) as [<- _].
  by rewrite Heq.
Qed.

Lemma key_of_inj (i j : nat) : key_of i = key_of j → i = j.
Proof. unfold key_of. intros Heq. by apply app_inv_head, decimal_inj in Heq. Qed.

Lemma value_cons (d : char) (ds : str) :
  value (d :: ds) = digit_value d * 10 ^ length ds + value ds.
Proof.
  revert d. induction ds as [|e ds IH] using rev_ind; intros d.
  - unfold value. simpl. lia.
  - rewrite app_comm_cons, !value_snoc, IH, length_app. simpl.
    rewrite Nat.add_1_r, Nat.pow_succ_r'. lia.
Qed.

Lemma value_bound (ds : str) : Forall is_digit ds → value ds < 10 ^ length ds.
Proof.
  induction 1 as [|d ds Hd _ IH]; [unfold value; simpl; lia|].
  rewrite value_cons. simpl. unfold is_digit, digit_value in *.
  assert (N.to_nat d - 48 ≤ 9) by lia. nia.
Qed.

(** On strings of digits of one length the order of the strings is the order
    of the numbers. *)
Lemma str_leb_digits (a b : str) :
  Forall is_digit a → Forall is_digit b → length a = length b →
  str_leb a b = true → value a ≤ value b.
Proof.
  intros Ha. revert b. induction Ha as [|x a Hx Ha IH]; intros b Hb Hlen Hle.
  - destruct b; [done|simplify_eq/=].
  - destruct Hb as [|y b Hy Hb]; simplify_eq/=.
    rewrite !value_cons, <- Hlen.
    destruct (N.ltb_spec x y).
    + pose proof (value_bound a Ha). unfold is_digit, digit_value in *.
      assert (N.to_nat x - 48 + 1 ≤ N.to_nat y - 48) by lia. nia.
    + destruct (N.ltb_spec y x); [done|].
      assert (x = y) as -> by lia. specialize (IH b Hb Hlen Hle). lia.
Qed.

Lemma str_leb_app_head (p a b : str) : str_leb (p ++ a) (p ++ b) = str_leb a b.
Proof. induction p as [|c p IH]; simpl; [done|]. by rewrite N.ltb_irrefl. Qed.

Lemma key_of_lt_same_length (i j : nat) :
  i < j → length (decimal i) = length (decimal j) →
  str_lt (key_of i) (key_of j).
Proof.
  intros Hij Hlen. split.
  - unfold str_le, key_of. rewrite str_leb_app_head.
    destruct (str_leb_total (decimal i) (decimal j)) as [|Hji]; [done|].
    destruct (decimal_spec i) as [Hi Hdi], (decimal_spec j) as [Hj Hdj].
    apply str_leb_digits in Hji; [lia|done..].
  - intros Heq%key_of_inj. lia.
Qed.

(** ** The order of the seeds *)

Lemma sorted_StronglySorted (xs : list str) : StronglySorted str_le (sorted xs).
Proof. apply StronglySorted_merge_sort; apply _. Qed.

Lemma sorted_Permutation (xs : list str) : sorted xs ≡ₚ xs.
Proof. apply merge_sort_Permutation. Qed.

Lemma seeded_before_le (a b : str) (l : list str) :
  StronglySorted str_le l → seeded_before a b l → str_le a b.
Proof.
  intros Hs (l1 & l2 & l3 & ->).
  apply StronglySorted_app_1_r in Hs. apply StronglySorted_inv in Hs as [_ Hall].
  rewrite Forall_forall in Hall. apply Hall. set_solver.
Qed.

Lemma elem_of_seeded (a b : str) (l : list str) :
  a ∈ l → b ∈ l → a ≠ b → seeded_before a b l ∨ seeded_before b a l.
Proof.
  intros Ha Hb Hne. apply list_elem_of_split in Ha as (l1 & r & ->).
  apply elem_of_app in Hb as [Hb|Hb].
  - right. apply list_elem_of_split in Hb as (l0 & l2 & ->).
    exists l0, l2, r. by rewrite <- app_assoc.
  - apply elem_of_cons in Hb as [->|Hb]; [done|].
    left. apply list_elem_of_split in Hb as (l2 & l3 & ->). by exists l1, l2, l3.
Qed.

(** In a sorted list of distinct strings the positions follow the order of
    the strings. *)
Lemma seeded_before_sorted (a b : str) (xs : list str) :
  a ∈ xs → b ∈ xs → a ≠ b →
  seeded_before a b (sorted xs) ↔ str_lt a b.
Proof.
  intros Ha Hb Hne. pose proof (sorted_StronglySorted xs) as Hs. split.
  - intros Hab. split; [|done]. by eapply seeded_before_le.
  - intros [Hle _].
    destruct (elem_of_seeded a b (sorted xs)) as [|Hba]; [| |done|done|].
    + by rewrite sorted_Permutation.
    + by rewrite sorted_Permutation.
    + apply seeded_before_le in Hba; [|done].
      destruct Hne. by apply (anti_symm str_le).
Qed.

(** ** White space *)

Section text.
Context `{PyText}.

Lemma collapse_ws_collapsed (b : bool) (s : str) :
  collapsed (collapse_ws b s) ∧ (b = true → head_nonspace (collapse_ws b s)).
Proof.
  revert b. induction s as [|c r IH]; intros b; simpl; [done|].
  destruct (isspace c) eqn:Hc.
  - destruct b.
    + apply IH.
    + destruct (IH true) as [IH1 IH2]. simpl. split; [|done].
      split; [|done]. intros _. split; [done|by apply IH2].
  - destruct (IH false) as [IH1 _]. simpl. split; [|done].
    split; [|done]. intros Hc'. congruence.
Qed.

Lemma collapse_ws_id (b : bool) (l : str) :
  collapsed l → (b = true → head_nonspace l) → collapse_ws b l = l.
Proof.
  revert b. induction l as [|c r IH]; intros b Hl Hb; simpl; [done|].
  destruct Hl as [Hc Hr]. destruct (isspace c) eqn:Hsp.
  - destruct (Hc eq_refl) as [-> Hhead].
    destruct b; [specialize (Hb eq_refl); simpl in Hb; congruence|].
    f_equal. by apply IH.
  - f_equal. by apply IH.
Qed.

Lemma lstrip_collapsed (p : char → bool) (l : str) :
  collapsed l → collapsed (lstrip_by p l).
Proof.
  induction l as [|c r IH]; simpl; [done|]. intros Hl.
  destruct (p c); [apply IH, Hl|done].
Qed.

Lemma rstrip_head (p : char → bool) (l : str) :
  rstrip_by p l = [] ∨ head (rstrip_by p l) = head l.
Proof.
  destruct l as [|c r]; simpl; [by left|].
  destruct (rstrip_by p r); [|by right].
  destruct (p c); [by left|by right].
Qed.

Lemma rstrip_collapsed (p : char → bool) (l : str) :
  collapsed l → collapsed (rstrip_by p l).
Proof.
  induction l as [|c r IH]; simpl; [done|]. intros [Hc Hr].
  specialize (IH Hr). destruct (rstrip_head p r) as [Hnil|Hhd].
  - rewrite Hnil. destruct (p c); simpl; [done|].
    split; [|done]. intros Hsp. destruct (Hc Hsp) as [-> _]. done.
  - destruct (rstrip_by p r) as [|d r'] eqn:Hr'.
    + destruct (p c); simpl; [done|].
      split; [|done]. intros Hsp. destruct (Hc Hsp) as [-> _]. done.
    + simpl. split; [|done]. intros Hsp. destruct (Hc Hsp) as [-> Hh].
      split; [done|]. destruct r; simplify_eq/=. done.
Qed.

Lemma rstrip_idemp (p : char → bool) (l : str) :
  rstrip_by p (rstrip_by p l) = rstrip_by p l.
Proof.
  induction l as [|c r IH]; simpl; [done|].
  destruct (rstrip_by p r) as [|d r'] eqn:Hr.
  - destruct (p c) eqn:Hp; simpl; [done|]. by rewrite Hp.
  - rewrite <- Hr in *. simpl. rewrite IH. by rewrite Hr.
Qed.

Lemma lstrip_rstrip_lstrip (p : char → bool) (l : str) :
  lstrip_by p (rstrip_by p (lstrip_by p l)) = rstrip_by p (lstrip_by p l).
Proof.
  assert (Hhd : match lstrip_by p l with [] => True | c :: _ => p c = false end).
  { induction l as [|c r IH]; simpl; [done|]. destruct (p c) eqn:Hp; [done|].
    done. }
  destruct (rstrip_head p (lstrip_by p l)) as [->|Hh]; [done|].
  destruct (rstrip_by p (lstrip_by p l)) as [|d r']; [done|].
  destruct (lstrip_by p l) as [|c r]; simplify_eq/=. by rewrite Hhd.
Qed.

Lemma strip_idemp (p : char → bool) (l : str) :
  strip_by p (strip_by p l) = strip_by p l.
Proof.
  unfold strip_by. by rewrite lstrip_rstrip_lstrip, rstrip_idemp.
Qed.

Lemma normalize_text_idemp (s : str) :
  normalize_text (normalize_text s) = normalize_text s.
Proof.
  unfold normalize_text.
  rewrite (collapse_ws_id false (strip_by isspace (collapse_ws false s))).
  - apply strip_idemp.
  - apply rstrip_collapsed, lstrip_collapsed, collapse_ws_collapsed.
  - done.
Qed.
End text.

(** ** The attribute dict *)

Lemma attrs_get_Some (k : str) (d : Attrs) (v : AttrValue) :
  attrs_get k d = Some v → (k, v) ∈ d.
Proof.
  unfold attrs_get. destruct (List.find _ d) as [[k' v']|] eqn:Hf; [|done].
  intros [= <-]. apply find_some in Hf as [Hin Hk].
  apply bool_decide_eq_true in Hk. simpl in Hk. subst.
  by apply list_elem_of_In.
Qed.

Lemma attrs_get_None (k : str) (d : Attrs) :
  attrs_get k d = None ↔ k ∉ d.*1.
Proof.
  unfold attrs_get. split.
  - destruct (List.find _ d) eqn:Hf; [done|]. intros _ Hin.
    apply list_elem_of_fmap in Hin as ([k' v] & -> & Hin).
    apply list_elem_of_In in Hin.
    apply (find_none _ _ Hf) in Hin. by apply bool_decide_eq_false in Hin.
  - intros Hk. destruct (List.find _ d) as [[k' v']|] eqn:Hf; [|done].
    apply find_some in Hf as [Hin Hk']. apply bool_decide_eq_true in Hk'.
    simpl in Hk'. subst. destruct Hk. apply list_elem_of_fmap.
    exists (k, v'). split; [done|]. by apply list_elem_of_In.
Qed.

Lemma NoDup_keys_unique (d : Attrs) (k : str) (v1 v2 : AttrValue) :
  NoDup d.*1 → (k, v1) ∈ d → (k, v2) ∈ d → v1 = v2.
Proof.
  induction d as [|[k0 v0] d IH]; simpl; [by intros _ ?%elem_of_nil|].
  intros [Hk Hnd]%NoDup_cons [Heq1|H1]%elem_of_cons [Heq2|H2]%elem_of_cons.
  - congruence.
  - simplify_eq. destruct Hk. apply list_elem_of_fmap. by exists (k0, v2).
  - simplify_eq. destruct Hk. apply list_elem_of_fmap. by exists (k0, v1).
  - by apply IH.
Qed.

Lemma attrs_get_unique (k : str) (d : Attrs) (v : AttrValue) :
  NoDup d.*1 → (k, v) ∈ d → attrs_get k d = Some v.
Proof.
  intros Hnd Hin. destruct (attrs_get k d) as [v'|] eqn:Hg.
  - apply attrs_get_Some in Hg. f_equal.
    by apply (NoDup_keys_unique d k v' v).
  - apply attrs_get_None in Hg. destruct Hg. apply list_elem_of_fmap.
    by exists (k, v).
Qed.

Lemma has_attr_true (k : str) (d : Attrs) : has_attr k d = true ↔ k ∈ d.*1.
Proof.
  unfold has_attr. rewrite bool_decide_eq_true.
  destruct (attrs_get k d) as [v|] eqn:Hg.
  - split; [|by eauto]. intros _. apply attrs_get_Some in Hg.
    apply list_elem_of_fmap. by exists (k, v).
  - apply attrs_get_None in Hg. split; [by intros [? [=]]|done].
Qed.

Lemma has_attr_false (k : str) (d : Attrs) : has_attr k d = false ↔ k ∉ d.*1.
Proof.
  rewrite <- has_attr_true. destruct (has_attr k d); naive_solver.
Qed.

Lemma elem_of_attrs_del (k : str) (d : Attrs) (kv : str * AttrValue) :
  kv ∈ attrs_del k d ↔ kv ∈ d ∧ kv.1 ≠ k.
Proof.
  unfold attrs_del. rewrite !list_elem_of_In, filter_In, negb_true_iff,
    bool_decide_eq_false. done.
Qed.

Lemma attrs_del_keys (k : str) (d : Attrs) : (attrs_del k d).*1 `sublist_of` d.*1.
Proof.
  induction d as [|[k' v] d IH]; simpl; [done|].
  destruct (bool_decide (k' = k)); simpl; [by apply sublist_cons|by apply sublist_skip].
Qed.

Lemma attrs_del_absent (k : str) (d : Attrs) : k ∉ d.*1 → attrs_del k d = d.
Proof.
  induction d as [|[k' v] d IH]; simpl; [done|]. intros Hk.
  apply not_elem_of_cons in Hk as [Hne Hk]. rewrite bool_decide_eq_false_2 by done.
  simpl. by rewrite IH.
Qed.

Lemma elem_of_attrs_set (k : str) (v : AttrValue) (d : Attrs) (k' : str)
    (v' : AttrValue) :
  (k', v') ∈ attrs_set k v d ↔ (k' = k ∧ v' = v) ∨ (k' ≠ k ∧ (k', v') ∈ d).
Proof.
  unfold attrs_set. destruct (has_attr k d) eqn:Hh.
  - apply has_attr_true in Hh. rewrite list_elem_of_fmap. split.
    + intros ([k0 v0] & Heq & Hin). simpl in Heq.
      case_bool_decide; simplify_eq; [by left|by right].
    + intros [[-> ->]|[Hne Hin]].
      * apply list_elem_of_fmap in Hh as ([k0 v0] & -> & Hin).
        exists (k0, v0). simpl. by rewrite bool_decide_eq_true_2.
      * exists (k', v'). simpl. by rewrite bool_decide_eq_false_2.
  - apply has_attr_false in Hh. rewrite elem_of_app, list_elem_of_singleton.
    split.
    + intros [Hin|[= -> ->]]; [|by left]. right. split; [|done].
      intros ->. apply Hh, list_elem_of_fmap. by exists (k, v').
    + intros [[-> ->]|[_ Hin]]; [by right|by left].
Qed.

Lemma attrs_set_NoDup (k : str) (v : AttrValue) (d : Attrs) :
  NoDup d.*1 → NoDup (attrs_set k v d).*1.
Proof.
  intros Hnd. unfold attrs_set. destruct (has_attr k d) eqn:Hh.
  - rewrite <- list_fmap_compose.
    erewrite (list_fmap_ext _ fst); [done|].
    intros i [k0 v0] _. simpl. by case_bool_decide.
  - apply has_attr_false in Hh. rewrite fmap_app. simpl.
    apply NoDup_app. split; [done|]. split; [|apply NoDup_singleton].
    intros x Hx ->%list_elem_of_singleton. done.
Qed.

Lemma attrs_set_same (k : str) (v : AttrValue) (d : Attrs) :
  NoDup d.*1 → (k, v) ∈ d → attrs_set k v d = d.
Proof.
  intros Hnd Hin. unfold attrs_set.
  rewrite (proj2 (has_attr_true k d)) by (apply list_elem_of_fmap; by exists (k, v)).
  rewrite <- (list_fmap_id d) at 2. apply list_fmap_ext.
  intros i [k0 v0] Hi. simpl. case_bool_decide; [|done]. subst.
  f_equal. apply list_elem_of_lookup_2 in Hi.
  by apply (NoDup_keys_unique d k v v0).
Qed.

Lemma elem_of_delete_all (ks : list str) (d : Attrs) (kv : str * AttrValue) :
  kv ∈ delete_all ks d ↔ kv ∈ d ∧ kv.1 ∉ ks.
Proof.
  unfold delete_all. revert d. induction ks as [|k ks IH]; intros d; simpl.
  - set_solver.
  - rewrite IH, not_elem_of_cons.
    destruct (has_attr k d) eqn:Hh.
    + rewrite elem_of_attrs_del. naive_solver.
    + apply has_attr_false in Hh. split; [|naive_solver].
      intros [Hin Hk]. split; [done|]. split; [|done]. intros Heq. subst k.
      apply Hh, list_elem_of_fmap. by exists kv.
Qed.

Lemma delete_all_keys (ks : list str) (d : Attrs) :
  (delete_all ks d).*1 `sublist_of` d.*1.
Proof.
  unfold delete_all. revert d. induction ks as [|k ks IH]; intros d; simpl; [done|].
  etrans; [apply IH|]. destruct (has_attr k d); [apply attrs_del_keys|done].
Qed.

Lemma delete_all_nil (d : Attrs) : delete_all [] d = d.
Proof. done. Qed.

Lemma set_all_NoDup (new d : Attrs) : NoDup d.*1 → NoDup (set_all new d).*1.
Proof.
  unfold set_all. revert d. induction new as [|[k v] new IH]; intros d Hd; simpl;
    [done|]. by apply IH, attrs_set_NoDup.
Qed.

Lemma elem_of_set_all (new d : Attrs) (k : str) (v : AttrValue) :
  (k, v) ∈ set_all new d → (k, v) ∈ new ∨ ((k ∉ new.*1) ∧ (k, v) ∈ d).
Proof.
  unfold set_all. revert d. induction new as [|[k0 v0] new IH]; intros d; simpl.
  - intros Hin. right. split; [apply not_elem_of_nil|done].
  - intros Hin. apply IH in Hin as [Hin|[Hk Hin]]; [left; by right|].
    apply elem_of_attrs_set in Hin as [[-> ->]|[Hne Hin]]; [left; by left|].
    right. split; [|done]. by apply not_elem_of_cons.
Qed.

Lemma set_all_same (new d : Attrs) :
  NoDup d.*1 → new ⊆ d → set_all new d = d.
Proof.
  unfold set_all. induction new as [|[k v] new IH]; intros Hd Hsub; simpl; [done|].
  rewrite attrs_set_same; [|done|apply Hsub; left].
  apply IH; [done|]. intros x Hx. apply Hsub. by right.
Qed.

Lemma normalize_attrs_unfold `{PyText} (attrs : Attrs) :
  normalize_attrs attrs =
    set_all (attrs_to_normalize (normalize_class attrs))
      (delete_all (attrs_to_delete (normalize_class attrs)) (normalize_class attrs)).
Proof. done. Qed.

Lemma filter_all {A} (f : A → bool) (l : list A) :
  Forall (λ x, f x = true) l → List.filter f l = l.
Proof.
  induction 1 as [|x l Hx _ IH]; simpl; [done|]. by rewrite Hx, IH.
Qed.

Lemma filter_none {A} (f : A → bool) (l : list A) :
  Forall (λ x, f x = false) l → List.filter f l = [].
Proof.
  induction 1 as [|x l Hx _ IH]; simpl; [done|]. by rewrite Hx.
Qed.

Lemma sorted_sorted (xs : list str) : sorted (sorted xs) = sorted xs.
Proof.
  apply (StronglySorted_unique str_le).
  - apply sorted_StronglySorted.
  - apply sorted_StronglySorted.
  - apply sorted_Permutation.
Qed.

Lemma sorted_filter_fixed (f : str → bool) (xs : list str) :
  sorted (List.filter f (sorted (List.filter f xs))) = sorted (List.filter f xs).
Proof.
  rewrite filter_all; [apply sorted_sorted|].
  rewrite sorted_Permutation. apply Forall_forall. intros x Hx.
  apply list_elem_of_In, filter_In in Hx. tauto.
Qed.

Section attributes.
Context `{PyText}.

Lemma normalize_class_NoDup (d : Attrs) :
  NoDup d.*1 → NoDup (normalize_class d).*1.
Proof.
  intros Hnd. unfold normalize_class. destruct (attrs_get _ d); [|done].
  destruct (sorted _).
  - destruct (has_attr _ d); [|done].
    eapply sublist_NoDup; [done|apply attrs_del_keys].
  - by apply attrs_set_NoDup.
Qed.

Lemma normalize_class_elem (d : Attrs) (k : str) (v : AttrValue) :
  (k, v) ∈ normalize_class d →
  (k = lit "class" ∧ class_normal v) ∨ (k ≠ lit "class" ∧ (k, v) ∈ d).
Proof.
  unfold normalize_class. destruct (attrs_get _ d) as [v0|] eqn:Hg.
  - destruct (sorted _) as [|c cls] eqn:Hs.
    + rewrite (proj2 (has_attr_true _ d)).
      * intros [Hin Hk]%elem_of_attrs_del. by right.
      * apply attrs_get_Some in Hg. apply list_elem_of_fmap. by eexists (_, _).
    + intros [[-> ->]|[Hne Hin]]%elem_of_attrs_set; [left|by right].
      split; [done|]. exists (c :: cls). split; [done|]. split; [done|].
      rewrite <- Hs. apply sorted_filter_fixed.
  - intros Hin. right. split; [|done]. intros ->.
    apply attrs_get_None in Hg. apply Hg, list_elem_of_fmap. by exists (lit "class", v).
Qed.

Lemma normalize_class_fixed (d : Attrs) :
  NoDup d.*1 → (∀ v, (lit "class", v) ∈ d → class_normal v) →
  normalize_class d = d.
Proof.
  intros Hnd Hcl. unfold normalize_class.
  destruct (attrs_get _ d) as [v0|] eqn:Hg; [|done].
  apply attrs_get_Some in Hg. destruct (Hcl _ Hg) as (cls & -> & Hne & Hs).
  simpl. rewrite Hs. destruct cls as [|c cls]; [done|].
  by apply attrs_set_same.
Qed.

Lemma normalize_into_elem (acc d : Attrs) (k : str) (v : AttrValue) :
  (k, v) ∈ normalize_into acc d →
  (k, v) ∈ acc ∨
  (v = VStr (lit "#") ∧ ∃ v0, (k, v0) ∈ d ∧ to_normalize k v0 = true).
Proof.
  unfold normalize_into. revert acc.
  induction d as [|[k0 v0] d IH]; intros acc; simpl; [by left|].
  intros Hin. apply IH in Hin as [Hin|(-> & v1 & Hin & Hn)].
  - destruct (to_normalize k0 v0) eqn:Hn; [|by left].
    apply elem_of_attrs_set in Hin as [[-> ->]|[_ Hin]]; [|by left].
    right. split; [done|]. exists v0. split; [left|done].
  - right. split; [done|]. exists v1. split; [by right|done].
Qed.

Lemma normalize_into_keys (acc d : Attrs) (k : str) :
  k ∈ acc.*1 ∨ (∃ v0, (k, v0) ∈ d ∧ to_normalize k v0 = true) →
  k ∈ (normalize_into acc d).*1.
Proof.
  unfold normalize_into. revert acc.
  induction d as [|[k0 v0] d IH]; intros acc; simpl.
  - intros [Hk|(v0 & Hin & _)]; [done|by apply elem_of_nil in Hin].
  - intros Hk. apply IH.
    destruct Hk as [Hk|(v1 & [Heq|Hin]%elem_of_cons & Hn)].
    + left. destruct (to_normalize k0 v0); [|done].
      apply list_elem_of_fmap in Hk as ([k1 v1] & -> & Hin).
      destruct (decide (k1 = k0)) as [->|Hne].
      * apply list_elem_of_fmap. exists (k0, VStr (lit "#")).
        split; [done|]. apply elem_of_attrs_set. by left.
      * apply list_elem_of_fmap. exists (k1, v1).
        split; [done|]. apply elem_of_attrs_set. by right.
    + simplify_eq. left. rewrite Hn. apply list_elem_of_fmap.
      exists (k0, VStr (lit "#")). split; [done|].
      apply elem_of_attrs_set. by left.
    + right. by exists v1.
Qed.

Lemma to_normalize_hash (k : str) (v : AttrValue) :
  to_normalize k v = true → to_normalize k (VStr (lit "#")) = true.
Proof.
  unfold to_normalize. intros [Hk _]%andb_true_iff. by rewrite Hk.
Qed.

Lemma to_normalize_not_class (v : AttrValue) : to_normalize (lit "class") v = false.
Proof. done. Qed.

Lemma to_delete_normalize (k : str) (v : AttrValue) :
  to_normalize k v = true → to_delete k v = false.
Proof. unfold to_delete. by intros ->. Qed.

Lemma attrs_to_delete_elem (d : Attrs) (k : str) (v : AttrValue) :
  (k, v) ∈ d → to_delete k v = true → k ∈ attrs_to_delete d.
Proof.
  intros Hin Hd. unfold attrs_to_delete. apply list_elem_of_fmap.
  exists (k, v). split; [done|]. apply list_elem_of_In, filter_In.
  split; [by apply list_elem_of_In|done].
Qed.

(** An attribute dict in normal form is left as it is. *)
Lemma normal_attrs_fixed (d : Attrs) : normal_attrs d → normalize_attrs d = d.
Proof.
  intros [Hnd Hcl Hdel Hnorm]. rewrite normalize_attrs_unfold.
  rewrite normalize_class_fixed by done.
  assert (attrs_to_delete d = []) as ->.
  { unfold attrs_to_delete. rewrite filter_none; [done|].
    apply Forall_forall. intros [k v] Hin. by apply Hdel. }
  rewrite delete_all_nil. apply set_all_same; [done|].
  intros [k v] Hin. apply (normalize_into_elem [] d) in Hin
    as [Hin|(-> & v0 & Hin & Hn)]; [by apply elem_of_nil in Hin|].
  by rewrite <- (Hnorm _ _ Hin Hn).
Qed.

(** The canonicalizer brings a proper attribute dict into normal form. *)
Lemma normalize_attrs_normal (d : Attrs) :
  NoDup d.*1 → normal_attrs (normalize_attrs d).
Proof.
  intros Hnd. rewrite normalize_attrs_unfold.
  set (d1 := normalize_class d).
  assert (NoDup d1.*1) as Hnd1 by by apply normalize_class_NoDup.
  assert (Hsrc : ∀ k v,
    (k, v) ∈ set_all (attrs_to_normalize d1) (delete_all (attrs_to_delete d1) d1) →
    (v = VStr (lit "#") ∧ ∃ v0, (k, v0) ∈ d1 ∧ to_normalize k v0 = true) ∨
    ((k ∉ (attrs_to_normalize d1).*1) ∧ (k, v) ∈ d1 ∧ (k ∉ attrs_to_delete d1))).
  { intros k v [Hin|[Hk Hin]]%elem_of_set_all.
    - apply (normalize_into_elem [] d1) in Hin as [Hin|Hin];
        [by apply elem_of_nil in Hin|by left].
    - apply elem_of_delete_all in Hin as [Hin Hd]. by right. }
  split.
  - apply set_all_NoDup. eapply sublist_NoDup; [done|apply delete_all_keys].
  - intros v [(-> & v0 & Hin & Hn)|(_ & Hin & _)]%Hsrc.
    + by rewrite to_normalize_not_class in Hn.
    + apply normalize_class_elem in Hin as [[_ Hc]|[Hne _]]; done.
  - intros k v [(-> & v0 & Hin & Hn)|(_ & Hin & Hd)]%Hsrc.
    + eapply to_delete_normalize, to_normalize_hash, Hn.
    + destruct (to_delete k v) eqn:Hdel; [|done].
      destruct Hd. by eapply attrs_to_delete_elem.
  - intros k v [(-> & _)|(Hk & Hin & _)]%Hsrc Hn; [done|].
    destruct Hk. apply (normalize_into_keys [] d1). right. by exists v.
Qed.

Lemma normalize_attrs_idemp (d : Attrs) :
  NoDup d.*1 → normalize_attrs (normalize_attrs d) = normalize_attrs d.
Proof. intros Hnd. by apply normal_attrs_fixed, normalize_attrs_normal. Qed.

Lemma to_delete_volatile (k : str) (v : AttrValue) :
  k ∈ VOLATILE_ATTRS → to_delete k v = true.
Proof.
  intros Hk. unfold VOLATILE_ATTRS in Hk.
  repeat (apply elem_of_cons in Hk as [->|Hk]); [done..|].
  by apply elem_of_nil in Hk.
Qed.

(** After the loop body an element carries none of the four attributes,
    whatever its attributes were. *)
Lemma normalize_attrs_volatile (d : Attrs) (k : str) :
  k ∈ VOLATILE_ATTRS → attrs_get k (normalize_attrs d) = None.
Proof.
  intros Hk. apply attrs_get_None. intros Hin.
  apply list_elem_of_fmap in Hin as ([k' v] & -> & Hin). simpl in Hk.
  rewrite normalize_attrs_unfold in Hin.
  apply elem_of_set_all in Hin as [Hin|[_ Hin]].
  - apply (normalize_into_elem [] _) in Hin as [Hin|(-> & v0 & Hin & Hn)];
      [by apply elem_of_nil in Hin|].
    pose proof (to_delete_volatile k' v0 Hk) as Hd.
    rewrite (to_delete_normalize _ _ Hn) in Hd. done.
  - apply elem_of_delete_all in Hin as [Hin Hd]. destruct Hd.
    eapply attrs_to_delete_elem; [done|]. by apply to_delete_volatile.
Qed.
End attributes.

Section canonical_form.
Context `{PyText, Bs4}.

Lemma flat_map_fmap {A B C} (f : A → B) (g : B → list C) (l : list A) :
  flat_map g (f <$> l) = flat_map (g ∘ f) l.
Proof. induction l as [|x l IH]; csimpl; [done|]. by rewrite IH. Qed.

Lemma flat_map_flat_map {A B C} (f : A → list B) (g : B → list C) (l : list A) :
  flat_map g (flat_map f l) = flat_map (λ x, flat_map g (f x)) l.
Proof.
  induction l as [|x l IH]; simpl; [done|]. by rewrite flat_map_app, IH.
Qed.

Lemma flat_map_ext_Forall {A B} (f g : A → list B) (l : list A) :
  Forall (λ x, f x = g x) l → flat_map f l = flat_map g l.
Proof. induction 1 as [|x l Hx _ IH]; simpl; [done|]. by rewrite Hx, IH. Qed.

Lemma canon_node_fused (c : Node) :
  flat_map string_step (normalize_element <$> comment_step c) = canon_node c.
Proof.
  induction c as [name attrs children IH| |] using Node_nested_ind; simpl.
  - f_equal. f_equal.
    rewrite flat_map_fmap, flat_map_flat_map.
    apply flat_map_ext_Forall. eapply Forall_impl; [apply IH|].
    intros c Hc. simpl. by rewrite <- Hc, flat_map_fmap.
  - rewrite app_nil_r. done.
  - done.
Qed.

(** The canonical form of a root: the root keeps its attributes. *)
Lemma canonical_root (name : str) (attrs : Attrs) (children : list Node) :
  normalize_strings (normalize_below (remove_comments (Elem name attrs children)))
  = Elem name attrs (flat_map canon_node children).
Proof.
  simpl. f_equal. rewrite flat_map_fmap, flat_map_flat_map.
  apply flat_map_ext_Forall, Forall_forall. intros c _.
  rewrite <- canon_node_fused. by rewrite flat_map_fmap.
Qed.

Lemma flat_map_fixed {A} (f : A → list A) (l : list A) :
  Forall (λ x, f x = [x]) l → flat_map f l = l.
Proof. induction 1 as [|x l Hx _ IH]; simpl; [done|]. by rewrite Hx, IH. Qed.

Lemma Forall_flat_map {A B} (P : B → Prop) (f : A → list B) (l : list A) :
  Forall (λ x, Forall P (f x)) l → Forall P (flat_map f l).
Proof.
  induction 1 as [|x l Hx _ IH]; simpl; [done|]. by apply Forall_app.
Qed.

(** A second pass changes nothing below the root. *)
Lemma canon_node_fixed (c : Node) :
  dict_attrs c = true → Forall (λ o, canon_node o = [o]) (canon_node c).
Proof.
  induction c as [name attrs children IH|s|s] using Node_nested_ind; simpl.
  - intros [Hnd Hcs]%andb_true_iff. apply bool_decide_eq_true in Hnd.
    apply Forall_singleton. simpl.
    rewrite normalize_attrs_idemp by done. do 2 f_equal.
    apply flat_map_fixed, Forall_flat_map.
    rewrite forallb_forall in Hcs. rewrite Forall_forall in IH |- *.
    intros c Hc. apply IH; [done|]. by apply Hcs, list_elem_of_In.
  - intros _. destruct (normalize_text s) as [|d nt] eqn:Hs; [done|].
    apply Forall_singleton. simpl. rewrite <- Hs, normalize_text_idemp, Hs. done.
  - done.
Qed.

Lemma canonical_root_fixed (name : str) (attrs : Attrs) (children : list Node) :
  forallb dict_attrs children = true →
  flat_map canon_node (flat_map canon_node children) = flat_map canon_node children.
Proof.
  intros Hcs. apply flat_map_fixed, Forall_flat_map, Forall_forall.
  intros c Hc. apply canon_node_fixed.
  rewrite forallb_forall in Hcs. by apply Hcs, list_elem_of_In.
Qed.

(** What [find_child] returns is an element, a child, and has the name. *)
Lemma find_child_Some (name : str) (soup root : Node) :
  find_child name soup = Some root →
  root ∈ contents soup ∧ is_elem root = true ∧ tag_name root = name.
Proof.
  unfold find_child, find_all_children. intros Hh.
  apply head_Some_elem_of, list_elem_of_In, filter_In in Hh as [Hin Hn].
  unfold named in Hn. apply andb_true_iff in Hn as [He Hn].
  apply bool_decide_eq_true, list_elem_of_singleton in Hn.
  split; [by apply list_elem_of_In|done].
Qed.

Lemma dict_attrs_contents (soup c : Node) :
  dict_attrs soup = true → c ∈ contents soup → dict_attrs c = true.
Proof.
  destruct soup as [name attrs children| |]; simpl;
    [|by intros _ ?%elem_of_nil..].
  intros [_ Hcs]%andb_true_iff Hc. rewrite forallb_forall in Hcs.
  by apply Hcs, list_elem_of_In.
Qed.

Lemma canon_node_clean (c : Node) :
  Forall (λ o, clean o ∧ Forall clean (descendants o)) (canon_node c).
Proof.
  induction c as [name attrs children IH|s|s] using Node_nested_ind; simpl.
  - apply Forall_singleton. split.
    + intros k Hk. by apply normalize_attrs_volatile.
    + simpl. apply Forall_flat_map, Forall_flat_map.
      eapply Forall_impl; [apply IH|]. intros c Hc.
      eapply Forall_impl; [apply Hc|]. intros o [Ho Hd]. by apply Forall_cons.
  - destruct (normalize_text s); [done|]. apply Forall_singleton. by split.
  - done.
Qed.

Lemma canonical_descendants_clean (name : str) (attrs : Attrs)
    (children : list Node) :
  Forall clean (descendants (Elem name attrs (flat_map canon_node children))).
Proof.
  simpl. apply Forall_flat_map, Forall_flat_map, Forall_forall. intros c _.
  eapply Forall_impl; [apply canon_node_clean|].
  intros o [Ho Hd]. by apply Forall_cons.
Qed.

Lemma _canonicalize_Some (tag c : Node) :
  _canonicalize tag = Some c →
  ∃ name attrs children,
    find_child (tag_name tag) (html_parser (str_of tag))
      = Some (Elem name attrs children) ∧
    c = Elem name attrs (flat_map canon_node children).
Proof.
  unfold _canonicalize.
  destruct (find_child _ _) as [root|] eqn:Hf; [|done]. intros [= <-].
  destruct (find_child_Some _ _ _ Hf) as (_ & He & _).
  destruct root as [name attrs children| |]; [|done..].
  exists name, attrs, children. split; [done|]. apply canonical_root.
Qed.
End canonical_form.

Section clusters.
Context `{PyText, Similarity}.

(** What the inner loop adds to the cluster of a seed. *)
Lemma near_loop_spec (items : gmap str Candidate) (key : str) (seed : Candidate)
    (near_keys : list str) (cluster cluster' : Cluster) (visited visited' : gset str) :
  near_loop items key seed near_keys cluster visited = Some (cluster', visited') →
  ∃ added : Cluster,
    cluster' = cluster ++ added ∧
    visited' = list_to_set added.*1 ∪ visited ∧
    NoDup added.*1 ∧
    Forall (λ m, m.1 ∉ visited ∧ m.1 ≠ key ∧ items !! m.1 = Some m.2 ∧
                 accepted seed m.2) added.
Proof.
  revert cluster visited.
  induction near_keys as [|nk rest IH]; intros cluster visited; simpl.
  - intros [= <- <-]. exists []. rewrite app_nil_r. split; [done|].
    split; [set_solver|]. split; [constructor|done].
  - destruct (bool_decide (nk = key) || bool_decide (nk ∈ visited)) eqn:Hskip;
      [apply IH|].
    apply orb_false_iff in Hskip as [Hk Hv].
    apply bool_decide_eq_false in Hk, Hv.
    destruct (items !! nk) as [near|] eqn:Hnear; [|done].
    destruct (too_far seed near) eqn:Hfar; [apply IH|].
    destruct (size_mismatch seed near) eqn:Hsize; [apply IH|].
    intros (added & -> & -> & Hnd & Hall)%IH.
    exists ((nk, near) :: added). rewrite <- app_assoc. split; [done|].
    split; [set_solver|]. split.
    + simpl. apply NoDup_cons. split; [|done]. intros Hin.
      apply list_elem_of_fmap in Hin as (m & -> & Hm).
      rewrite Forall_forall in Hall. destruct (Hall m Hm) as [Hnv _]. set_solver.
    + apply Forall_cons. split; [done|].
      eapply Forall_impl; [apply Hall|]. intros m (Hnv & ? & ? & ?).
      split; [set_solver|done].
Qed.

Lemma cluster_keys_snoc (clusters : list Cluster) (cl : Cluster) :
  cluster_keys (clusters ++ [cl]) = cluster_keys clusters ++ cl.*1.
Proof.
  unfold cluster_keys. rewrite fmap_app, concat_app. simpl. by rewrite app_nil_r.
Qed.

Lemma seed_loop_spec (items : gmap str Candidate) (lsh : LSH)
    (done_keys keys : list str) (clusters result : list Cluster)
    (visited : gset str) :
  StronglySorted str_le (done_keys ++ keys) →
  (∀ k, k ∈ dom items → k ∈ done_keys ++ keys) →
  (∀ k, k ∈ done_keys → k ∈ visited) →
  clusters_ok items clusters visited →
  seed_loop items lsh keys clusters visited = Some result →
  ∃ visited', clusters_ok items result visited'.
Proof.
  revert done_keys clusters visited.
  induction keys as [|key rest IH]; intros done_keys clusters visited
    Hsorted Hdom Hdone Hok; simpl.
  - intros [= <-]. by exists visited.
  - assert (Hnext : StronglySorted str_le ((done_keys ++ [key]) ++ rest))
      by by rewrite <- app_assoc.
    assert (Hdom' : ∀ k, k ∈ dom items → k ∈ (done_keys ++ [key]) ++ rest)
      by (intros k Hk; rewrite <- app_assoc; by apply Hdom).
    case_bool_decide as Hvis.
    { apply (IH (done_keys ++ [key])); [done..| |done].
      intros k [Hk|Hk%list_elem_of_singleton]%elem_of_app; [by apply Hdone|by subst]. }
    destruct (items !! key) as [seed|] eqn:Hseed; [|done].
    destruct (near_loop _ _ _ _ _ _) as [[cluster visited']|] eqn:Hnear; [|done].
    apply near_loop_spec in Hnear as (added & -> & -> & Hnd & Hall).
    apply (IH (done_keys ++ [key])); [done..| |].
    { intros k [Hk|Hk%list_elem_of_singleton]%elem_of_app;
        [specialize (Hdone k Hk)|]; set_solver. }
    destruct Hok as [Hsize Hnodup Hvisited Hseeded].
    rewrite Forall_forall in Hall.
    destruct (Nat.ltb_spec 1 (length ([(key, seed)] ++ added))) as [Hlen|Hlen].
    + split.
      * apply Forall_app. split; [done|]. apply Forall_singleton. lia.
      * rewrite cluster_keys_snoc. apply NoDup_app. split; [done|]. split.
        -- intros k Hk Hin. specialize (Hvisited k Hk). simpl in Hin.
           apply elem_of_cons in Hin as [->|Hin]; [done|].
           apply list_elem_of_fmap in Hin as (m & -> & Hm).
           destruct (Hall m Hm) as [Hnv _]. set_solver.
        -- simpl. apply NoDup_cons. split; [|done]. intros Hin.
           apply list_elem_of_fmap in Hin as (m & Heq & Hm).
           destruct (Hall m Hm) as (_ & Hne & _). done.
      * intros k. rewrite cluster_keys_snoc. simpl.
        intros [Hk|[->|Hk]%elem_of_cons]%elem_of_app.
        -- specialize (Hvisited k Hk). set_solver.
        -- set_solver.
        -- apply elem_of_union_l, elem_of_list_to_set. done.
      * apply Forall_app. split; [done|]. apply Forall_singleton.
        exists key, seed, added. split; [done|]. split; [done|].
        apply Forall_forall. intros m Hm.
        destruct (Hall m Hm) as (Hnv & Hne & Hlook & Hacc).
        split; [|done]. split; [|done].
        assert (m.1 ∈ done_keys ++ key :: rest) as Hin
          by (apply Hdom, elem_of_dom; eauto).
        apply elem_of_app in Hin as [Hin|Hin];
          [specialize (Hdone _ Hin); set_solver|].
        apply elem_of_cons in Hin as [Hin|Hin]; [done|].
        apply StronglySorted_app_1_r, StronglySorted_inv in Hsorted as [_ Hle].
        rewrite Forall_forall in Hle. by apply Hle.
    + split; [done|done| |done].
      intros k Hk. specialize (Hvisited k Hk). set_solver.
Qed.

Lemma sorted_keys_elem (items : gmap str Candidate) (k : str) :
  k ∈ dom items → k ∈ sorted_keys items.
Proof.
  intros Hk. unfold sorted_keys. rewrite sorted_Permutation.
  by apply elem_of_elements.
Qed.

(** The result of [_cluster_candidates]. *)
Lemma _cluster_candidates_ok (items : gmap str Candidate) (lsh : LSH)
    (clusters : list Cluster) :
  _cluster_candidates items lsh = Some clusters →
  ∃ visited, clusters_ok items clusters visited.
Proof.
  unfold _cluster_candidates. apply (seed_loop_spec items lsh []); simpl.
  - apply sorted_StronglySorted.
  - apply sorted_keys_elem.
  - by intros k ?%elem_of_nil.
  - split; [done|constructor|by intros k ?%elem_of_nil|done].
Qed.

(** [_cluster_candidates] ends without a [KeyError] when the index answers
    with stored keys, as an index does that holds the stored keys only. *)
Lemma near_loop_total (items : gmap str Candidate) (key : str) (seed : Candidate)
    (near_keys : list str) (cluster : Cluster) (visited : gset str) :
  (∀ nk, nk ∈ near_keys → nk ∈ dom items) →
  is_Some (near_loop items key seed near_keys cluster visited).
Proof.
  revert cluster visited.
  induction near_keys as [|nk rest IH]; intros cluster visited Hin; simpl; [done|].
  assert (∀ nk, nk ∈ rest → nk ∈ dom items) as Hrest
    by (intros k Hk; apply Hin; by right).
  destruct (_ || _); [by apply IH|].
  destruct (items !! nk) as [near|] eqn:Hnear.
  - destruct (too_far _ _); [by apply IH|].
    destruct (size_mismatch _ _); by apply IH.
  - apply not_elem_of_dom in Hnear. destruct Hnear. apply Hin. left.
Qed.

Lemma seed_loop_total (items : gmap str Candidate) (lsh : LSH)
    (keys : list str) (clusters : list Cluster) (visited : gset str) :
  (∀ k, k ∈ keys → k ∈ dom items) →
  (∀ m nk, nk ∈ lsh_query lsh m → nk ∈ dom items) →
  is_Some (seed_loop items lsh keys clusters visited).
Proof.
  intros Hkeys Hq. revert clusters visited.
  induction keys as [|key rest IH]; intros clusters visited; simpl; [done|].
  assert (∀ k, k ∈ rest → k ∈ dom items) as Hrest
    by (intros k Hk; apply Hkeys; by right).
  case_bool_decide; [by apply IH|].
  destruct (items !! key) as [seed|] eqn:Hseed.
  - destruct (near_loop_total items key seed (lsh_query lsh (mh seed))
                [(key, seed)] ({[key]} ∪ visited)) as [[cl v] ->]; [by apply Hq|].
    by apply IH.
  - apply not_elem_of_dom in Hseed. destruct Hseed. apply Hkeys. left.
Qed.

Lemma _cluster_candidates_total (items : gmap str Candidate) (lsh : LSH) :
  (∀ m nk, nk ∈ lsh_query lsh m → nk ∈ dom items) →
  is_Some (_cluster_candidates items lsh).
Proof.
  intros Hq. apply seed_loop_total; [|done].
  intros k Hk. unfold sorted_keys in Hk. rewrite sorted_Permutation in Hk.
  by apply elem_of_elements in Hk.
Qed.
End clusters.

(** ** [_extract_partials] returns *)

Section partials_return.
Context `{PyText, Bs4, Similarity}.

(** The loop over the clusters ends without an exception when the parser
    finds an element in the raw markup of every first member. *)
Lemma extract_loop_total (i : nat) (clusters : list Cluster) :
  Forall (λ cl, ∃ key seed rest,
                  cl = (key, seed) :: rest ∧
                  is_Some (head (find_all_tags (html_parser (raw_tag_html seed)))))
         clusters →
  is_Some (extract_loop i clusters).
Proof.
  intros Hall. revert i.
  induction Hall as [|cl clusters (key & seed & rest & -> & [t Ht]) _ IH];
    intros i; simpl; [done|].
  rewrite Ht. destruct (IH (S i)) as [es ->]. done.
Qed.

(** What [_extract_partials] emits for each cluster: the parsed raw markup
    of the first member without the marker, and the instances of the
    cluster. *)
Lemma extract_loop_emitted (i : nat) (clusters : list Cluster)
    (emitted : list (Partial * ClusterInfo)) :
  extract_loop i clusters = Some emitted →
  Forall2 (λ (cl : Cluster) (e : Partial * ClusterInfo),
             ∃ key seed rest template,
               cl = (key, seed) :: rest ∧
               head (find_all_tags (html_parser (raw_tag_html seed)))
                 = Some template ∧
               partial_body e.1 = strip_marker template ∧
               instances e.2 = (λ kc, (kc.1, html_path kc.2)) <$> cl)
          clusters emitted.
Proof.
  revert i emitted.
  induction clusters as [|cl clusters IH]; intros i emitted; simpl.
  - intros [= <-]. constructor.
  - destruct (extract_partial i cl) as [e|] eqn:He; [|done].
    destruct (extract_loop (S i) clusters) as [es|] eqn:Hes; [|done].
    intros [= <-]. constructor; [|by eapply IH].
    unfold extract_partial in He. destruct cl as [|[key seed] rest]; [done|].
    destruct (head _) as [template|] eqn:Ht; [|done].
    simplify_eq. by exists key, seed, rest, template.
Qed.
End partials_return.

(** ** Places *)

Lemma elem_of_walk_children {A} (f : nat → Node → list A) (i : nat)
    (cs : list Node) (x : A) :
  x ∈ walk_children f i cs ↔ ∃ j c, cs !! j = Some c ∧ x ∈ f (i + j) c.
Proof.
  revert i. induction cs as [|c cs IH]; intros i; simpl.
  - split; [by intros ?%elem_of_nil|by intros (j & c & [=] & _)].
  - rewrite elem_of_app, IH. split.
    + intros [Hx|(j & c' & Hj & Hx)].
      * exists 0, c. by rewrite Nat.add_0_r.
      * exists (S j), c'. by rewrite Nat.add_succ_r.
    + intros ([|j] & c' & Hj & Hx); simplify_eq/=.
      * left. by rewrite Nat.add_0_r in Hx.
      * right. exists j, c'. by rewrite Nat.add_succ_r in Hx.
Qed.

Lemma walk_children_snd (f : nat → Node → list (place * Node))
    (g : Node → list Node) (i : nat) (cs : list Node) :
  Forall (λ c, ∀ j, (f j c).*2 = g c) cs →
  (walk_children f i cs).*2 = flat_map g cs.
Proof.
  intros Hall. revert i. induction Hall as [|c cs Hc _ IH]; intros i; simpl; [done|].
  by rewrite fmap_app, Hc, IH.
Qed.

(** The nodes listed with their places are the descendants. *)
Lemma descendants_at_snd (here : place) (n : Node) :
  (descendants_at here n).*2 = descendants n.
Proof.
  revert here. induction n as [name attrs children IH| |] using Node_nested_ind;
    intros here; simpl; [|done..].
  apply walk_children_snd. eapply Forall_impl; [apply IH|].
  intros c Hc j. simpl. by rewrite Hc.
Qed.

(** Every listed place leads to the listed node, and lies below the start. *)
Lemma descendants_at_valid (here : place) (n : Node) (p : place) (c : Node) :
  (p, c) ∈ descendants_at here n →
  ∃ q, p = here ++ q ∧ q ≠ [] ∧ get_at q n = Some c.
Proof.
  revert here p c.
  induction n as [name attrs children IH| |] using Node_nested_ind;
    intros here p c; simpl; [|by intros ?%elem_of_nil..].
  intros (j & c' & Hj & Hx)%elem_of_walk_children. simpl in Hx.
  apply elem_of_cons in Hx as [[= -> ->]|Hx].
  - exists [j]. simpl. by rewrite Hj.
  - rewrite Forall_forall in IH.
    apply (IH c' (list_elem_of_lookup_2 _ _ _ Hj)) in Hx as (q & -> & Hq & Hget).
    exists (j :: q). rewrite <- app_assoc. simpl. by rewrite Hj.
Qed.

Lemma update_at_is_Some (q : place) (f : Node → Node) (n c : Node) :
  get_at q n = Some c → is_Some (update_at q f n).
Proof.
  revert n. induction q as [|i q IH]; intros n; simpl; [done|].
  destruct n as [name attrs children| |]; simpl; [|done..].
  destruct (children !! i) as [c'|]; [|done].
  intros Hget. destruct (IH _ Hget) as [n' ->]. done.
Qed.

Lemma find_split {A} (f : A → bool) (l : list A) (x : A) :
  List.find f l = Some x →
  ∃ l1 l2, l = l1 ++ x :: l2 ∧ f x = true ∧ Forall (λ y, f y = false) l1.
Proof.
  induction l as [|y l IH]; simpl; [done|]. destruct (f y) eqn:Hy.
  - intros [= ->]. by exists [], l.
  - intros (l1 & l2 & -> & Hx & Hall)%IH. exists (y :: l1), l2.
    split; [done|]. split; [done|]. by apply Forall_cons.
Qed.

Lemma get_at_app (p q : place) (n c : Node) :
  get_at p n = Some c → get_at (p ++ q) n = get_at q c.
Proof.
  revert n. induction p as [|i p IH]; intros n; simpl; [by intros [= ->]|].
  destruct (contents n !! i) as [c'|]; [apply IH|done].
Qed.

Lemma get_at_update_at (p : place) (f : Node → Node) (n n' : Node) :
  update_at p f n = Some n' → get_at p n' = f <$> get_at p n.
Proof.
  revert n n'. induction p as [|i p IH]; intros n n'; simpl.
  - by intros [= <-].
  - destruct n as [name attrs children|s|s]; [|done..]. simpl.
    destruct (children !! i) as [c|] eqn:Hc; [|done].
    destruct (update_at p f c) as [c'|] eqn:Hu; [|done]. intros [= <-]. simpl.
    rewrite list_lookup_insert_eq by by eapply lookup_lt_Some.
    by apply IH.
Qed.

Lemma get_at_update_at_apart (p q : place) (f : Node → Node) (n n' : Node) :
  update_at p f n = Some n' → ¬ p `prefix_of` q → ¬ q `prefix_of` p →
  get_at q n' = get_at q n.
Proof.
  revert q n n'. induction p as [|i p IH]; intros q n n' Hu Hpq Hqp.
  - destruct Hpq. apply prefix_nil.
  - destruct q as [|j q]; [destruct Hqp; apply prefix_nil|].
    simpl in Hu. destruct n as [name attrs children|s|s]; [|done..].
    destruct (children !! i) as [c|] eqn:Hc; [|done].
    destruct (update_at p f c) as [c'|] eqn:Hu'; [|done].
    injection Hu as <-. simpl. destruct (decide (i = j)) as [->|Hne].
    + rewrite list_lookup_insert_eq by by eapply lookup_lt_Some. rewrite Hc.
      apply (IH q c c' Hu').
      * intros Hp. apply Hpq. by apply prefix_cons.
      * intros Hq. apply Hqp. by apply prefix_cons.
    + by rewrite list_lookup_insert_ne.
Qed.

Lemma update_at_Some_get (p : place) (f : Node → Node) (n n' : Node) :
  update_at p f n = Some n' → is_Some (get_at p n).
Proof.
  revert n n'. induction p as [|i p IH]; intros n n'; simpl; [by eexists|].
  destruct n as [name attrs children|s|s]; [|done..]. simpl.
  destruct (children !! i) as [c|]; [|done].
  destruct (update_at p f c) as [c'|] eqn:Hu; [|done]. intros _. by eapply IH.
Qed.

(** *** Splicing nodes into the place of a node *)

Lemma splice_at_cons (i : nat) (p : place) (news : list Node) (name : str)
    (attrs : Attrs) (children : list Node) :
  p ≠ [] →
  splice_at (i :: p) news (Elem name attrs children)
  = match children !! i with
    | Some c =>
        (λ c', Elem name attrs (<[i := c']> children)) <$> splice_at p news c
    | None => None
    end.
Proof. by destruct p. Qed.

Lemma splice_at_is_Some (q : place) (news : list Node) (n c : Node) :
  q ≠ [] → get_at q n = Some c → is_Some (splice_at q news n).
Proof.
  revert n. induction q as [|i q IH]; intros n Hne; [done|].
  destruct n as [name attrs children|s|s]; [|done..]. cbn [get_at contents].
  destruct (children !! i) as [c'|] eqn:Hc; [|done].
  destruct q as [|j q].
  - intros _. simpl. rewrite Hc. by eexists.
  - intros Hget. rewrite splice_at_cons, Hc by done.
    destruct (IH c') as [n' ->]; [done..|]. by eexists.
Qed.

(** The node at [parent ++ [i]] is replaced by [news] among the children of
    its parent; what is neither below nor above the parent stays. *)
Lemma splice_at_snoc (parent : place) (i : nat) (news : list Node) (n n' : Node) :
  splice_at (parent ++ [i]) news n = Some n' →
  ∃ name attrs children el,
    get_at parent n = Some (Elem name attrs children) ∧
    children !! i = Some el ∧
    get_at parent n'
      = Some (Elem name attrs (take i children ++ news ++ drop (S i) children)) ∧
    ∀ q, ¬ parent `prefix_of` q → ¬ q `prefix_of` parent →
         get_at q n' = get_at q n.
Proof.
  revert n n'. induction parent as [|j parent IH]; intros n n'.
  - simpl. destruct n as [name attrs children|s|s]; [|done..].
    destruct (children !! i) as [el|] eqn:Hel; [|done]. intros [= <-].
    exists name, attrs, children, el. split; [done|]. split; [done|].
    split; [done|]. intros q Hq. destruct Hq. apply prefix_nil.
  - rewrite <- app_comm_cons.
    destruct n as [name attrs children|s|s]; [|by destruct parent..].
    rewrite splice_at_cons by by destruct parent.
    destruct (children !! j) as [c|] eqn:Hc; [|done].
    destruct (splice_at (parent ++ [i]) news c) as [c'|] eqn:Hs; [|done].
    intros [= <-].
    destruct (IH c c' Hs) as (name' & attrs' & children' & el & Hp & Hel & Hp' & Hframe).
    exists name', attrs', children', el. cbn [get_at contents].
    rewrite Hc, list_lookup_insert_eq by by eapply lookup_lt_Some.
    split; [done|]. split; [done|]. split; [done|].
    intros [|k q] Hpq Hqp; [destruct Hqp; apply prefix_nil|].
    cbn [get_at contents]. destruct (decide (j = k)) as [->|Hne].
    + rewrite list_lookup_insert_eq by by eapply lookup_lt_Some. rewrite Hc.
      apply Hframe.
      * intros Hp0. apply Hpq. by apply prefix_cons.
      * intros Hq0. apply Hqp. by apply prefix_cons.
    + by rewrite list_lookup_insert_ne.
Qed.

(** ** The rewriter and a marker that is not in the tree *)

Section replace.
Context `{Bs4}.

Lemma find_marker_None (ref_id : str) (soup : Node) :
  find_marker ref_id soup = None ↔
  ∀ el, el ∈ descendants soup → has_marker ref_id el = false.
Proof.
  unfold find_marker. rewrite <- (descendants_at_snd []). split.
  - destruct (List.find _ _) eqn:Hf; [done|]. intros _ el Hel.
    apply list_elem_of_fmap in Hel as ([p c] & -> & Hin).
    apply list_elem_of_In in Hin. apply (find_none _ _ Hf) in Hin. done.
  - intros Hall. destruct (List.find _ _) as [[p c]|] eqn:Hf; [|done].
    apply find_some in Hf as [Hin Hm]. simpl in Hm.
    rewrite Hall in Hm; [done|]. apply list_elem_of_fmap. exists (p, c).
    split; [done|]. by apply list_elem_of_In.
Qed.

Lemma find_marker_Some (ref_id : str) (soup : Node) (target : place) :
  find_marker ref_id soup = Some target →
  target ≠ [] ∧
  ∃ el, el ∈ descendants soup ∧ get_at target soup = Some el ∧
        has_marker ref_id el = true.
Proof.
  unfold find_marker. destruct (List.find _ _) as [[p c]|] eqn:Hf; [|done].
  intros [= <-]. apply find_some in Hf as [Hin Hm]. simpl in *.
  apply list_elem_of_In in Hin.
  destruct (descendants_at_valid [] soup p c Hin) as (q & -> & Hq & Hget).
  split; [done|]. exists c. split; [|done].
  rewrite <- (descendants_at_snd []). apply list_elem_of_fmap. by exists (q, c).
Qed.

(** Replacing the element that [find] returned does not raise. *)
Lemma replace_found (ref_id : str) (soup new : Node) (target : place) :
  find_marker ref_id soup = Some target →
  ∃ soup', replace_with target new soup = Ok soup'.
Proof.
  intros (Hne & el & _ & Hget & _)%find_marker_Some. unfold replace_with.
  destruct (splice_at_is_Some target (contents new) soup el Hne Hget)
    as [soup' ->].
  by exists soup'.
Qed.

Lemma replace_instance_total (p : Path) (include_stmt : str)
    (inst : str * Path) (soup : Node) :
  ∃ soup', replace_instance p include_stmt inst soup = Ok soup'.
Proof.
  unfold replace_instance. case_bool_decide; [|by exists soup].
  destruct (find_marker inst.1 soup) as [target|] eqn:Hf; [|by exists soup].
  by eapply replace_found.
Qed.

Lemma replace_instances_total (p : Path) (include_stmt : str)
    (insts : list (str * Path)) (soup : Node) :
  ∃ soup', replace_instances p include_stmt insts soup = Ok soup'.
Proof.
  revert soup. induction insts as [|inst insts IH]; intros soup; simpl;
    [by exists soup|].
  destruct (replace_instance_total p include_stmt inst soup) as [soup' ->].
  apply IH.
Qed.

Lemma replace_clusters_total (p : Path) (clusters : list ClusterInfo)
    (soup : Node) :
  ∃ soup', replace_clusters p clusters soup = Ok soup'.
Proof.
  revert soup. induction clusters as [|cluster clusters IH]; intros soup; simpl;
    [by exists soup|].
  destruct (replace_instances_total p
              (create_include_statement (partial_file cluster))
              (instances cluster) soup) as [soup' ->].
  apply IH.
Qed.

Lemma replace_instance_missing (p : Path) (include_stmt : str)
    (inst : str * Path) (soup : Node) :
  (∀ el, el ∈ descendants soup → has_marker inst.1 el = false) →
  replace_instance p include_stmt inst soup = Ok soup.
Proof.
  intros Hmiss%find_marker_None. unfold replace_instance. rewrite Hmiss.
  by case_bool_decide.
Qed.

Lemma replace_instance_changed (p : Path) (include_stmt : str)
    (inst : str * Path) (soup soup' : Node) :
  replace_instance p include_stmt inst soup = Ok soup' → soup' ≠ soup →
  inst.2 = p ∧ ∃ el, el ∈ descendants soup ∧ has_marker inst.1 el = true.
Proof.
  unfold replace_instance. case_bool_decide; [|by intros [= ->]].
  destruct (find_marker inst.1 soup) as [target|] eqn:Hf; [|by intros [= ->]].
  intros _ _. split; [done|].
  apply find_marker_Some in Hf as (_ & el & Hel & _ & Hm). eauto.
Qed.

(** When no instance of the clusters has its marker in the tree, the
    document is left as it is. *)
Lemma replace_instances_missing (p : Path) (include_stmt : str)
    (insts : list (str * Path)) (soup : Node) :
  (∀ inst el, inst ∈ insts → el ∈ descendants soup → has_marker inst.1 el = false) →
  replace_instances p include_stmt insts soup = Ok soup.
Proof.
  induction insts as [|inst insts IH]; intros Hmiss; simpl; [done|].
  rewrite replace_instance_missing.
  - apply IH. intros i el Hi. apply Hmiss. by right.
  - intros el. apply Hmiss. left.
Qed.

Lemma replace_clusters_missing (p : Path) (clusters : list ClusterInfo)
    (soup : Node) :
  (∀ cluster inst el, cluster ∈ clusters → inst ∈ instances cluster →
     el ∈ descendants soup → has_marker inst.1 el = false) →
  replace_clusters p clusters soup = Ok soup.
Proof.
  induction clusters as [|cluster clusters IH]; intros Hmiss; simpl; [done|].
  rewrite replace_instances_missing.
  - apply IH. intros c i el Hc. apply Hmiss. by right.
  - intros i el. apply Hmiss. left.
Qed.
End replace.

(** ** The shared head and footer of identical documents *)

Lemma intersection_all_replicate (n : nat) (X : gset str) :
  intersection_all (replicate (S n) X) = X.
Proof.
  simpl. induction n as [|n IH]; simpl; [done|].
  by rewrite (idemp_L (∩) X).
Qed.

Lemma elem_of_sorted_elements (X : gset str) (k : str) :
  k ∈ sorted (elements X) ↔ k ∈ X.
Proof. by rewrite sorted_Permutation, elem_of_elements. Qed.

(** The lines of a set whose members the dict maps to themselves. *)
Lemma rep_lines_same (rep : gmap str str) (X : gset str) :
  (∀ k, k ∈ X → rep !! k = Some k) →
  rep_lines rep X = Some (sorted (elements X)).
Proof.
  intros Hrep. unfold rep_lines. apply mapM_Some_2, Forall2_same_length_lookup.
  split; [done|]. intros i x y Hx Hy. simplify_eq.
  apply Hrep, elem_of_sorted_elements. by eapply list_elem_of_lookup_2.
Qed.

Section shared.
Context `{PyText, Bs4}.

Lemma rep_update_lookup (elems : list Node) (rep : gmap str str) (k : str) :
  rep !! k = Some k ∨ k ∈ str_of <$> elems →
  rep_update elems rep !! k = Some k.
Proof.
  unfold rep_update. revert rep.
  induction elems as [|m elems IH]; intros rep; simpl.
  - intros [Hk|Hk%elem_of_nil]; done.
  - intros Hk. apply IH.
    destruct (decide (str_of m = k)) as [<-|Hne].
    + left. apply lookup_insert_eq.
    + rewrite lookup_insert_ne by done.
      destruct Hk as [Hk|[Hk|Hk]%elem_of_cons]; [by left|congruence|by right].
Qed.

Lemma elem_of_str_set (kept : Node → bool) (elems : list Node) (k : str) :
  k ∈ str_set kept elems ↔ ∃ m, m ∈ elems ∧ kept m = true ∧ k = str_of m.
Proof.
  unfold str_set. rewrite elem_of_list_to_set, list_elem_of_fmap. split.
  - intros (m & -> & [Hin Hk]%list_elem_of_In%filter_In).
    exists m. by rewrite list_elem_of_In.
  - intros (m & Hin & Hk & ->). exists m. split; [done|].
    apply list_elem_of_In, filter_In. by rewrite <- list_elem_of_In.
Qed.

(** The accumulators after the heads of [n] copies of one document. *)
Lemma head_fold_same (doc head : Node) (n : nat) (acc : HeadAcc) :
  soup_head doc = Some head →
  let acc' := foldl head_step acc (replicate n doc) in
  let metas := find_all (lit "meta") head in
  let links := find_all (lit "link") head in
  let styles := find_all (lit "style") head in
  let scripts := find_all (lit "script") head in
  titles acc' = titles acc ++ replicate n (head_title head) ∧
  meta_sets acc' = meta_sets acc ++ replicate n (str_set meta_kept metas) ∧
  link_sets acc' = link_sets acc ++ replicate n (str_set link_kept links) ∧
  style_sets acc' = style_sets acc ++ replicate n (str_set (λ _, true) styles) ∧
  head_script_sets acc' =
    head_script_sets acc ++ replicate n (str_set head_script_kept scripts) ∧
  (∀ k, rep_meta acc !! k = Some k ∨ (0 < n ∧ k ∈ str_of <$> metas) →
        rep_meta acc' !! k = Some k) ∧
  (∀ k, rep_link acc !! k = Some k ∨ (0 < n ∧ k ∈ str_of <$> links) →
        rep_link acc' !! k = Some k) ∧
  (∀ k, rep_style acc !! k = Some k ∨ (0 < n ∧ k ∈ str_of <$> styles) →
        rep_style acc' !! k = Some k) ∧
  (∀ k, rep_script acc !! k = Some k ∨ (0 < n ∧ k ∈ str_of <$> scripts) →
        rep_script acc' !! k = Some k).
Proof.
  intros Hhead. revert acc. induction n as [|n IH]; intros acc; simpl.
  - rewrite !app_nil_r. repeat split; try done; intros k [Hk|[Hn _]]; done || lia.
  - destruct (IH (head_step acc doc)) as (Ht & Hm & Hl & Hs & Hh & Hrm & Hrl & Hrs & Hrh).
    unfold head_step in *. rewrite Hhead in *. simpl in *.
    rewrite Ht, Hm, Hl, Hs, Hh, <- !app_assoc. simpl.
    repeat split; try done.
    + intros k Hk. apply Hrm. left. apply rep_update_lookup. tauto.
    + intros k Hk. apply Hrl. left. apply rep_update_lookup. tauto.
    + intros k Hk. apply Hrs. left. apply rep_update_lookup. tauto.
    + intros k Hk. apply Hrh. left. apply rep_update_lookup. tauto.
Qed.

Lemma footer_scripts_loop_spec (all scripts : list Node) (srcs : gset str)
    (rep : gmap str str) :
  Forall (λ s, is_Some (src_of s)) scripts →
  (∀ s, s ∈ scripts → s ∈ all) →
  footer_rep_ok all srcs rep →
  ∃ srcs' rep',
    footer_scripts_loop scripts srcs rep = Some (srcs', rep') ∧
    srcs' = list_to_set (omap src_of scripts) ∪ srcs ∧
    footer_rep_ok all srcs' rep' ∧
    (∀ src, footer_rep_ok all {[src]} rep → footer_rep_ok all {[src]} rep').
Proof.
  intros Hall. revert srcs rep.
  induction Hall as [|s scripts [src Hsrc] _ IH]; intros srcs rep Hsub Hok; simpl.
  - exists srcs, rep. split; [done|]. split; [set_solver|]. done.
  - unfold src_of in Hsrc. fold (src_of s).
    destruct (tag_get (lit "src") s) as [[src'|]|] eqn:Hget; simplify_eq.
    assert (src_of s = Some src) as Hs by (unfold src_of; by rewrite Hget).
    rewrite Hs. simpl.
    assert (Hins : ∀ X, footer_rep_ok all X rep →
                        footer_rep_ok all ({[src]} ∪ X) (<[src := str_of s]> rep)).
    { intros X HX src0 Hsrc0. destruct (decide (src0 = src)) as [->|Hne].
      - exists s. split; [apply Hsub; left|]. split; [done|]. apply lookup_insert_eq.
      - rewrite lookup_insert_ne by done. apply HX. set_solver. }
    destruct (IH ({[src]} ∪ srcs) (<[src := str_of s]> rep))
      as (srcs' & rep' & -> & -> & Hok' & Hkeep).
    { intros s' Hs'. apply Hsub. by right. }
    { by apply Hins. }
    exists (list_to_set (omap src_of scripts) ∪ ({[src]} ∪ srcs)), rep'.
    split; [done|]. split; [set_solver|]. split; [done|].
    intros src0 Hsrc0. apply Hkeep. intros src1 ->%elem_of_singleton.
    apply (Hins {[src0]} Hsrc0). set_solver.
Qed.

Lemma footer_rep_ok_union (all : list Node) (X Y : gset str) (rep : gmap str str) :
  footer_rep_ok all X rep → footer_rep_ok all Y rep → footer_rep_ok all (X ∪ Y) rep.
Proof. intros HX HY src [Hs|Hs]%elem_of_union; [by apply HX|by apply HY]. Qed.

Lemma footer_rep_ok_single (all : list Node) (X : gset str) (rep : gmap str str) :
  footer_rep_ok all X rep ↔ ∀ src, src ∈ X → footer_rep_ok all {[src]} rep.
Proof.
  split.
  - intros HX src Hsrc src' ->%elem_of_singleton. by apply HX.
  - intros HX src Hsrc. apply (HX src Hsrc). set_solver.
Qed.

(** The footer pass over [n] copies of one document. *)
Lemma footer_loop_same (doc body : Node) (n : nat) (sets : list (gset str))
    (rep : gmap str str) :
  soup_body doc = Some body →
  Forall (λ s, is_Some (src_of s)) (scripts_with_src body) →
  let srcs : gset str := list_to_set (omap src_of (scripts_with_src body)) in
  (0 < n ∨ footer_rep_ok (scripts_with_src body) srcs rep) →
  ∃ rep',
    footer_loop (replicate n doc) sets rep = Some (sets ++ replicate n srcs, rep') ∧
    footer_rep_ok (scripts_with_src body) srcs rep'.
Proof.
  intros Hbody Hsrc srcs. revert sets rep.
  induction n as [|n IH]; intros sets rep Hn; simpl.
  - exists rep. rewrite app_nil_r. split; [done|]. destruct Hn; [lia|done].
  - rewrite Hbody.
    destruct (footer_scripts_loop_spec (scripts_with_src body)
                (scripts_with_src body) ∅ rep Hsrc)
      as (srcs' & rep1 & -> & -> & Hok & _); [done|by intros ? ?%elem_of_empty|].
    rewrite (right_id_L ∅ (∪)) in Hok |- *. fold srcs in Hok |- *.
    destruct (IH (sets ++ [srcs]) rep1) as (rep' & -> & Hok'); [by right|].
    exists rep'. by rewrite <- app_assoc.
Qed.

Lemma rep_lines_footer (all : list Node) (srcs : gset str) (rep : gmap str str) :
  footer_rep_ok all srcs rep →
  ∃ lines, rep_lines rep srcs = Some lines ∧
    ∀ src, src ∈ srcs →
      ∃ s, s ∈ all ∧ src_of s = Some src ∧ str_of s ∈ lines.
Proof.
  intros Hok. unfold rep_lines.
  destruct (mapM_is_Some_2 (λ k, rep !! k) (sorted (elements srcs))) as [lines Hl].
  { apply Forall_forall. intros k Hk%elem_of_sorted_elements.
    destruct (Hok k Hk) as (s & _ & _ & Hr). simpl. by rewrite Hr. }
  exists lines. split; [done|]. intros src Hsrc.
  destruct (Hok src Hsrc) as (s & Hs & Hsrc' & Hrep).
  exists s. split; [done|]. split; [done|].
  apply mapM_Some_1 in Hl.
  apply elem_of_sorted_elements, list_elem_of_lookup in Hsrc as [i Hi].
  destruct (Forall2_lookup_l _ _ _ _ _ Hl Hi) as (y & Hy & Hrep').
  simpl in Hrep'. rewrite Hrep in Hrep'. simplify_eq.
  by eapply list_elem_of_lookup_2.
Qed.
End shared.

(** ** The ids that the miner assigns *)

Section ids.
Context `{PyText, Bs4, Similarity, PySet}.

Lemma mark_bounded_mono (n n' : nat) (m : Mark) :
  n ≤ n' → mark_bounded n m → mark_bounded n' m.
Proof. intros Hn (k & Hk & Hle & Hlt). exists k. split; [done|]. split; [lia|]. intros Hs. specialize (Hlt Hs). lia. Qed.

Lemma marks_apart_snoc (n : nat) (ms : list Mark) (m : Mark) :
  Forall (mark_bounded n) ms → marks_apart ms → mark_key m = key_of n →
  marks_apart (ms ++ [m]).
Proof.
  intros Hb Ha Hm i j mi mj Hi Hj Hij Hs.
  assert (i < length ms) as Hil.
  { apply lookup_lt_Some in Hj. rewrite length_app in Hj. simpl in Hj. lia. }
  rewrite lookup_app_l in Hi by done.
  destruct (decide (j < length ms)) as [Hjl|Hjl].
  - rewrite lookup_app_l in Hj by done. by eapply Ha.
  - rewrite lookup_app_r in Hj by lia.
    apply list_lookup_singleton_Some in Hj as [_ <-].
    rewrite Forall_forall in Hb.
    destruct (Hb mi (list_elem_of_lookup_2 _ _ _ Hi)) as (k & Hk & _ & Hlt).
    rewrite Hk, Hm. intros Heq%key_of_inj. specialize (Hlt Hs). lia.
Qed.

Lemma fresh_key (st : MineState) :
  mine_ok st → items st !! key_of (idx st) = None.
Proof.
  intros Hok. apply not_elem_of_dom. rewrite (ok_dom st Hok).
  rewrite elem_of_list_to_set, list_elem_of_fmap.
  intros (k & Hk%key_of_inj & Hin). subst. apply elem_of_seq in Hin. lia.
Qed.

Lemma tag_step_effect (html_path : Path) (st : MineState) (soup : Node)
    (tag : place) :
  step_effect html_path st (tag_step html_path st soup tag).1.
Proof.
  unfold tag_step. destruct (update_at _ _ _) as [soup'|]; [|constructor].
  destruct (find _ _) as [tag_copy|]; [|constructor].
  destruct (_canonicalize _) as [canonical|]; simpl; [|constructor].
  by apply effect_stored.
Qed.

Lemma step_effect_ok (html_path : Path) (st st' : MineState) :
  step_effect html_path st st' → mine_ok st → mine_ok st'.
Proof.
  intros Heff Hok. pose proof Hok as [Hb Ha Hd Hc Hs].
  destruct Heff as [|tag|tag c index Hpath]; [done| |].
  - split; simpl; [|by eapply marks_apart_snoc|done|done|].
    + apply Forall_app. split; [done|]. apply Forall_singleton.
      exists (idx st). by simpl.
    + intros m [Hm|Hm%list_elem_of_singleton]%elem_of_app; [by apply Hs|].
      by subst.
  - split; cbn -[seq].
    + apply Forall_app. split.
      * eapply Forall_impl; [done|]. intros m. apply mark_bounded_mono. lia.
      * apply Forall_singleton. exists (idx st). simpl. split; [done|]. split; lia.
    + by eapply marks_apart_snoc.
    + rewrite dom_insert_L, Hd, seq_S, fmap_app, list_to_set_app_L. cbn -[seq]. set_solver.
    + rewrite map_size_insert_None by by apply fresh_key. by rewrite Hc.
    + intros m [Hm|Hm%list_elem_of_singleton]%elem_of_app Hst.
      * destruct (Hs m Hm Hst) as (c' & Hc' & Hp'). exists c'. split; [|done].
        rewrite lookup_insert_ne; [done|].
        rewrite Forall_forall in Hb. destruct (Hb m Hm) as (k & Hk & _ & Hlt).
        rewrite Hk. intros Heq%key_of_inj. specialize (Hlt Hst). lia.
      * subst. simpl. exists c. by rewrite lookup_insert_eq.
Qed.

Lemma tag_loop_ok (html_path : Path) (st : MineState) (soup : Node)
    (found : list place) :
  mine_ok st → mine_ok (tag_loop html_path st soup found).1.
Proof.
  revert st soup. induction found as [|tag rest IH]; intros st soup Hok; simpl;
    [done|].
  pose proof (tag_step_effect html_path st soup tag) as Heff.
  destruct (tag_step html_path st soup tag) as [st' [soup'|]]; simpl in *.
  - by eapply IH, step_effect_ok.
  - by eapply step_effect_ok.
Qed.

Lemma mine_page_ok (st : MineState) (page : Path * Node) :
  mine_ok st → mine_ok (mine_page st page).
Proof.
  intros Hok. destruct page as [html_path soup]. unfold mine_page.
  pose proof (tag_loop_ok html_path st soup (set_iter (candidates_of soup)).*1 Hok)
    as Hloop.
  destruct (tag_loop _ _ _ _) as [st' [soup'|]]; simpl in *; [|done].
  by destruct Hloop.
Qed.

Lemma mine_state0_ok : mine_ok mine_state0.
Proof.
  split; simpl; [done| |set_solver|done|by intros m ?%elem_of_nil].
  intros i j mi mj Hi. by rewrite lookup_nil in Hi.
Qed.

Lemma _mine_and_tag_candidates_ok (corpus : list (Path * Node)) :
  mine_ok (_mine_and_tag_candidates corpus).
Proof.
  unfold _mine_and_tag_candidates.
  assert (∀ st, mine_ok st → mine_ok (foldl mine_page st corpus)) as Hfold.
  { induction corpus as [|page corpus IH]; intros st Hok; simpl; [done|].
    by apply IH, mine_page_ok. }
  apply Hfold, mine_state0_ok.
Qed.
End ids.

(** ** The ids in the live trees *)



Lemma attrs_at_is_Some (q : place) (n : Node) :
  is_Some (attrs_at q n) → is_Some (get_at q n).
Proof. unfold attrs_at. destruct (get_at q n); [by eexists|by intros [? [=]]]. Qed.








Section ids_in_trees.
Context `{PyText, Bs4, Similarity, PySet}.

Lemma body_or_soup_valid (soup : Node) :
  get_at (body_or_soup soup).1 soup = Some (body_or_soup soup).2.
Proof.
  unfold body_or_soup. destruct (List.find _ _) as [[p b]|] eqn:Hf; [|done].
  apply find_some in Hf as [Hin _].
  apply list_elem_of_In, descendants_at_valid in Hin as (q & -> & _ & Hq).
  done.
Qed.

(** The candidates of a page, by their two kinds. *)
Lemma elem_of_candidates_of (soup : Node) (x : place * Node) :
  x ∈ candidates_of soup →
  let body := body_or_soup soup in
  (x ∈ descendants_at body.1 body.2 ∧ is_elem x.2 = true
   ∧ tag_name x.2 ∈ PRIORITY_TAGS)
  ∨ (x ∈ imap (λ i c, (body.1 ++ [i], c)) (contents body.2)
     ∧ is_elem x.2 = true ∧ tag_name x.2 ∈ [lit "div"; lit "section"]).
Proof.
  intros Hin body. unfold candidates_of in Hin. subst body.
  destruct (body_or_soup soup) as [here b]. cbn [fst snd].
  apply elem_of_app in Hin as [Hin|Hin].
  - left. apply list_elem_of_In, in_flat_map in Hin as (name & Hname & Hin).
    apply filter_In in Hin as [Hin _]. apply filter_In in Hin as [Hin Hn].
    unfold named in Hn. apply andb_true_iff in Hn as [He Hn].
    apply bool_decide_eq_true, list_elem_of_singleton in Hn.
    split; [by apply list_elem_of_In|]. split; [done|].
    rewrite Hn. by apply list_elem_of_In.
  - right. apply list_elem_of_In, filter_In in Hin as [Hin _].
    apply filter_In in Hin as [Hin Hn].
    unfold named in Hn. apply andb_true_iff in Hn as [He Hn].
    apply bool_decide_eq_true in Hn.
    split; [by apply list_elem_of_In|done].
Qed.

Lemma candidates_of_valid (soup : Node) (q : place) (el : Node) :
  (q, el) ∈ candidates_of soup → get_at q soup = Some el ∧ is_elem el = true.
Proof.
  intros Hin. pose proof (body_or_soup_valid soup) as Hbody.
  apply elem_of_candidates_of in Hin as [(Hin & He & _)|(Hin & He & _)];
    cbn [fst snd] in *.
  - apply descendants_at_valid in Hin as (q' & -> & _ & Hget).
    by rewrite (get_at_app _ _ _ _ Hbody).
  - apply list_elem_of_lookup in Hin as [i Hi].
    apply list_lookup_imap_Some in Hi as (c & Hc & [= -> ->]).
    rewrite (get_at_app _ _ _ _ Hbody). simpl. by rewrite Hc.
Qed.



End ids_in_trees.

Section ids_of_the_run.
Context `{PyText, Bs4, Similarity, PySet}.




Lemma mined_cons (page : Path * Node) (corpus : list (Path * Node)) :
  mined (page :: corpus)
  = ((λ q, (page.1, q)) <$> (set_iter (candidates_of page.2)).*1) ++ mined corpus.
Proof. done. Qed.



End ids_of_the_run.

(** Marking an element changes no name in the tree. *)
Lemma update_at_names (t : place) (key : str) (n n' : Node) (q : place)
    (el : Node) :
  update_at t (set_marker key) n = Some n' → get_at q n = Some el →
  ∃ el', get_at q n' = Some el' ∧ is_elem el' = is_elem el
         ∧ tag_name el' = tag_name el.
Proof.
  revert q n n'. induction t as [|i t IH]; intros q n n' Hu Hget.
  - simpl in Hu. injection Hu as <-. destruct q as [|j q].
    + injection Hget as <-. eexists. split; [done|]. by destruct n.
    + exists el. split; [|done]. simpl in *. by destruct n.
  - simpl in Hu. destruct n as [name attrs children|s|s]; [|done..].
    destruct (children !! i) as [c|] eqn:Hc; [|done].
    destruct (update_at t _ c) as [c'|] eqn:Hu'; [|done].
    injection Hu as <-. destruct q as [|j q].
    + injection Hget as <-. by eexists.
    + simpl in *. destruct (decide (i = j)) as [->|Hij].
      * rewrite list_lookup_insert_eq by by eapply lookup_lt_Some.
        rewrite Hc in Hget. by apply (IH q c c').
      * rewrite list_lookup_insert_ne by done. by exists el.
Qed.

(** *** Parsers that recover the root of a mined element

    When html5lib finds an element of the name in the markup of every element
    that the miner takes, and html.parser gives that markup a root of the
    name, no canonicalization of the run fails: the miner stores as many
    candidates as it mined elements. *)
Section roots_recovered.
Context `{PyText, Bs4, Similarity, PySet}.

Hypothesis html5lib_finds : ∀ el,
  is_elem el = true → tag_name el ∈ PRIORITY_TAGS ++ [lit "div"; lit "section"] →
  is_Some (find (tag_name el) (html5lib (str_of el))).
Hypothesis html_parser_roots : ∀ el,
  is_elem el = true → tag_name el ∈ PRIORITY_TAGS ++ [lit "div"; lit "section"] →
  is_Some (find_child (tag_name el) (html_parser (str_of el))).

Lemma tag_step_stores (p : Path) (st : MineState) (soup : Node) (q : place)
    (el : Node) :
  get_at q soup = Some el → is_elem el = true →
  tag_name el ∈ PRIORITY_TAGS ++ [lit "div"; lit "section"] →
  ∃ soup', (tag_step p st soup q).2 = Some soup'
           ∧ update_at q (set_marker (key_of (idx st))) soup = Some soup'
           ∧ idx (tag_step p st soup q).1 = S (idx st).
Proof.
  intros Hget He Hname. unfold tag_step.
  destruct (update_at_is_Some q (set_marker (key_of (idx st))) soup el Hget)
    as [soup' Hu].
  rewrite Hu. rewrite (get_at_update_at _ _ _ _ Hu), Hget. cbn [fmap option_fmap option_map default id].
  assert (is_elem (set_marker (key_of (idx st)) el) = true
          ∧ tag_name (set_marker (key_of (idx st)) el) = tag_name el)
    as [He' Hname'] by by destruct el.
  destruct (html5lib_finds (set_marker (key_of (idx st)) el) He')
    as [tag_copy Hcopy]; [by rewrite Hname'|].
  rewrite Hcopy.
  assert (is_elem tag_copy = true ∧ tag_name tag_copy = tag_name el)
    as [Hce Hcn].
  { unfold find, find_all in Hcopy. apply head_Some_elem_of in Hcopy.
    apply list_elem_of_In, filter_In in Hcopy as [_ Hn]. unfold named in Hn.
    apply andb_true_iff in Hn as [Hce Hn].
    apply bool_decide_eq_true, list_elem_of_singleton in Hn. by rewrite <- Hname'. }
  assert (is_elem (strip_marker tag_copy) = true
          ∧ tag_name (strip_marker tag_copy) = tag_name el)
    as [Hse Hsn] by by destruct tag_copy.
  destruct (html_parser_roots (strip_marker tag_copy) Hse) as [root Hroot];
    [by rewrite Hsn|].
  unfold _canonicalize. rewrite Hroot. cbn [fst snd idx]. by exists soup'.
Qed.

Lemma tag_loop_stores (p : Path) (found : list place) (st : MineState)
    (soup : Node) :
  (∀ q, q ∈ found →
     ∃ el, get_at q soup = Some el ∧ is_elem el = true
           ∧ tag_name el ∈ PRIORITY_TAGS ++ [lit "div"; lit "section"]) →
  idx (tag_loop p st soup found).1 = idx st + length found.
Proof.
  revert st soup. induction found as [|q rest IH]; intros st soup Hvalid.
  { simpl. lia. }
  destruct (Hvalid q) as (el & Hget & He & Hname); [by left|].
  destruct (tag_step_stores p st soup q el Hget He Hname)
    as (soup' & Hr & Hu & Hidx).
  cbn [tag_loop length]. destruct (tag_step p st soup q) as [st1 r].
  cbn [fst snd] in *. subst r. rewrite IH; [lia|].
  intros q' Hq'. destruct (Hvalid q') as (el' & Hget' & He' & Hname'); [by right|].
  destruct (update_at_names _ _ _ _ _ _ Hu Hget') as (el'' & Hg & Hee & Hnn).
  exists el''. by rewrite Hee, Hnn.
Qed.

Lemma mine_page_stores (st : MineState) (page : Path * Node) :
  idx (mine_page st page)
  = idx st + length (set_iter (candidates_of page.2)).*1.
Proof.
  destruct page as [p soup]. cbn [fst snd mine_page].
  pose proof (tag_loop_stores p (set_iter (candidates_of soup)).*1 st soup)
    as Hloop.
  destruct (tag_loop _ _ _ _) as [st1 [cur|]]; cbn [fst snd idx] in *;
    apply Hloop.
  all: intros q ([q' el] & -> & Hin)%list_elem_of_fmap.
  all: assert ((q', el) ∈ candidates_of soup) as Hc
         by (eapply elem_of_submseteq; [done|apply set_iter_submseteq]).
  all: destruct (candidates_of_valid _ _ _ Hc) as [Hget He].
  all: exists el; split; [done|]; split; [done|].
  all: apply elem_of_candidates_of in Hc as [(_ & _ & Hn)|(_ & _ & Hn)];
         apply elem_of_app; [by left|by right].
Qed.

Lemma mined_all_stored (corpus : list (Path * Node)) :
  size (items (_mine_and_tag_candidates corpus)) = length (mined corpus).
Proof.
  rewrite (ok_count _ (_mine_and_tag_candidates_ok corpus)).
  unfold _mine_and_tag_candidates.
  assert (∀ st, idx (foldl mine_page st corpus)
                = idx st + length (mined corpus)) as Hfold.
  { induction corpus as [|page corpus IH]; intros st.
    { unfold mined. simpl. lia. }
    cbn [foldl]. rewrite IH, mine_page_stores, mined_cons, length_app,
      !length_fmap. lia. }
  by rewrite Hfold.
Qed.
End roots_recovered.

(** * The claims *)

Section claims.
Context `{PyText, Bs4, Similarity, PySet}.

(** C2, as amended.  The seeds are visited in the ascending order of the id
    strings, compared character by character: of two stored ids the one that
    is smaller as a string is the seed first.  For two ordinals with the same
    number of decimal digits this is the order of the ordinals. *)
Theorem C2_seeds_in_string_order (items : gmap str Candidate) (i j : nat) :
  key_of i ∈ dom items → key_of j ∈ dom items → i ≠ j →
  (seeded_before (key_of i) (key_of j) (sorted_keys items)
   ↔ str_lt (key_of i) (key_of j)) ∧
  (i < j → length (decimal i) = length (decimal j) →
   seeded_before (key_of i) (key_of j) (sorted_keys items)).
Proof.
  intros Hi Hj Hne.
  assert (seeded_before (key_of i) (key_of j) (sorted_keys items)
          ↔ str_lt (key_of i) (key_of j)) as Hiff.
  { apply seeded_before_sorted; [by apply elem_of_elements..|].
    by intros ?%key_of_inj. }
  split; [done|]. intros Hlt Hlen. by apply Hiff, key_of_lt_same_length.
Qed.

(** C3.  Every candidate is in at most one emitted cluster, every emitted
    cluster has at least two members, its first member is the seed, against
    which the other members were accepted and which has the smallest id, and
    the partial of the cluster is the markup of this first member with the
    marker removed: when the parser finds an element in the raw markup of
    every stored candidate, [_extract_partials] returns, with one partial for
    every cluster. *)
Theorem C3_partition (items : gmap str Candidate) (index : LSH)
    (clusters : list Cluster) :
  _cluster_candidates items index = Some clusters →
  NoDup (cluster_keys clusters) ∧
  Forall (λ cl, 2 ≤ length cl) clusters ∧
  Forall (seeded items) clusters ∧
  (∀ emitted, _extract_partials clusters = Some emitted →
    Forall2 (λ (cl : Cluster) (e : Partial * ClusterInfo),
               ∃ key seed rest template,
                 cl = (key, seed) :: rest ∧
                 head (find_all_tags (html_parser (raw_tag_html seed)))
                   = Some template ∧
                 partial_body e.1 = strip_marker template ∧
                 instances e.2 = (λ kc, (kc.1, html_path kc.2)) <$> cl)
            clusters emitted) ∧
  ((∀ key c, items !! key = Some c →
      is_Some (head (find_all_tags (html_parser (raw_tag_html c))))) →
   ∃ emitted,
     _extract_partials clusters = Some emitted ∧
     Forall2 (λ (cl : Cluster) (e : Partial * ClusterInfo),
                ∃ key seed rest template,
                  cl = (key, seed) :: rest ∧
                  head (find_all_tags (html_parser (raw_tag_html seed)))
                    = Some template ∧
                  partial_body e.1 = strip_marker template ∧
                  instances e.2 = (λ kc, (kc.1, html_path kc.2)) <$> cl)
             clusters emitted).
Proof.
  intros Hc. apply _cluster_candidates_ok in Hc as [visited [Hsize Hnodup _ Hseeded]].
  split; [done|]. split; [done|]. split; [done|]. split.
  - intros emitted. apply extract_loop_emitted.
  - intros Hparse.
    destruct (extract_loop_total 0 clusters) as [emitted He].
    { eapply Forall_impl; [apply Hseeded|].
      intros cl (key & seed & rest & -> & Hseed & _).
      exists key, seed, rest. split; [done|]. by eapply Hparse. }
    exists emitted. split; [done|]. by eapply extract_loop_emitted.
Qed.

(** C4.  A member accepted into the cluster of a seed is within Hamming
    distance 6 of the seed, and the ratio of the smaller to the larger size is
    at least 0.85 when both sizes are positive; a size of 0 never makes the
    size test reject. *)
Theorem C4_acceptance (items : gmap str Candidate) (index : LSH)
    (clusters : list Cluster) :
  _cluster_candidates items index = Some clusters →
  (∀ key seed rest nk near,
     (key, seed) :: rest ∈ clusters → (nk, near) ∈ rest →
     let n1 := _get_node_size (canonical_tag seed) in
     let n2 := _get_node_size (canonical_tag near) in
     distance (simh seed) (simh near) ≤ SIMHASH_DISTANCE ∧
     (0 < n1 → 0 < n2 →
      (NODE_COUNT_SIMILARITY <= true_div (Nat.min n1 n2) (Nat.max n1 n2))%Q)) ∧
  (∀ seed near,
     _get_node_size (canonical_tag seed) = 0 ∨
     _get_node_size (canonical_tag near) = 0 →
     size_mismatch seed near = false).
Proof.
  intros Hc. apply _cluster_candidates_ok in Hc as [visited [_ _ _ Hseeded]]. split.
  - intros key seed rest nk near Hcl Hm n1 n2.
    rewrite Forall_forall in Hseeded.
    destruct (Hseeded _ Hcl) as (key' & seed' & rest' & [= <- <- <-] & _ & Hrest).
    rewrite Forall_forall in Hrest.
    destruct (Hrest _ Hm) as (_ & _ & Hfar & Hsize). simpl in *. split.
    + unfold too_far in Hfar. apply Nat.ltb_ge in Hfar. done.
    + intros Hn1 Hn2. unfold size_mismatch in Hsize. fold n1 n2 in Hsize.
      rewrite (proj2 (Nat.ltb_lt 0 n1)), (proj2 (Nat.ltb_lt 0 n2)) in Hsize by done.
      simpl in Hsize. unfold Qltb in Hsize.
      apply negb_false_iff in Hsize. by apply Qle_bool_iff.
  - intros seed near Hzero. unfold size_mismatch.
    destruct Hzero as [-> | ->]; simpl; [done|]. by rewrite andb_false_r.
Qed.


(** Below the root of a canonical form no element carries [id],
    [aria-controls], [aria-expanded] or [data-bs-toggle]; the root has the
    attributes it was parsed with. *)
Lemma volatile_attrs_below_root (tag c el : Node) (k : str) :
  _canonicalize tag = Some c → el ∈ find_all_tags c → k ∈ VOLATILE_ATTRS →
  attrs_get k (tag_attrs el) = None ∧
  ∃ root, find_child (tag_name tag) (html_parser (str_of tag)) = Some root ∧
          tag_attrs c = tag_attrs root.
Proof.
  intros Hc Hel Hk.
  apply _canonicalize_Some in Hc as (name & attrs & children & Hroot & ->).
  split; [|by eexists].
  apply list_elem_of_In, filter_In in Hel as [Hel%list_elem_of_In _].
  pose proof (canonical_descendants_clean name attrs children) as Hclean.
  rewrite Forall_forall in Hclean. by apply Hclean.
Qed.

(** C7, as amended.  The three passes of [_canonicalize], applied to a
    canonical form itself, change nothing: no attribute, class, comment or
    text node.  The second canonicalization works on the markup of the
    canonical form, and gives the canonical form again when the parser gives
    it back from that markup. *)
Theorem C7_idempotent (tag c : Node) :
  _canonicalize tag = Some c →
  dict_attrs (html_parser (str_of tag)) = true →
  normalize_strings (normalize_below (remove_comments c)) = c ∧
  (find_child (tag_name c) (html_parser (str_of c)) = Some c →
   _canonicalize c = Some c).
Proof.
  intros Hc Hdict.
  apply _canonicalize_Some in Hc as (name & attrs & children & Hroot & ->).
  assert (normalize_strings
            (normalize_below
               (remove_comments (Elem name attrs (flat_map canon_node children))))
          = Elem name attrs (flat_map canon_node children)) as Hfixed.
  { rewrite canonical_root. f_equal.
    apply (canonical_root_fixed name attrs).
    apply find_child_Some in Hroot as (Hin & _ & _).
    pose proof (dict_attrs_contents _ _ Hdict Hin) as Hd. simpl in Hd.
    by apply andb_true_iff in Hd as [_ Hd]. }
  split; [done|]. intros Hback.
  unfold _canonicalize. rewrite Hback. by f_equal.
Qed.

(** C10.  An instance whose marker is on no element of the live tree leaves
    the document as it is; the replacement never raises; and the document
    changes only when an element carries the marker of the instance. *)
Theorem C10_missing_marker (p : Path) (include_stmt : str) (inst : str * Path)
    (soup : Node) :
  (∀ el, el ∈ descendants soup → has_marker inst.1 el = false) →
  replace_instance p include_stmt inst soup = Ok soup ∧
  (∀ clusters soup0, ∃ soup', replace_clusters p clusters soup0 = Ok soup') ∧
  (∀ inst0 soup0 soup', replace_instance p include_stmt inst0 soup0 = Ok soup' →
     soup' ≠ soup0 →
     ∃ el, el ∈ descendants soup0 ∧ has_marker inst0.1 el = true).
Proof.
  intros Hmiss. split; [by apply replace_instance_missing|]. split.
  - intros clusters soup0. apply replace_clusters_total.
  - intros inst0 soup0 soup' Hr Hne.
    by destruct (replace_instance_changed _ _ _ _ _ Hr Hne).
Qed.
End claims.

Lemma identical_corpus (corpus : list (Path * Node)) (doc : Node) :
  corpus ≠ [] → (∀ page, page ∈ corpus → page.2 = doc) →
  ∃ n, corpus.*2 = replicate (S n) doc.
Proof.
  intros Hne Hall. destruct corpus as [|page corpus]; [done|].
  exists (length corpus). symmetry. apply replicate_as_Forall.
  split; [by rewrite length_fmap|]. apply Forall_fmap, Forall_forall.
  intros p Hp. symmetry. by apply Hall.
Qed.

Lemma stylesheet_lines_first `{PyText, Bs4} (corpus : list (Path * Node))
    (doc head : Node) (n : nat) (l : Node) :
  corpus.*2 = replicate (S n) doc → soup_head doc = Some head →
  l ∈ find_all (lit "link") head → link_kept l = false →
  str_of l ∈ stylesheet_lines corpus.
Proof.
  intros Hc Hhead Hl Hk. destruct corpus as [|[p d] corpus]; [done|].
  simpl in Hc. injection Hc as -> _. simpl. rewrite Hhead.
  apply list_elem_of_fmap. exists l. split; [done|].
  apply list_elem_of_In, filter_In. split; [by apply list_elem_of_In|].
  unfold link_kept in Hk. apply negb_false_iff, bool_decide_eq_true in Hk.
  by rewrite Hk.
Qed.

Section shared_fragments.
Context `{PyText, Bs4}.

(** C8, as amended.  For a corpus of copies of one document, the two head
    fragments hold every meta element without a charset, every link element,
    every style element and every head script that has a source or an inline
    body, and the footer fragment holds a script for every source of a body
    script. *)
Theorem C8_identical_documents (corpus : list (Path * Node))
    (doc head body : Node) :
  corpus ≠ [] → (∀ page, page ∈ corpus → page.2 = doc) →
  soup_head doc = Some head → soup_body doc = Some body →
  Forall (λ s, is_Some (src_of s)) (scripts_with_src body) →
  ∃ fr, _extract_common_head_and_footer corpus = Some fr ∧
    (∀ m, m ∈ find_all (lit "meta") head → meta_kept m = true →
          str_of m ∈ title_meta fr) ∧
    (∀ l, l ∈ find_all (lit "link") head →
          str_of l ∈ title_meta fr ∨ str_of l ∈ head_css fr) ∧
    (∀ s, s ∈ find_all (lit "style") head → str_of s ∈ head_css fr) ∧
    (∀ s, s ∈ find_all (lit "script") head → head_script_kept s = true →
          str_of s ∈ head_css fr) ∧
    (∀ s src, s ∈ scripts_with_src body → src_of s = Some src →
       ∃ s', s' ∈ scripts_with_src body ∧ src_of s' = Some src ∧
             str_of s' ∈ footer_scripts fr).
Proof.
  intros Hne Hall Hhead Hbody Hsrc.
  destruct (identical_corpus corpus doc Hne Hall) as [n Hc].
  unfold _extract_common_head_and_footer. cbv zeta. rewrite Hc.
  destruct (head_fold_same doc head (S n) head_acc0 Hhead)
    as (_ & Hm & Hl & Hs & Hh & Hrm & Hrl & Hrs & Hrh).
  cbv zeta in *. rewrite Hm, Hl, Hs, Hh. cbn [meta_sets link_sets style_sets
    head_script_sets head_acc0 app]. rewrite !intersection_all_replicate.
  assert (∀ (kept : Node → bool) elems k,
            k ∈ str_set kept elems → k ∈ str_of <$> elems) as Hsub.
  { intros kept elems k (m & Hin & _ & ->)%elem_of_str_set.
    apply list_elem_of_fmap. eauto. }
  rewrite (rep_lines_same (rep_meta _) (str_set meta_kept _))
    by (intros k Hk; apply Hrm; right; split; [lia|by eapply Hsub]).
  rewrite (rep_lines_same (rep_link _) (str_set link_kept _))
    by (intros k Hk; apply Hrl; right; split; [lia|by eapply Hsub]).
  rewrite (rep_lines_same (rep_style _) (str_set _ _))
    by (intros k Hk; apply Hrs; right; split; [lia|by eapply Hsub]).
  rewrite (rep_lines_same (rep_script _) (str_set head_script_kept _))
    by (intros k Hk; apply Hrh; right; split; [lia|by eapply Hsub]).
  cbn [mbind option_bind].
  destruct (footer_loop_same doc body (S n) [] ∅ Hbody Hsrc) as (rep' & -> & Hok);
    [left; lia|].
  cbn [mbind option_bind app]. rewrite intersection_all_replicate.
  destruct (rep_lines_footer _ _ _ Hok) as (lines & -> & Hlines).
  cbn [mbind option_bind]. eexists. split; [done|].
  cbn [title_meta head_css footer_scripts].
  assert (∀ (kept : Node → bool) elems m, m ∈ elems → kept m = true →
            str_of m ∈ sorted (elements (str_set kept elems))) as Hin.
  { intros kept elems m Hmem Hk. apply elem_of_sorted_elements, elem_of_str_set.
    by exists m. }
  repeat split.
  - intros m Hmem Hk. right. apply elem_of_app. left. by apply Hin.
  - intros l Hmem. destruct (link_kept l) eqn:Hk.
    + left. right. apply elem_of_app. right. by apply Hin.
    + right. apply elem_of_app. left.
      eapply stylesheet_lines_first; [|done..]. by rewrite Hc.
  - intros s Hmem. apply elem_of_app. right. apply elem_of_app. left.
    by apply Hin.
  - intros s Hmem Hk. apply elem_of_app. right. apply elem_of_app. right.
    by apply Hin.
  - intros s src Hmem Hs'. apply Hlines.
    apply elem_of_list_to_set, list_elem_of_omap. by exists s.
Qed.
End shared_fragments.

(** C9, as amended.  The shared suffix is the longest string that ends every
    title; the residual title is the title without it, stripped of blanks,
    bars and hyphens when the suffix is not empty, and the title itself when
    it is.  For the titles of scenario B the shared suffix keeps the separator
    and the residual titles are Home and About. *)
Theorem C9_title_suffix (page_titles : list str) :
  page_titles ≠ [] →
  let suffix := _longest_common_suffix page_titles in
  (∀ t, t ∈ page_titles → suffix `suffix_of` t) ∧
  (∀ u, (∀ t, t ∈ page_titles → u `suffix_of` t) → u `suffix_of` suffix) ∧
  (∀ t, t ∈ page_titles →
     ∃ rest, t = rest ++ suffix ∧
       residual_title suffix t =
         match suffix with
         | [] => t
         | _ => strip_by (char_in (lit " |-")) rest
         end) ∧
  _longest_common_suffix [home_title; about_title]
    = lit " " ++ [EM_DASH] ++ lit " Acme Inc." ∧
  residual_title (_longest_common_suffix [home_title; about_title]) home_title
    = lit "Home" ∧
  residual_title (_longest_common_suffix [home_title; about_title]) about_title
    = lit "About".
Proof.
  intros Hne suffix.
  destruct (longest_common_suffix_spec page_titles Hne) as [Hsuf Hmax].
  split; [done|]. split; [done|]. split; [|by vm_compute].
  intros t Ht. destruct (Hsuf t Ht) as [rest Hrest]. exists rest.
  split; [done|]. unfold residual_title. fold suffix.
  destruct suffix as [|c suffix'] eqn:Hs; [done|]. rewrite <- Hs in *.
  f_equal. rewrite Hrest, length_app, Nat.add_sub. apply take_app_length.
Qed.

Lemma Some_default {A} (d : A) (x : option A) :
  is_Some x → x = Some (default d x).
Proof. by intros [a ->]. Qed.

(** C1.  Two runs on the same page that differ in the order in which the set
    of found tags iterates: the header is [c_0] in one run and [c_1] in the
    other, the only partial is the header in one run and the nav in the
    other, and the results of the runs differ. *)
Theorem C1_set_order_changes_the_run :
  (mark_place <$> marks (mine_with plain_bs4 insertion_order header_nav_corpus),
   mark_key <$> marks (mine_with plain_bs4 insertion_order header_nav_corpus))
    = ([HEADER_PLACE; NAV_PLACE], [key_of 0; key_of 1]) ∧
  (mark_place <$> marks (mine_with plain_bs4 reverse_order header_nav_corpus),
   mark_key <$> marks (mine_with plain_bs4 reverse_order header_nav_corpus))
    = ([NAV_PLACE; HEADER_PLACE], [key_of 0; key_of 1]) ∧
  (λ r, partial_name <$> run_partials r)
    <$> run_with insertion_order header_nav_corpus
    = Some [lit "partial_1_header.html"] ∧
  (λ r, partial_name <$> run_partials r)
    <$> run_with reverse_order header_nav_corpus
    = Some [lit "partial_1_nav.html"] ∧
  run_with insertion_order header_nav_corpus
    ≠ run_with reverse_order header_nav_corpus.
Proof.
  split; [by vm_compute|]. split; [by vm_compute|].
  split; [by vm_compute|]. split; [by vm_compute|].
  intros Heq.
  apply (f_equal (fmap (λ r, partial_name <$> run_partials r))) in Heq.
  vm_compute in Heq. discriminate Heq.
Qed.

(** C2, the claim as stated fails: of eleven candidates, [c_10] is a seed
    before [c_2]. *)
Lemma C2_c_10_is_seeded_before_c_2 :
  key_of 2 ∈ dom eleven_items ∧ key_of 10 ∈ dom eleven_items ∧
  seeded_before (key_of 10) (key_of 2) (sorted_keys eleven_items) ∧
  ¬ seeded_before (key_of 2) (key_of 10) (sorted_keys eleven_items).
Proof.
  split; [apply (bool_decide_unpack _); by vm_compute|].
  split; [apply (bool_decide_unpack _); by vm_compute|]. split.
  - exists [key_of 0; key_of 1], [], (key_of <$> [3; 4; 5; 6; 7; 8; 9]).
    by vm_compute.
  - intros Hb. apply seeded_before_le in Hb; [|apply sorted_StronglySorted].
    vm_compute in Hb. discriminate Hb.
Qed.

Lemma C2_witness :
  key_of 2 ∈ dom eleven_items ∧ key_of 3 ∈ dom eleven_items ∧ 2 ≠ 3 ∧
  (seeded_before (key_of 2) (key_of 3) (sorted_keys eleven_items)
   ↔ str_lt (key_of 2) (key_of 3)) ∧
  (2 < 3 → length (decimal 2) = length (decimal 3) →
   seeded_before (key_of 2) (key_of 3) (sorted_keys eleven_items)).
Proof.
  assert (key_of 2 ∈ dom eleven_items) as H2
    by (apply (bool_decide_unpack _); by vm_compute).
  assert (key_of 3 ∈ dom eleven_items) as H3
    by (apply (bool_decide_unpack _); by vm_compute).
  assert (2 ≠ 3) as Hne by lia.
  split; [done|]. split; [done|]. split; [done|].
  exact (C2_seeds_in_string_order eleven_items 2 3 H2 H3 Hne).
Defined.

Lemma C3_witness :
  @_cluster_candidates ascii_text exact_similarity (items nav_state) (lsh nav_state)
    = Some nav_clusters ∧
  (∀ key c, items nav_state !! key = Some c →
     is_Some (head (find_all_tags
                      (@html_parser plain_bs4 (@raw_tag_html exact_similarity c))))) ∧
  length nav_clusters = 1 ∧
  NoDup (cluster_keys nav_clusters) ∧
  Forall (λ cl, 2 ≤ length cl) nav_clusters ∧
  Forall (@seeded ascii_text exact_similarity (items nav_state)) nav_clusters ∧
  (∃ emitted,
     @_extract_partials plain_bs4 exact_similarity nav_clusters = Some emitted ∧
     length emitted = length nav_clusters) ∧
  @_extract_partials plain_bs4 exact_similarity nav_clusters = Some nav_emitted ∧
  (λ e : Partial * ClusterInfo, (partial_name e.1, partial_body e.1, instances e.2))
    <$> nav_emitted
  = [(lit "partial_1_nav.html",
      big (lit "nav") [(lit "id", VStr (lit "nav-a"))],
      [(key_of 0, lit "a.html"); (key_of 1, lit "b.html");
       (key_of 2, lit "c.html")])].
Proof.
  assert (@_cluster_candidates ascii_text exact_similarity (items nav_state)
            (lsh nav_state) = Some nav_clusters) as Hrun
    by (apply Some_default, (bool_decide_unpack _); by vm_compute).
  assert (∀ key c, items nav_state !! key = Some c →
     is_Some (head (find_all_tags
                      (@html_parser plain_bs4 (@raw_tag_html exact_similarity c)))))
    as Hparse.
  { assert (map_Forall
              (λ (_ : str) (c : @Candidate exact_similarity),
                 is_Some (head (find_all_tags
                    (@html_parser plain_bs4 (@raw_tag_html exact_similarity c)))))
              (items nav_state)) as Hm
      by (apply (bool_decide_unpack _); by vm_compute).
    exact Hm. }
  split; [done|]. split; [done|]. split; [by vm_compute|].
  destruct (@C3_partition ascii_text plain_bs4 exact_similarity
              (items nav_state) (lsh nav_state) nav_clusters Hrun)
    as (Hnodup & Hsize & Hseeded & _ & Hemit).
  destruct (Hemit Hparse) as (emitted & He & Hall).
  split; [done|]. split; [done|]. split; [done|].
  split; [exists emitted; split; [done|]; symmetry; by eapply Forall2_length|].
  split; [apply Some_default, (bool_decide_unpack _); by vm_compute|].
  by vm_compute.
Defined.

Lemma C4_witness :
  @_cluster_candidates ascii_text exact_similarity (items nav_state) (lsh nav_state)
    = Some nav_clusters ∧
  ∀ key seed rest nk near,
    (key, seed) :: rest ∈ nav_clusters → (nk, near) ∈ rest →
    distance (simh seed) (simh near) ≤ SIMHASH_DISTANCE.
Proof.
  assert (@_cluster_candidates ascii_text exact_similarity (items nav_state)
            (lsh nav_state) = Some nav_clusters) as Hrun
    by (apply Some_default, (bool_decide_unpack _); by vm_compute).
  split; [done|]. intros key seed rest nk near Hcl Hm.
  destruct (@C4_acceptance ascii_text exact_similarity
              (items nav_state) (lsh nav_state) nav_clusters Hrun) as [Hacc _].
  by destruct (Hacc key seed rest nk near Hcl Hm).
Defined.


(** C6.  The canonical form of a nav with an [id] on the nav and on a link
    below it: the link has lost its [id], [data-bs-toggle] and the target of
    its [href], the nav, the root of the canonical form, still carries its
    [id]. *)
Theorem C6_root_keeps_its_id :
  @_canonicalize ascii_text plain_bs4 nav_with_ids = Some nav_canonical ∧
  attrs_get (lit "id") (tag_attrs nav_with_ids) = Some (VStr (lit "main")) ∧
  attrs_get (lit "id") (tag_attrs nav_canonical) = Some (VStr (lit "main")) ∧
  find_all_tags nav_canonical = [nav_link_canonical] ∧
  attrs_get (lit "id") (tag_attrs nav_link_canonical) = None.
Proof. repeat split; by vm_compute. Qed.

Lemma C7_witness :
  @_canonicalize ascii_text plain_bs4 nav_with_ids = Some nav_canonical ∧
  @dict_attrs (@html_parser plain_bs4 (@str_of plain_bs4 nav_with_ids)) = true ∧
  @normalize_strings ascii_text
    (@normalize_below ascii_text (remove_comments nav_canonical)) = nav_canonical ∧
  find_child (tag_name nav_canonical)
    (@html_parser plain_bs4 (@str_of plain_bs4 nav_canonical)) = Some nav_canonical ∧
  @_canonicalize ascii_text plain_bs4 nav_canonical = Some nav_canonical.
Proof.
  assert (@_canonicalize ascii_text plain_bs4 nav_with_ids = Some nav_canonical)
    as Hc by by vm_compute.
  assert (@dict_attrs (@html_parser plain_bs4 (@str_of plain_bs4 nav_with_ids))
          = true) as Hdict by by vm_compute.
  assert (find_child (tag_name nav_canonical)
            (@html_parser plain_bs4 (@str_of plain_bs4 nav_canonical))
          = Some nav_canonical) as Hback by by vm_compute.
  destruct (@C7_idempotent ascii_text plain_bs4 nav_with_ids nav_canonical
              Hc Hdict) as [Hfixed Hagain].
  split; [done|]. split; [done|]. split; [done|]. split; [done|].
  by apply Hagain.
Defined.

(** C7, the claim as stated fails: the canonical form of a nav whose two
    texts are separated by a comment has two texts, its markup is
    [<nav>ab</nav>], and the canonical form of that has one text. *)
Lemma C7_second_pass_joins_texts :
  @_canonicalize ascii_text plain_bs4 split_text_nav
    = Some (Elem (lit "nav") [] [Text (lit "a"); Text (lit "b")]) ∧
  @str_of plain_bs4 (Elem (lit "nav") [] [Text (lit "a"); Text (lit "b")])
    = lit "<nav>ab</nav>" ∧
  @_canonicalize ascii_text plain_bs4
      (Elem (lit "nav") [] [Text (lit "a"); Text (lit "b")])
    = Some (Elem (lit "nav") [] [Text (lit "ab")]) ∧
  Elem (lit "nav") [] [Text (lit "ab")]
    ≠ Elem (lit "nav") [] [Text (lit "a"); Text (lit "b")] ∧
  @_get_node_size ascii_text (Elem (lit "nav") [] [Text (lit "a"); Text (lit "b")])
    = 2 ∧
  @_get_node_size ascii_text (Elem (lit "nav") [] [Text (lit "ab")]) = 1.
Proof. repeat split; try by vm_compute. Qed.

(** C8, the claim as stated fails: two copies of a page whose head declares
    a charset and holds an empty script; neither element is in a fragment. *)
Lemma C8_charset_meta_is_not_shared :
  charset_meta ∈ find_all (lit "meta") shared_head ∧
  empty_script ∈ find_all (lit "script") shared_head ∧
  @_extract_common_head_and_footer ascii_text plain_bs4 shared_pages
    = Some shared_fragments ∧
  @str_of plain_bs4 charset_meta
    ∉ title_meta shared_fragments ++ head_css shared_fragments
      ++ footer_scripts shared_fragments ∧
  @str_of plain_bs4 empty_script
    ∉ title_meta shared_fragments ++ head_css shared_fragments
      ++ footer_scripts shared_fragments.
Proof.
  split; [apply list_elem_of_In; vm_compute; auto|].
  split; [apply list_elem_of_In; vm_compute; auto 10|].
  split; [apply Some_default, (bool_decide_unpack _); by vm_compute|].
  split; apply (bool_decide_eq_false_1 _); by vm_compute.
Qed.

Lemma C8_witness :
  ∃ fr, @_extract_common_head_and_footer ascii_text plain_bs4 shared_pages
          = Some fr ∧
    ∀ m, m ∈ find_all (lit "meta") shared_head → meta_kept m = true →
         @str_of plain_bs4 m ∈ title_meta fr.
Proof.
  assert (shared_pages ≠ []) as Hne by done.
  assert (∀ page, page ∈ shared_pages → page.2 = shared_page) as Hall.
  { intros page Hin. apply list_elem_of_In in Hin. simpl in Hin.
    destruct Hin as [<-|[<-|[]]]; reflexivity. }
  assert (soup_head shared_page = Some shared_head) as Hhead by by vm_compute.
  assert (soup_body shared_page = Some shared_body) as Hbody by by vm_compute.
  assert (Forall (λ s, is_Some (src_of s)) (scripts_with_src shared_body)) as Hsrc.
  { apply (bool_decide_unpack _). by vm_compute. }
  destruct (@C8_identical_documents ascii_text plain_bs4 shared_pages shared_page
              shared_head shared_body Hne Hall Hhead Hbody Hsrc)
    as (fr & Hfr & Hmeta & _).
  exists fr. exact (conj Hfr Hmeta).
Defined.

(** C9, the claim as stated fails: the shared suffix of the two titles is
    not the bare name, it starts with the separator. *)
Lemma C9_suffix_keeps_the_separator :
  _longest_common_suffix [home_title; about_title] ≠ lit "Acme Inc.".
Proof. by vm_compute. Qed.

Lemma C9_witness :
  [home_title; about_title] ≠ [] ∧
  ∀ t, t ∈ [home_title; about_title] →
       _longest_common_suffix [home_title; about_title] `suffix_of` t.
Proof.
  assert ([home_title; about_title] ≠ []) as Hne by done.
  split; [done|].
  by destruct (C9_title_suffix [home_title; about_title] Hne) as [Hsuf _].
Defined.

Lemma C10_witness :
  (∀ el, el ∈ descendants header_nav_page → has_marker (key_of 7) el = false) ∧
  @replace_instance plain_bs4 (lit "a.html")
     (create_include_statement (lit "partial_1_nav.html"))
     (key_of 7, lit "a.html") header_nav_page = Ok header_nav_page.
Proof.
  assert (∀ el, el ∈ descendants header_nav_page →
                has_marker (key_of 7) el = false) as Hmiss.
  { apply Forall_forall, (bool_decide_unpack _). by vm_compute. }
  split; [done|].
  by destruct (@C10_missing_marker plain_bs4 (lit "a.html")
                 (create_include_statement (lit "partial_1_nav.html"))
                 (key_of 7, lit "a.html") header_nav_page Hmiss).
Defined.

(** * Further properties *)

(** ** The canonical form *)

Section canonical_more.
Context `{PyText, Bs4}.

Lemma canon_node_strings (c : Node) :
  Forall (λ o, canonical_string o ∧ Forall canonical_string (descendants o))
         (canon_node c).
Proof.
  induction c as [name attrs children IH|s|s] using Node_nested_ind; simpl.
  - apply Forall_singleton. split; [done|]. simpl.
    apply Forall_flat_map, Forall_flat_map.
    eapply Forall_impl; [apply IH|]. intros c Hc.
    eapply Forall_impl; [apply Hc|]. intros o [Ho Hd]. by apply Forall_cons.
  - destruct (normalize_text s) as [|d nt] eqn:Hs; [done|].
    apply Forall_singleton. split; [|done]. simpl. split; [done|].
    by rewrite <- Hs, normalize_text_idemp.
  - done.
Qed.

(** X1.  The canonical form holds no comment, and every string in it is a
    text that is not empty and that the white-space normalization leaves as
    it is. *)
Theorem canonical_form_strings (tag c d : Node) :
  _canonicalize tag = Some c → d ∈ descendants c →
  match d with
  | Elem _ _ _ => True
  | Text s => s ≠ [] ∧ normalize_text s = s
  | Comment _ => False
  end.
Proof.
  intros Hc Hd.
  apply _canonicalize_Some in Hc as (name & attrs & children & _ & ->).
  simpl in Hd. apply list_elem_of_In, in_flat_map in Hd as (c & Hc & Hd).
  apply in_flat_map in Hc as (c0 & _ & Hc).
  pose proof (canon_node_strings c0) as Hall. rewrite Forall_forall in Hall.
  destruct (Hall c (proj2 (list_elem_of_In _ _) Hc)) as [Hc1 Hc2].
  apply list_elem_of_In, elem_of_cons in Hd as [->|Hd]; [done|].
  rewrite Forall_forall in Hc2. by apply Hc2.
Qed.

(** The names of the elements below a node, in document order. *)
Lemma simhash_tokens_children (name : str) (attrs : Attrs) (children : list Node) :
  simhash_tokens (Elem name attrs children) =
    flat_map (λ c, if is_elem c then tag_name c :: simhash_tokens c else [])
             children.
Proof.
  unfold simhash_tokens. cbn [descendants].
  induction children as [|c children IH]; [done|]. cbn [flat_map].
  rewrite !List.filter_app, !fmap_app, IH. by destruct c.
Qed.

Lemma canon_node_tokens (c : Node) :
  flat_map (λ o, if is_elem o then tag_name o :: simhash_tokens o else [])
           (canon_node c)
  = if is_elem c then tag_name c :: simhash_tokens c else [].
Proof.
  induction c as [name attrs children IH|s|s] using Node_nested_ind; simpl.
  - rewrite app_nil_r. f_equal. rewrite !simhash_tokens_children.
    rewrite flat_map_flat_map. by apply flat_map_ext_Forall.
  - by destruct (normalize_text s).
  - done.
Qed.

Lemma canon_node_elems (c : Node) :
  List.filter is_elem (canon_node c) = [] ↔ is_elem c = false.
Proof. destruct c; simpl; [done|by destruct (normalize_text s)|done]. Qed.

Lemma filter_flat_map_nil {A B} (p : B → bool) (f : A → list B) (l : list A) :
  List.filter p (flat_map f l) = [] ↔ Forall (λ x, List.filter p (f x) = []) l.
Proof.
  induction l as [|x l IH]; simpl; [done|].
  rewrite List.filter_app, Forall_cons, <- IH. split.
  - by intros [? ?]%app_eq_nil.
  - by intros [-> ->].
Qed.

Lemma filter_nil_Forall {A} (p : A → bool) (l : list A) :
  List.filter p l = [] ↔ Forall (λ x, p x = false) l.
Proof.
  induction l as [|x l IH]; simpl; [done|]. rewrite Forall_cons, <- IH.
  destruct (p x); naive_solver.
Qed.

Lemma canon_node_paths (c : Node) (pre : list str) :
  flat_map (λ o, if is_elem o then get_paths o pre else []) (canon_node c)
  = if is_elem c then get_paths c pre else [].
Proof.
  revert pre.
  induction c as [name attrs children IH|s|s] using Node_nested_ind;
    intros pre; simpl.
  - rewrite app_nil_r.
    assert (List.filter is_elem (flat_map canon_node children) = []
            ↔ List.filter is_elem children = []) as Hnil.
    { rewrite filter_flat_map_nil, filter_nil_Forall.
      apply Forall_iff. intros c. apply canon_node_elems. }
    assert (flat_map (λ child, if is_elem child
                               then get_paths child (pre ++ [name]) else [])
              (flat_map canon_node children)
            = flat_map (λ child, if is_elem child
                                 then get_paths child (pre ++ [name]) else [])
                children) as Heq.
    { rewrite flat_map_flat_map. apply flat_map_ext_Forall.
      eapply Forall_impl; [apply IH|]. intros c Hc. apply Hc. }
    rewrite Heq.
    destruct (List.filter is_elem (flat_map canon_node children)) as [|x xs];
      destruct (List.filter is_elem children) as [|y ys]; try done.
    + discriminate (proj1 Hnil eq_refl).
    + discriminate (proj2 Hnil eq_refl).
  - by destruct (normalize_text s).
  - done.
Qed.

Lemma canonical_root_tokens (name : str) (attrs : Attrs) (children : list Node) :
  simhash_tokens (Elem name attrs (flat_map canon_node children))
  = simhash_tokens (Elem name attrs children).
Proof.
  rewrite !simhash_tokens_children, flat_map_flat_map.
  apply flat_map_ext_Forall, Forall_forall. intros c _. apply canon_node_tokens.
Qed.

(** X2.  The canonical form has the elements of the parsed copy, with their
    names and in their order: its structural paths, its shingles and the
    tokens of its fingerprint are those of the root that the parser
    returned, whatever the attributes, texts and comments are. *)
Theorem canonical_form_keeps_structure (tag c : Node) :
  _canonicalize tag = Some c →
  ∃ root, find_child (tag_name tag) (html_parser (str_of tag)) = Some root ∧
    tag_name c = tag_name root ∧
    _get_structural_paths c = _get_structural_paths root ∧
    shingles c = shingles root ∧
    simhash_tokens c = simhash_tokens root.
Proof.
  intros Hc. apply _canonicalize_Some in Hc as (name & attrs & children & Hroot & ->).
  eexists. split; [done|]. split; [done|].
  assert (_get_structural_paths (Elem name attrs (flat_map canon_node children))
          = _get_structural_paths (Elem name attrs children)) as Hpaths.
  { unfold _get_structural_paths. simpl.
    assert (List.filter is_elem (flat_map canon_node children) = []
            ↔ List.filter is_elem children = []) as Hnil.
    { rewrite filter_flat_map_nil, filter_nil_Forall.
      apply Forall_iff. intros c. apply canon_node_elems. }
    assert (flat_map (λ child, if is_elem child
                               then get_paths child [name] else [])
              (flat_map canon_node children)
            = flat_map (λ child, if is_elem child
                                 then get_paths child [name] else [])
                children) as Heq.
    { rewrite flat_map_flat_map. apply flat_map_ext_Forall, Forall_forall.
      intros c _. apply canon_node_paths. }
    rewrite Heq.
    destruct (List.filter is_elem (flat_map canon_node children)) as [|x xs];
      destruct (List.filter is_elem children) as [|y ys]; try done.
    + discriminate (proj1 Hnil eq_refl).
    + discriminate (proj2 Hnil eq_refl). }
  split; [done|]. split; [unfold shingles; by rewrite Hpaths|].
  apply canonical_root_tokens.
Qed.

Lemma canon_node_normal (c : Node) :
  dict_attrs c = true →
  Forall (λ o, normal_attrs (tag_attrs o)
               ∧ Forall (λ d, normal_attrs (tag_attrs d)) (descendants o))
         (canon_node c).
Proof.
  assert (normal_attrs []) as Hnil.
  { split; [apply NoDup_nil_2|by intros ? ?%elem_of_nil|by intros ? ? ?%elem_of_nil..]. }
  induction c as [name attrs children IH|s|s] using Node_nested_ind; simpl.
  - intros [Hnd Hch]%andb_true_iff. apply bool_decide_eq_true in Hnd.
    apply Forall_singleton. split; [by apply normalize_attrs_normal|]. simpl.
    apply Forall_flat_map, Forall_flat_map.
    rewrite forallb_forall in Hch. rewrite Forall_forall in IH.
    apply Forall_forall. intros c Hc.
    eapply Forall_impl; [apply (IH c Hc), Hch; by apply list_elem_of_In|].
    intros o [Ho Hd]. by apply Forall_cons.
  - intros _. destruct (normalize_text s); [done|]. by apply Forall_singleton.
  - done.
Qed.

Lemma keep_attrs_not_data (k : str) :
  startswith (lit "data-") k = true → k ∉ KEEP_ATTRS.
Proof.
  intros Hs Hk. unfold KEEP_ATTRS in Hk.
  repeat (apply elem_of_cons in Hk as [->|Hk]); try done.
  by apply elem_of_nil in Hk.
Qed.

(** X3.  The attributes of an element below the root of the canonical form:
    a [class] is a sorted list, not empty, of classes that are not stateful;
    none of [onclick], [onload] and [style] is left; a [href] or
    [data-bs-target] that was a fragment is the bare ["#"]; and the only
    [data-] attribute left is a [data-bs-target] that is ["#"]. *)
Theorem canonical_form_attributes (tag c el : Node) (k : str) (v : AttrValue) :
  _canonicalize tag = Some c →
  dict_attrs (html_parser (str_of tag)) = true →
  el ∈ find_all_tags c → (k, v) ∈ tag_attrs el →
  (k ∉ DROP_ATTRS) ∧
  (k = lit "class" →
     ∃ cls, v = VList cls ∧ cls ≠ [] ∧ StronglySorted str_le cls ∧
            Forall (λ cl, STATEFUL_CLASSES_search cl = false ∧ cl ∉ stateful) cls) ∧
  (k ∈ [lit "href"; lit "data-bs-target"] →
     ∀ s, v = VStr s → startswith (lit "#") s = true → s = lit "#") ∧
  (startswith (lit "data-") k = true →
     k = lit "data-bs-target" ∧ v = VStr (lit "#")).
Proof.
  intros Hc Hdict Hel Hkv.
  apply _canonicalize_Some in Hc as (name & attrs & children & Hroot & ->).
  apply find_child_Some in Hroot as (Hin & _ & _).
  pose proof (dict_attrs_contents _ _ Hdict Hin) as Hd. simpl in Hd.
  apply andb_true_iff in Hd as [_ Hd]. rewrite forallb_forall in Hd.
  assert (normal_attrs (tag_attrs el)) as [Hnd Hcl Hdel Hnorm].
  { apply list_elem_of_In, filter_In in Hel as [Hel _]. simpl in Hel.
    apply in_flat_map in Hel as (c & Hc & Hel).
    apply in_flat_map in Hc as (c0 & Hc0 & Hc).
    pose proof (canon_node_normal c0 (Hd c0 Hc0)) as Hall.
    rewrite Forall_forall in Hall.
    destruct (Hall c (proj2 (list_elem_of_In _ _) Hc)) as [Hc1 Hc2].
    destruct Hel as [<-|Hel]; [done|].
    rewrite Forall_forall in Hc2. by apply Hc2, list_elem_of_In. }
  specialize (Hdel k v Hkv). specialize (Hnorm k v Hkv).
  unfold to_delete in Hdel.
  destruct (to_normalize k v) eqn:Hn; cbn [negb andb] in Hdel.
  - specialize (Hnorm eq_refl). subst v.
    unfold to_normalize in Hn. apply andb_true_iff in Hn as [Hk _].
    apply bool_decide_eq_true in Hk.
    assert (k = lit "href" ∨ k = lit "data-bs-target") as Hk'.
    { apply elem_of_cons in Hk as [->|Hk]; [by left|].
      apply elem_of_cons in Hk as [->|Hk]; [by right|].
      by apply elem_of_nil in Hk. }
    split; [destruct Hk' as [-> | ->]; apply (bool_decide_unpack _); by vm_compute|].
    split; [by destruct Hk' as [-> | ->]|].
    split; [by intros _ s [= <-]|].
    intros Hdata. by destruct Hk' as [-> | ->].
  - apply orb_false_iff in Hdel as [Hdel Hdata].
    apply orb_false_iff in Hdel as [_ Hdrop].
    apply bool_decide_eq_false in Hdrop. split; [done|]. split; [|split].
    + intros ->. destruct (Hcl v Hkv) as (cls & -> & Hne & Hs).
      exists cls. split; [done|]. split; [done|]. split.
      * rewrite <- Hs. apply sorted_StronglySorted.
      * apply Forall_forall. intros cl Hcl'.
        assert (cl ∈ List.filter keep_class cls) as Hf
          by (rewrite <- sorted_Permutation; by rewrite Hs).
        apply list_elem_of_In, filter_In in Hf as [_ Hf].
        unfold keep_class in Hf. apply andb_true_iff in Hf as [Hf1 Hf2].
        apply negb_true_iff in Hf1, Hf2.
        by apply bool_decide_eq_false in Hf2.
    + intros Hk s -> Hs. unfold to_normalize in Hn.
      rewrite (bool_decide_eq_true_2 _ Hk), Hs in Hn. done.
    + intros Hs. rewrite Hs in Hdata. simpl in Hdata.
      apply negb_false_iff, bool_decide_eq_true in Hdata.
      by destruct (keep_attrs_not_data k Hs).
Qed.
End canonical_more.

(** ** The size of the canonical form *)

Lemma strip_by_nil (p : char → bool) (s : str) :
  strip_by p s = [] ↔ forallb p s = true.
Proof.
  unfold strip_by. induction s as [|c r IH]; simpl; [done|].
  destruct (p c) eqn:Hc; simpl; [done|]. split; [|done].
  by destruct (rstrip_by p r); rewrite ?Hc.
Qed.

Section canonical_size.
Context `{PyText, Bs4}.

Lemma collapse_ws_blank (b : bool) (s : str) :
  isspace 32%N = true →
  forallb isspace (collapse_ws b s) = forallb isspace s.
Proof.
  intros H32. revert b. induction s as [|c r IH]; intros b; simpl; [done|].
  destruct (isspace c) eqn:Hc; simpl.
  - destruct b; simpl; [apply IH|]. by rewrite H32, IH.
  - by rewrite Hc.
Qed.

Lemma not_blank_normalize_text (s : str) :
  isspace 32%N = true →
  not_blank s = match normalize_text s with [] => false | _ => true end.
Proof.
  intros H32. unfold not_blank, normalize_text.
  pose proof (strip_by_nil isspace s) as H1.
  pose proof (strip_by_nil isspace (collapse_ws false s)) as H2.
  rewrite collapse_ws_blank in H2 by done.
  destruct (strip_by isspace s), (strip_by isspace (collapse_ws false s));
    try done.
  - discriminate (proj2 H2 (proj1 H1 eq_refl)).
  - discriminate (proj2 H1 (proj1 H2 eq_refl)).
Qed.

Lemma not_blank_normal (s : str) :
  normalize_text s ≠ [] → not_blank (normalize_text s) = true.
Proof.
  intros Hne. unfold not_blank, normalize_text in *.
  rewrite strip_idemp. by destruct (strip_by _ _).
Qed.

Lemma length_filter_flat_map {A C} (P Q : C → bool) (F G : A → list C)
    (l : list A) :
  Forall (λ x, length (List.filter P (F x)) = length (List.filter Q (G x))) l →
  length (List.filter P (flat_map F l)) = length (List.filter Q (flat_map G l)).
Proof.
  induction 1 as [|x l Hx _ IH]; simpl; [done|].
  rewrite !List.filter_app, !length_app. by rewrite Hx, IH.
Qed.

Lemma canon_node_strings_count (c : Node) :
  isspace 32%N = true →
  length (List.filter counted_string
            (flat_map (λ o, o :: descendants o) (canon_node c)))
  = length (List.filter counted_text (c :: descendants c)).
Proof.
  intros H32.
  induction c as [name attrs children IH|s|s] using Node_nested_ind.
  - cbn [canon_node flat_map descendants]. rewrite app_nil_r.
    cbn [List.filter counted_string counted_text].
    rewrite flat_map_flat_map. by apply length_filter_flat_map.
  - cbn [canon_node descendants List.filter counted_text].
    rewrite (not_blank_normalize_text s H32).
    destruct (normalize_text s) as [|d nt] eqn:Hs; [done|].
    cbn [flat_map descendants app List.filter counted_string].
    rewrite <- Hs, not_blank_normal; [done|]. by rewrite Hs.
  - done.
Qed.

(** X4.  The size of the canonical form is the number of elements below the
    parsed root plus the number of its texts that are not blank: comments do
    not count any more, so the canonical form is never larger than the
    root. *)
Theorem canonical_form_size (tag c : Node) :
  isspace 32%N = true → _canonicalize tag = Some c →
  ∃ root, find_child (tag_name tag) (html_parser (str_of tag)) = Some root ∧
    _get_node_size c
      = length (find_all_tags root)
        + length (List.filter counted_text (descendants root)) ∧
    _get_node_size c ≤ _get_node_size root.
Proof.
  intros H32 Hc.
  apply _canonicalize_Some in Hc as (name & attrs & children & Hroot & ->).
  eexists. split; [done|].
  pose proof (canonical_root_tokens name attrs children) as Htok.
  assert (length (find_all_tags (Elem name attrs (flat_map canon_node children)))
          = length (find_all_tags (Elem name attrs children))) as Hel.
  { unfold simhash_tokens in Htok. apply (f_equal length) in Htok.
    by rewrite !length_fmap in Htok. }
  assert (length (find_all_strings not_blank
                    (Elem name attrs (flat_map canon_node children)))
          = length (List.filter counted_text
                      (descendants (Elem name attrs children)))) as Hst.
  { unfold find_all_strings. cbn [descendants]. rewrite flat_map_flat_map.
    apply (length_filter_flat_map counted_string counted_text), Forall_forall.
    intros c _. by apply canon_node_strings_count. }
  unfold _get_node_size. rewrite Hel, Hst. split; [done|].
  apply Nat.add_le_mono_l. unfold find_all_strings.
  generalize (descendants (Elem name attrs children)). intros l.
  induction l as [|d l IH]; simpl; [done|].
  destruct d as [? ? ?|s|s]; simpl; [done| |].
  - destruct (not_blank s); simpl; lia.
  - destruct (not_blank s); simpl; lia.
Qed.
End canonical_size.

(** ** The helpers: [_to_zss_node], the shingles, the shared title *)

Lemma zss_kids_size (children : list Node) :
  Forall (λ c, is_elem c = true →
               zss_size (_to_zss_node c) = S (length (find_all_tags c))) children →
  foldr (λ k n, zss_size k + n) 0
    (flat_map (λ ch, if is_elem ch then [_to_zss_node ch] else []) children)
  = length (List.filter is_elem (flat_map (λ c, c :: descendants c) children)).
Proof.
  induction 1 as [|c children Hc _ IH]; [done|]. cbn [flat_map].
  rewrite foldr_app, List.filter_app, length_app, IH.
  destruct c as [name attrs cs|s|s]; [|done..].
  cbn [is_elem foldr List.filter]. rewrite Hc by done.
  unfold find_all_tags. simpl. lia.
Qed.

(** X5.  The zss tree of an element has one node for the element and one for
    every element below it; its label starts with the name of the element,
    and is the name when the element has no class. *)
Theorem to_zss_node_size (node : Node) :
  is_elem node = true →
  zss_size (_to_zss_node node) = S (length (find_all_tags node)) ∧
  tag_name node `prefix_of` zss_label (_to_zss_node node) ∧
  (attrs_get (lit "class") (tag_attrs node) = None →
   zss_label (_to_zss_node node) = tag_name node).
Proof.
  intros He. split; [|split].
  - revert He.
    induction node as [name attrs children IH|s|s] using Node_nested_ind;
      [intros _|done..].
    cbn [_to_zss_node zss_size]. f_equal. rewrite zss_kids_size by done.
    reflexivity.
  - destruct node as [name attrs children|s|s]; [|done..].
    cbn [_to_zss_node zss_label tag_name].
    destruct (attrs_get _ attrs) as [v|]; [|reflexivity].
    destruct (truthy (Some v)); [|reflexivity]. by eexists.
  - destruct node as [name attrs children|s|s]; [|done..]. simpl.
    by intros ->.
Qed.

Lemma elem_of_windows3 (p : list str) (sh : str) :
  sh ∈ windows3 p ↔
  ∃ i a b c, p !! i = Some a ∧ p !! S i = Some b ∧ p !! S (S i) = Some c ∧
             sh = join (lit ">") [a; b; c].
Proof.
  induction p as [|a p IH].
  - split; [by intros ?%elem_of_nil|by intros (i & ? & ? & ? & [=] & _)].
  - destruct p as [|b [|c p]].
    + split; [by intros ?%elem_of_nil|].
      by intros ([|i] & ? & ? & ? & _ & [=] & _).
    + split; [by intros ?%elem_of_nil|].
      by intros ([|[|i]] & ? & ? & ? & _ & ? & [=] & _).
    + change (windows3 (a :: b :: c :: p))
        with (join (lit ">") [a; b; c] :: windows3 (b :: c :: p)).
      rewrite elem_of_cons, IH. split.
      * intros [->|(i & x & y & z & Hx & Hy & Hz & ->)].
        -- by exists 0, a, b, c.
        -- by exists (S i), x, y, z.
      * intros ([|i] & x & y & z & Hx & Hy & Hz & ->).
        -- left. by simplify_eq/=.
        -- right. by exists i, x, y, z.
Qed.

(** X6.  The shingles of a tag are the joins of three consecutive names of
    its structural paths: a tag whose paths all have fewer than three names
    has none. *)
Theorem shingles_are_windows `{PyText} (tag : Node) (sh : str) :
  sh ∈ shingles tag ↔
  ∃ p i a b c, p ∈ _get_structural_paths tag ∧
    p !! i = Some a ∧ p !! (i + 1) = Some b ∧ p !! (i + 2) = Some c ∧
    sh = a ++ lit ">" ++ b ++ lit ">" ++ c.
Proof.
  unfold shingles. rewrite elem_of_list_to_set. split.
  - intros Hin. apply list_elem_of_In, in_flat_map in Hin as (p & Hp & Hin).
    apply list_elem_of_In, elem_of_windows3 in Hin
      as (i & a & b & c & Ha & Hb & Hc & ->).
    exists p, i, a, b, c. rewrite !Nat.add_succ_r, Nat.add_0_r.
    split; [by apply list_elem_of_In|done].
  - intros (p & i & a & b & c & Hp & Ha & Hb & Hc & ->).
    rewrite !Nat.add_succ_r, Nat.add_0_r in *.
    apply list_elem_of_In, in_flat_map. exists p.
    split; [by apply list_elem_of_In|].
    apply list_elem_of_In, elem_of_windows3. by exists i, a, b, c.
Qed.

(** X7.  When all titles are the same, a corpus of one page included, the
    shared suffix is the whole title and every residual title is empty. *)
Theorem equal_titles_leave_no_page_title (page_titles : list str) (title : str) :
  page_titles ≠ [] → (∀ t, t ∈ page_titles → t = title) →
  _longest_common_suffix page_titles = title ∧
  ∀ t, t ∈ page_titles →
       residual_title (_longest_common_suffix page_titles) t = [].
Proof.
  intros Hne Hall.
  destruct (longest_common_suffix_spec page_titles Hne) as [Hsuf Hmax].
  assert (_longest_common_suffix page_titles = title) as Heq.
  { destruct page_titles as [|t0 ts]; [done|].
    assert (t0 = title) as -> by (apply Hall; left).
    apply (anti_symm suffix).
    - apply Hsuf. left.
    - apply Hmax. intros t Ht. by rewrite (Hall t Ht). }
  split; [done|]. intros t Ht. rewrite Heq, (Hall t Ht).
  unfold residual_title. destruct title as [|c title']; [done|].
  by rewrite Nat.sub_diag.
Qed.

(** ** More on [_cluster_candidates] *)

Section clusters_more.
Context `{PyText, Similarity}.

(** The members that the inner loop adds were answered by the index. *)
Lemma near_loop_answers (items : gmap str Candidate) (key : str) (seed : Candidate)
    (near_keys : list str) (cluster cluster' : Cluster) (visited visited' : gset str) :
  near_loop items key seed near_keys cluster visited = Some (cluster', visited') →
  ∃ added : Cluster,
    cluster' = cluster ++ added ∧ Forall (λ m, m.1 ∈ near_keys) added.
Proof.
  revert cluster visited.
  induction near_keys as [|nk rest IH]; intros cluster visited; simpl.
  - intros [= <- <-]. exists []. by rewrite app_nil_r.
  - assert (∀ cl v, near_loop items key seed rest cl v = Some (cluster', visited') →
              ∃ added : Cluster, cluster' = cl ++ added
                                 ∧ Forall (λ m, m.1 ∈ nk :: rest) added) as IH'.
    { intros cl v (added & -> & Hall)%IH. exists added. split; [done|].
      eapply Forall_impl; [apply Hall|]. intros m Hm. by right. }
    destruct (_ || _); [apply IH'|].
    destruct (items !! nk) as [near|]; [|done].
    destruct (too_far seed near); [apply IH'|].
    destruct (size_mismatch seed near); [apply IH'|].
    intros (added & -> & Hall)%IH'. exists ((nk, near) :: added).
    rewrite <- app_assoc. split; [done|]. apply Forall_cons. split; [left|done].
Qed.

Lemma seeds_snoc (clusters : list Cluster) (key : str) (seed : Candidate)
    (rest : Cluster) :
  seeds (clusters ++ [(key, seed) :: rest]) = seeds clusters ++ [key].
Proof. unfold seeds. by rewrite omap_app. Qed.

Lemma seed_loop_seeds (items : gmap str Candidate) (index : LSH)
    (done_keys keys : list str) (clusters result : list Cluster)
    (visited : gset str) :
  seeds clusters `sublist_of` done_keys →
  length (seeds clusters) = length clusters →
  Forall (answered index) clusters →
  seed_loop items index keys clusters visited = Some result →
  seeds result `sublist_of` done_keys ++ keys ∧
  length (seeds result) = length result ∧
  Forall (answered index) result.
Proof.
  revert done_keys clusters visited.
  induction keys as [|key rest IH]; intros done_keys clusters visited
    Hsub Hlen Hans; simpl.
  - intros [= <-]. by rewrite app_nil_r.
  - rewrite (cons_middle key), app_assoc.
    assert (seeds clusters `sublist_of` done_keys ++ [key]) as Hsub'
      by by apply sublist_inserts_r.
    case_bool_decide; [by apply IH|].
    destruct (items !! key) as [seed|]; [|done].
    destruct (near_loop _ _ _ _ _ _) as [[cluster visited']|] eqn:Hnear; [|done].
    apply near_loop_answers in Hnear as (added & -> & Hall).
    change ([(key, seed)] ++ added) with ((key, seed) :: added).
    destruct (1 <? length _); [|by apply IH].
    apply IH.
    + rewrite seeds_snoc. by apply sublist_app.
    + rewrite seeds_snoc, !length_app, Hlen. done.
    + apply Forall_app. split; [done|]. by apply Forall_singleton.
Qed.

(** X8.  The clusters are listed in the order in which their seeds come in
    the sorted keys, every cluster having a seed, and every other member of a
    cluster was answered by the index when it was asked for the sketch of the
    seed. *)
Theorem clusters_follow_the_seeds (items : gmap str Candidate) (index : LSH)
    (clusters : list Cluster) :
  _cluster_candidates items index = Some clusters →
  seeds clusters `sublist_of` sorted_keys items ∧
  length (seeds clusters) = length clusters ∧
  ∀ key seed rest m, (key, seed) :: rest ∈ clusters → m ∈ rest →
                     m.1 ∈ lsh_query index (mh seed).
Proof.
  intros Hc. unfold _cluster_candidates in Hc.
  apply (seed_loop_seeds items index [] _ [] _ ∅) in Hc
    as (Hsub & Hlen & Hall); [|done..].
  split; [done|]. split; [done|]. intros key seed rest m Hcl Hm.
  rewrite Forall_forall in Hall. specialize (Hall _ Hcl). simpl in Hall.
  rewrite Forall_forall in Hall. by apply Hall.
Qed.

Lemma seed_loop_stored (items : gmap str Candidate) (index : LSH)
    (keys : list str) (clusters : list Cluster) (visited : gset str) :
  (∀ k, k ∈ keys → k ∈ dom items) →
  (∀ k c nk, items !! k = Some c → nk ∈ lsh_query index (mh c) → nk ∈ dom items) →
  is_Some (seed_loop items index keys clusters visited).
Proof.
  intros Hkeys Hq. revert clusters visited.
  induction keys as [|key rest IH]; intros clusters visited; simpl; [done|].
  assert (∀ k, k ∈ rest → k ∈ dom items) as Hrest
    by (intros k Hk; apply Hkeys; by right).
  case_bool_decide; [by apply IH|].
  destruct (items !! key) as [seed|] eqn:Hseed.
  - destruct (near_loop_total items key seed (lsh_query index (mh seed))
                [(key, seed)] ({[key]} ∪ visited)) as [[cl v] ->];
      [intros nk; by apply (Hq key seed)|].
    by apply IH.
  - apply not_elem_of_dom in Hseed. destruct Hseed. apply Hkeys. left.
Qed.

(** X9.  [_cluster_candidates] ends without a [KeyError] when the index
    answers the sketch of every stored candidate with stored keys only; the
    one lookup that can fail is [self.items[nk]] for an answer [nk]. *)
Theorem cluster_candidates_never_raises (items : gmap str Candidate)
    (index : LSH) :
  (∀ k c nk, items !! k = Some c → nk ∈ lsh_query index (mh c) →
             nk ∈ dom items) →
  ∃ clusters, _cluster_candidates items index = Some clusters.
Proof.
  intros Hq. apply seed_loop_stored; [|done].
  intros k Hk. unfold sorted_keys in Hk. rewrite sorted_Permutation in Hk.
  by apply elem_of_elements in Hk.
Qed.
End clusters_more.

(** ** No accepted answer is left out of the clusters *)

Section clusters_complete.
Context `{PyText, Similarity}.

(** After the inner loop every answer that is stored and accepted against
    the seed has been visited. *)
Lemma near_loop_complete (items : gmap str Candidate) (key : str)
    (seed : Candidate) (near_keys : list str) (cluster cluster' : Cluster)
    (visited visited' : gset str) :
  near_loop items key seed near_keys cluster visited = Some (cluster', visited') →
  visited ⊆ visited' ∧
  ∀ nk near, nk ∈ near_keys → nk ≠ key → items !! nk = Some near →
             accepted seed near → nk ∈ visited'.
Proof.
  revert cluster visited.
  induction near_keys as [|nk0 rest IH]; intros cluster visited; simpl.
  - intros [= <- <-]. split; [done|]. by intros nk near ?%elem_of_nil.
  - destruct (bool_decide (nk0 = key) || bool_decide (nk0 ∈ visited)) eqn:Hskip.
    { intros [Hsub Hall]%IH. split; [done|].
      intros nk near [->|Hin]%elem_of_cons Hne Hnear Hacc; [|by eapply Hall].
      apply orb_true_iff in Hskip as [Hk|Hv].
      - by apply bool_decide_eq_true in Hk.
      - apply bool_decide_eq_true in Hv. by apply Hsub. }
    destruct (items !! nk0) as [near0|] eqn:Hnear0; [|done].
    destruct (too_far seed near0) eqn:Hfar.
    { intros [Hsub Hall]%IH. split; [done|].
      intros nk near [->|Hin]%elem_of_cons Hne Hnear Hacc; [|by eapply Hall].
      rewrite Hnear0 in Hnear. injection Hnear as <-.
      destruct Hacc as [Hacc _]. congruence. }
    destruct (size_mismatch seed near0) eqn:Hsize.
    { intros [Hsub Hall]%IH. split; [done|].
      intros nk near [->|Hin]%elem_of_cons Hne Hnear Hacc; [|by eapply Hall].
      rewrite Hnear0 in Hnear. injection Hnear as <-.
      destruct Hacc as [_ Hacc]. congruence. }
    intros [Hsub Hall]%IH. split; [set_solver|].
    intros nk near [->|Hin]%elem_of_cons Hne Hnear Hacc; [|by eapply Hall].
    set_solver.
Qed.

Lemma complete_in_mono (items : gmap str Candidate) (index : LSH)
    (all : list Cluster) (new cl : Cluster) :
  complete_in items index all cl → complete_in items index (all ++ [new]) cl.
Proof.
  intros Hc key seed rest nk near Hcl Hq Hn Hacc Hlt.
  rewrite cluster_keys_snoc. apply elem_of_app. left. by eapply Hc.
Qed.

Lemma seed_loop_complete (items : gmap str Candidate) (index : LSH)
    (done_keys keys : list str) (clusters result : list Cluster)
    (visited : gset str) :
  StronglySorted str_le (done_keys ++ keys) →
  (∀ k, k ∈ visited → k ∈ done_keys ∨ k ∈ cluster_keys clusters) →
  Forall (complete_in items index clusters) clusters →
  seed_loop items index keys clusters visited = Some result →
  Forall (complete_in items index result) result.
Proof.
  revert done_keys clusters visited.
  induction keys as [|key rest IH]; intros done_keys clusters visited
    Hsorted Hvis Hall; simpl.
  - by intros [= <-].
  - assert (Hnext : StronglySorted str_le ((done_keys ++ [key]) ++ rest))
      by by rewrite <- app_assoc.
    case_bool_decide as Hkey.
    { apply (IH (done_keys ++ [key])); [done| |done].
      intros k Hk. destruct (Hvis k Hk); [left; set_solver|by right]. }
    destruct (items !! key) as [seed|] eqn:Hseed; [|done].
    destruct (near_loop _ _ _ _ _ _) as [[cluster visited']|] eqn:Hnear; [|done].
    pose proof (near_loop_complete _ _ _ _ _ _ _ _ Hnear) as [_ Hcomplete].
    apply near_loop_spec in Hnear as (added & -> & -> & _ & _).
    change ([(key, seed)] ++ added) with ((key, seed) :: added) in *.
    destruct (Nat.ltb_spec 1 (length ((key, seed) :: added))) as [Hlen|Hlen].
    + apply (IH (done_keys ++ [key])); [done| |].
      * intros k. rewrite cluster_keys_snoc. cbn [fmap list_fmap fst].
        intros [Hk|[Hk|Hk]%elem_of_union]%elem_of_union.
        -- apply elem_of_list_to_set in Hk. right. set_solver.
        -- apply elem_of_singleton in Hk as ->. left. set_solver.
        -- destruct (Hvis k Hk); [left; set_solver|right; set_solver].
      * apply Forall_app. split.
        { eapply Forall_impl; [apply Hall|]. intros cl. apply complete_in_mono. }
        apply Forall_singleton.
        intros key' seed' rest' nk near [= <- <- <-] Hq Hn Hacc [Hle Hne].
        rewrite cluster_keys_snoc. cbn [fmap list_fmap fst].
        assert (nk ∈ list_to_set added.*1 ∪ ({[key]} ∪ visited)) as Hin
          by (eapply Hcomplete; done).
        apply elem_of_union in Hin as [Hin|Hin];
          [apply elem_of_list_to_set in Hin; set_solver|].
        apply elem_of_union in Hin as [Hin|Hin]; [set_solver|].
        destruct (Hvis nk Hin) as [Hd|Hc]; [|set_solver].
        apply list_elem_of_split in Hd as (l1 & l2 & ->).
        rewrite <- app_assoc in Hsorted.
        apply StronglySorted_app_1_r, StronglySorted_inv in Hsorted as [_ Hle'].
        rewrite Forall_forall in Hle'.
        destruct Hne. apply (anti_symm str_le); [done|].
        apply Hle'. set_solver.
    + apply (IH (done_keys ++ [key])); [done| |done].
      destruct added as [|m added]; [|simpl in Hlen; lia].
      intros k. simpl.
      intros [Hk|[Hk|Hk]%elem_of_union]%elem_of_union.
      * set_solver.
      * apply elem_of_singleton in Hk as ->. left. set_solver.
      * destruct (Hvis k Hk); [left; set_solver|by right].
Qed.

(** X22.  No accepted answer is left out.  When the index answers the sketch
    of the seed of a cluster with the key of a stored candidate that passes
    the two tests against the seed and comes after the seed in the order of
    the keys, this candidate is a member of one of the clusters: of this one,
    or of an earlier one that claimed it first. *)
Theorem accepted_answers_are_clustered (items : gmap str Candidate)
    (index : LSH) (clusters : list Cluster) :
  _cluster_candidates items index = Some clusters →
  ∀ key seed rest nk near,
    (key, seed) :: rest ∈ clusters →
    nk ∈ lsh_query index (mh seed) → items !! nk = Some near →
    too_far seed near = false → size_mismatch seed near = false →
    str_lt key nk →
    nk ∈ cluster_keys clusters.
Proof.
  intros Hc key seed rest nk near Hcl Hq Hn Hfar Hsize Hlt.
  unfold _cluster_candidates in Hc.
  apply (seed_loop_complete items index [] _ [] _ ∅) in Hc.
  - rewrite Forall_forall in Hc. by eapply (Hc _ Hcl).
  - apply sorted_StronglySorted.
  - by intros k ?%elem_of_empty.
  - constructor.
Qed.
End clusters_complete.

(** ** More on [_extract_partials] *)

(** Two strings of digits followed by the same character that is no digit
    are the same when the wholes are. *)
Lemma digits_then_sep (a b x y : str) (sep : char) :
  Forall is_digit a → Forall is_digit b → ¬ is_digit sep →
  a ++ sep :: x = b ++ sep :: y → a = b.
Proof.
  intros Ha. revert b.
  induction Ha as [|c a Hc Ha IH]; intros b Hb Hsep Heq.
  - destruct Hb as [|d b Hd Hb]; [done|]. simplify_eq/=. done.
  - destruct Hb as [|d b Hd Hb]; simplify_eq/=; [done|].
    f_equal. by apply IH.
Qed.

Lemma strip_marker_clean (t : Node) :
  attrs_get MARKER (tag_attrs (strip_marker t)) = None.
Proof.
  destruct t as [name attrs children|s|s]; [|done..]. simpl.
  destruct (has_attr MARKER attrs) eqn:Hm.
  - apply attrs_get_None. intros Hin.
    apply list_elem_of_fmap in Hin as ([k v] & Hk & Hin).
    apply elem_of_attrs_del in Hin as [_ Hne]. by simpl in *.
  - apply has_attr_false in Hm. by apply attrs_get_None.
Qed.

Section partials_more.
Context `{PyText, Bs4, Similarity}.

Lemma extract_partial_Some (i : nat) (cluster : Cluster)
    (e : Partial * ClusterInfo) :
  extract_partial i cluster = Some e →
  is_elem (partial_body e.1) = true ∧
  attrs_get MARKER (tag_attrs (partial_body e.1)) = None ∧
  partial_name e.1 = lit "partial_" ++ decimal (i + 1) ++ lit "_"
                     ++ tag_name (partial_body e.1) ++ lit ".html" ∧
  partial_file e.2 = partial_name e.1.
Proof.
  unfold extract_partial. destruct cluster as [|[key seed] rest]; [done|].
  destruct (head _) as [template|] eqn:Ht; [|done]. intros [= <-].
  cbn [fst snd partial_body partial_name partial_file].
  split; [|split; [apply strip_marker_clean|done]].
  apply head_Some_elem_of, list_elem_of_In, filter_In in Ht as [_ Ht].
  by destruct template.
Qed.

Lemma extract_loop_lookup (i0 : nat) (clusters : list Cluster)
    (emitted : list (Partial * ClusterInfo)) :
  extract_loop i0 clusters = Some emitted →
  length emitted = length clusters ∧
  ∀ i e, emitted !! i = Some e →
    ∃ cl, clusters !! i = Some cl ∧ extract_partial (i0 + i) cl = Some e.
Proof.
  revert i0 emitted.
  induction clusters as [|cl clusters IH]; intros i0 emitted; simpl.
  - intros [= <-]. split; [done|]. by intros i e [=].
  - destruct (extract_partial i0 cl) as [e0|] eqn:He; [|done].
    destruct (extract_loop (S i0) clusters) as [es|] eqn:Hes; [|done].
    intros [= <-]. destruct (IH _ _ Hes) as [Hlen Hall].
    split; [simpl; by rewrite Hlen|]. intros [|i] e Hi; simplify_eq/=.
    + exists cl. by rewrite Nat.add_0_r.
    + destruct (Hall i e Hi) as (cl' & Hcl & Hex). exists cl'.
      by rewrite Nat.add_succ_r.
Qed.

(** X10.  [_extract_partials] gives one partial per cluster, in the order
    of the clusters.  The partial of the cluster at position [i] is an element
    without the marker, its file is named [partial_], the number [i + 1],
    [_], the name of the element and [.html], the entry of the cluster names
    this file, and no two partials have the same file name. *)
Theorem extract_partials_names (clusters : list Cluster)
    (emitted : list (Partial * ClusterInfo)) :
  _extract_partials clusters = Some emitted →
  length emitted = length clusters ∧
  (∀ i e, emitted !! i = Some e →
     is_elem (partial_body e.1) = true ∧
     attrs_get MARKER (tag_attrs (partial_body e.1)) = None ∧
     partial_name e.1 = lit "partial_" ++ decimal (i + 1) ++ lit "_"
                        ++ tag_name (partial_body e.1) ++ lit ".html" ∧
     partial_file e.2 = partial_name e.1) ∧
  NoDup (partial_name <$> emitted.*1).
Proof.
  intros He. apply extract_loop_lookup in He as [Hlen Hall].
  assert (∀ i e, emitted !! i = Some e →
     is_elem (partial_body e.1) = true ∧
     attrs_get MARKER (tag_attrs (partial_body e.1)) = None ∧
     partial_name e.1 = lit "partial_" ++ decimal (i + 1) ++ lit "_"
                        ++ tag_name (partial_body e.1) ++ lit ".html" ∧
     partial_file e.2 = partial_name e.1) as Hname.
  { intros i e Hi. destruct (Hall i e Hi) as (cl & _ & Hex).
    by apply extract_partial_Some in Hex. }
  split; [done|]. split; [done|].
  apply NoDup_alt. intros i j x Hi Hj.
  rewrite <- list_fmap_compose in Hi, Hj.
  apply list_lookup_fmap_Some in Hi as (ei & -> & Hi).
  apply list_lookup_fmap_Some in Hj as (ej & Heq & Hj).
  destruct (Hname i ei Hi) as (_ & _ & Hni & _).
  destruct (Hname j ej Hj) as (_ & _ & Hnj & _).
  cbn [compose] in Heq. rewrite Hni, Hnj in Heq.
  apply app_inv_head in Heq.
  apply digits_then_sep in Heq;
    [|apply decimal_spec..|intros [_ Hd]; vm_compute in Hd; exact (Hd eq_refl)].
  apply decimal_inj in Heq. lia.
Qed.

(** X11.  [_extract_partials] ends without an exception exactly when every
    cluster has a first member whose raw markup the parser turns into at
    least one element: [medoid_template.name] is taken without a test. *)
Theorem extract_partials_raises_iff (clusters : list Cluster) :
  is_Some (_extract_partials clusters) ↔
  Forall (λ cl, ∃ key seed rest,
                  cl = (key, seed) :: rest ∧
                  find_all_tags (html_parser (raw_tag_html seed)) ≠ [])
         clusters.
Proof.
  unfold _extract_partials. generalize 0.
  induction clusters as [|cl clusters IH]; intros i; simpl.
  - split; [constructor|by eexists].
  - rewrite Forall_cons, <- (IH (S i)). unfold extract_partial.
    destruct cl as [|[key seed] rest].
    { split; [by intros [? [=]]|by intros [(? & ? & ? & [=] & _) _]]. }
    destruct (find_all_tags _) as [|t ts] eqn:Ht; simpl.
    + split; [by intros [? [=]]|].
      intros [(key' & seed' & rest' & [= <- <- <-] & Hne) _].
      by rewrite Ht in Hne.
    + split.
      * intros Hs. split.
        -- exists key, seed, rest. split; [done|]. by rewrite Ht.
        -- destruct (extract_loop (S i) clusters); [by eexists|].
           by destruct Hs as [? [=]].
      * intros [_ [es ->]]. by eexists.
Qed.
End partials_more.

(** ** The replacement of a marked element *)

Section rewriter_more.
Context `{Bs4}.

(** X12.  An instance whose marker is found on an element of the live tree.
    For a page other than the source file of the instance nothing happens.
    For the source file the first element in document order that carries the
    marker is taken out of its parent, the nodes of the parsed include
    statement take its position among the children of the parent, and every
    node that is neither below nor above the parent stays as it is. *)
Theorem replace_instance_found (p : Path) (include_stmt : str)
    (inst : str * Path) (soup : Node) (target : place) :
  find_marker inst.1 soup = Some target →
  (inst.2 ≠ p → replace_instance p include_stmt inst soup = Ok soup) ∧
  (inst.2 = p →
   ∃ soup' el before after parent i name attrs children,
     replace_instance p include_stmt inst soup = Ok soup' ∧
     descendants_at [] soup = before ++ (target, el) :: after ∧
     has_marker inst.1 el = true ∧
     Forall (λ pn, has_marker inst.1 pn.2 = false) before ∧
     target = parent ++ [i] ∧
     get_at parent soup = Some (Elem name attrs children) ∧
     children !! i = Some el ∧
     get_at parent soup'
       = Some (Elem name attrs
                 (take i children ++ contents (html_parser include_stmt)
                  ++ drop (S i) children)) ∧
     ∀ q, ¬ parent `prefix_of` q → ¬ q `prefix_of` parent →
          get_at q soup' = get_at q soup).
Proof.
  intros Hf. unfold replace_instance. split.
  - intros Hne. by rewrite bool_decide_eq_false_2.
  - intros Heq. rewrite bool_decide_eq_true_2, Hf by done.
    destruct (replace_found _ _ (html_parser include_stmt) _ Hf) as [soup' Hr].
    pose proof (find_marker_Some _ _ _ Hf) as (Hne & _).
    unfold find_marker in Hf.
    destruct (List.find _ _) as [[t el]|] eqn:Hfind; [|done].
    injection Hf as ->.
    apply find_split in Hfind as (before & after & Hsplit & Hm & Hbefore).
    pose proof Hr as Hs. unfold replace_with in Hs.
    destruct (splice_at _ _ soup) as [soup''|] eqn:Hs'; [|done].
    injection Hs as ->. rename Hs' into Hs.
    destruct (exists_last Hne) as (parent & i & ->).
    destruct (splice_at_snoc _ _ _ _ _ Hs)
      as (name & attrs & children & el' & Hp & Hel & Hp' & Hframe).
    assert (get_at (parent ++ [i]) soup = Some el) as Hget.
    { assert ((parent ++ [i], el) ∈ descendants_at [] soup) as Hin
        by (rewrite Hsplit; set_solver).
      apply descendants_at_valid in Hin as (q & Hq & _ & Hget).
      simpl in Hq. by subst q. }
    rewrite (get_at_app _ _ _ _ Hp) in Hget. cbn [get_at contents] in Hget.
    rewrite Hel in Hget. injection Hget as ->.
    by exists soup', el, before, after, parent, i, name, attrs, children.
Qed.
End rewriter_more.

(** ** The head and the end of the body of a rewritten page *)

Lemma shallow_decompose_all (p q : Node → bool) (c : Node) :
  shallow q → q (decompose_all p c) = q c.
Proof. intros Hq. destruct c; [apply Hq|done..]. Qed.

Lemma decompose_all_ext (p q : Node → bool) (n : Node) :
  (∀ c, p c = q c) → decompose_all p n = decompose_all q n.
Proof.
  intros Hpq.
  induction n as [name attrs children IH|s|s] using Node_nested_ind;
    simpl; [|done..].
  f_equal. apply flat_map_ext_Forall.
  eapply Forall_impl; [apply IH|]. intros c Hc. simpl in Hc.
  by rewrite Hpq, Hc.
Qed.

Lemma decompose_all_none (n : Node) : decompose_all (λ _, false) n = n.
Proof.
  induction n as [name attrs children IH|s|s] using Node_nested_ind;
    simpl; [|done..].
  f_equal. induction IH as [|c cs Hc _ IHcs]; simpl; [done|].
  by rewrite Hc, IHcs.
Qed.

Lemma decompose_all_fuse (p q : Node → bool) (n : Node) :
  shallow q →
  decompose_all q (decompose_all p n) = decompose_all (λ c, p c || q c) n.
Proof.
  intros Hq.
  induction n as [name attrs children IH|s|s] using Node_nested_ind;
    simpl; [|done..].
  f_equal. rewrite flat_map_flat_map. apply flat_map_ext_Forall.
  eapply Forall_impl; [apply IH|]. intros c Hc. simpl in Hc.
  destruct (p c); simpl; [done|].
  rewrite shallow_decompose_all by done. destruct (q c); [done|].
  by rewrite Hc.
Qed.

Lemma decompose_all_contents (p : Node → bool) (n : Node) :
  contents (decompose_all p n)
  = decompose_all p <$> List.filter (λ c, negb (p c)) (contents n).
Proof.
  destruct n as [name attrs children|s|s]; [|done..]. simpl.
  induction children as [|c cs IH]; simpl; [done|].
  destruct (p c); simpl; [done|]. by rewrite IH.
Qed.

Lemma decompose_all_descendants (p : Node → bool) (n d : Node) :
  d ∈ descendants (decompose_all p n) →
  ∃ d0, d0 ∈ descendants n ∧ p d0 = false ∧ d = decompose_all p d0.
Proof.
  revert d.
  induction n as [name attrs children IH|s|s] using Node_nested_ind;
    intros d; simpl; [|by intros ?%elem_of_nil..].
  intros Hd. apply list_elem_of_In, in_flat_map in Hd as (c' & Hc' & Hd).
  apply in_flat_map in Hc' as (c & Hc & Hc').
  destruct (p c) eqn:Hp; [done|]. destruct Hc' as [<-|[]].
  rewrite Forall_forall in IH.
  assert (c ∈ children) as Hin by by apply list_elem_of_In.
  destruct Hd as [<-|Hd].
  - exists c. split; [|done]. apply list_elem_of_In, in_flat_map.
    exists c. split; [done|]. by left.
  - apply list_elem_of_In, (IH c Hin) in Hd as (d0 & Hd0 & Hpd & ->).
    exists d0. split; [|done]. apply list_elem_of_In, in_flat_map.
    exists c. split; [done|]. right. by apply list_elem_of_In.
Qed.

Lemma decompose_all_clean (p : Node → bool) (n d : Node) :
  shallow p → d ∈ descendants (decompose_all p n) → p d = false.
Proof.
  intros Hp (d0 & _ & Hd0 & ->)%decompose_all_descendants.
  by rewrite shallow_decompose_all.
Qed.

Lemma head_decomposed_shallow (tag_type : str) : shallow (head_decomposed tag_type).
Proof. done. Qed.

Lemma removed_from_head_shallow : shallow removed_from_head.
Proof. done. Qed.

Lemma shared_script_shallow (common : gset str) : shallow (shared_script common).
Proof. done. Qed.

Lemma named_shallow (names : list str) : shallow (named names).
Proof. done. Qed.

Lemma head_types_shallow (types : list str) :
  shallow (λ c, existsb (λ t, head_decomposed t c) types).
Proof.
  intros name attrs cs cs'. induction types as [|t types IH]; [done|].
  simpl. by rewrite IH.
Qed.

Lemma decompose_types_fused (types : list str) (n : Node) :
  decompose_types types n
  = decompose_all (λ c, existsb (λ t, head_decomposed t c) types) n.
Proof.
  unfold decompose_types. revert n.
  induction types as [|t types IH]; intros n; simpl.
  - by rewrite decompose_all_none.
  - rewrite IH, decompose_all_fuse; [done|apply head_types_shallow].
Qed.

Lemma removed_from_head_types (c : Node) :
  existsb (λ t, head_decomposed t c) HEAD_TAG_TYPES = removed_from_head c.
Proof.
  unfold removed_from_head, HEAD_TAG_TYPES, head_decomposed, named.
  destruct (is_elem c); [|done]. cbn [existsb andb].
  rewrite (bool_decide_eq_true_2 (lit "link" = lit "link")) by done.
  rewrite (bool_decide_eq_false_2 (lit "title" = lit "link")) by done.
  rewrite (bool_decide_eq_false_2 (lit "meta" = lit "link")) by done.
  rewrite (bool_decide_eq_false_2 (lit "style" = lit "link")) by done.
  rewrite (bool_decide_eq_false_2 (lit "script" = lit "link")) by done.
  generalize (tag_name c) (stylesheet_link c). intros n b.
  rewrite !andb_true_r, orb_false_r.
  destruct (decide (n = lit "title")) as [->|H1]; [by destruct b|].
  destruct (decide (n = lit "meta")) as [->|H2]; [by destruct b|].
  destruct (decide (n = lit "style")) as [->|H3]; [by destruct b|].
  destruct (decide (n = lit "script")) as [->|H4]; [by destruct b|].
  rewrite (bool_decide_eq_false_2 (n ∈ [lit "title"])) by set_solver.
  rewrite (bool_decide_eq_false_2 (n ∈ [lit "meta"])) by set_solver.
  rewrite (bool_decide_eq_false_2 (n ∈ [lit "style"])) by set_solver.
  rewrite (bool_decide_eq_false_2 (n ∈ [lit "script"])) by set_solver.
  rewrite (bool_decide_eq_false_2 (n ∈ [_; _; _; _])) by set_solver.
  simpl. by rewrite orb_false_r.
Qed.

Lemma find_all_decompose_all (p : Node → bool) (name : str) (n d : Node) :
  d ∈ find_all name (decompose_all p n) →
  ∃ d0, d0 ∈ find_all name n ∧ d = decompose_all p d0.
Proof.
  unfold find_all. intros [Hd Hn]%list_elem_of_In%filter_In.
  apply list_elem_of_In, decompose_all_descendants in Hd as (d0 & Hd0 & _ & ->).
  exists d0. split; [|done]. apply list_elem_of_In, filter_In.
  split; [by apply list_elem_of_In|].
  by rewrite (shallow_decompose_all _ _ _ (named_shallow [name])) in Hn.
Qed.

Section page_rewrite_more.
Context `{Bs4, PyJson}.

(** X13.  The head of a rewritten page.  The rewriting ends without an
    exception when no link of the head holds a link.  When it ends, the head
    keeps its name and attributes; its children are the nodes of the parsed
    include of [title-meta.html], then the children of the old head that are
    neither a title, meta, style or script nor a stylesheet link, in their
    order, then the nodes of the parsed include of [head-css.html]; nothing
    below the old children that are kept is a tag of the kinds removed; and
    for a page without a residual title the first include has no
    parameters. *)
Theorem rewrite_head_result (page_title : str) (head : Node) :
  is_elem head = true →
  ((∀ l, l ∈ find_all (lit "link") head → find_all (lit "link") l = []) →
   ∃ head', rewrite_head page_title head = Ok head') ∧
  ∀ head', rewrite_head page_title head = Ok head' →
    let kept := decompose_all removed_from_head
                  <$> List.filter (λ c, negb (removed_from_head c)) (contents head) in
    tag_name head' = tag_name head ∧ tag_attrs head' = tag_attrs head ∧
    contents head'
      = contents (html_parser (title_meta_include page_title)) ++ kept
        ++ contents (html_parser (lit "@@include('./partials/head-css.html')")) ∧
    (∀ k d, k ∈ kept → d = k ∨ d ∈ descendants k → removed_from_head d = false) ∧
    (page_title = [] →
     title_meta_include page_title
       = create_include_statement (lit "title-meta.html")).
Proof.
  intros He. split.
  - intros Hvoid. unfold rewrite_head.
    assert (cleared_link (decompose_types [lit "title"; lit "meta"] head) = false)
      as ->; [|by eexists].
    rewrite decompose_types_fused. unfold cleared_link.
    apply not_true_is_false. intros Hex.
    apply existsb_exists in Hex as (l & Hl & Hnest).
    apply andb_true_iff in Hnest as [_ Hnest].
    apply list_elem_of_In, find_all_decompose_all in Hl as (l0 & Hl0 & ->).
    destruct (find_all (lit "link") (decompose_all _ l0)) as [|d ds] eqn:Hd;
      [done|].
    assert (d ∈ find_all (lit "link") (decompose_all
              (λ c, existsb (λ t, head_decomposed t c) [lit "title"; lit "meta"])
              l0)) as Hin by (rewrite Hd; left).
    apply find_all_decompose_all in Hin as (d0 & Hd0 & _).
    rewrite (Hvoid l0 Hl0) in Hd0. by apply elem_of_nil in Hd0.
  - intros head' Hr kept. unfold rewrite_head in Hr.
    destruct (cleared_link _); [done|]. injection Hr as <-.
    assert (decompose_all (head_decomposed (lit "script"))
              (decompose_all (head_decomposed (lit "style"))
                 (decompose_all (head_decomposed (lit "link"))
                    (decompose_all (head_decomposed (lit "meta"))
                       (decompose_all (head_decomposed (lit "title")) head))))
            = decompose_all removed_from_head head) as ->.
    { transitivity (decompose_types HEAD_TAG_TYPES head); [done|].
      rewrite decompose_types_fused.
      apply decompose_all_ext, removed_from_head_types. }
    destruct head as [name attrs children|s|s]; [|done..].
    split; [done|]. split; [done|]. split; [|split].
    + cbn [decompose_all insert_first append_child contents].
      pose proof (decompose_all_contents removed_from_head
                    (Elem name attrs children)) as Hc.
      cbn [decompose_all contents] in Hc. by rewrite Hc, <- app_assoc.
    + intros k d Hk Hd. subst kept.
      apply list_elem_of_fmap in Hk as (c & -> & Hc).
      apply list_elem_of_In, filter_In in Hc as [_ Hc].
      apply negb_true_iff in Hc. destruct Hd as [->|Hd].
      * by rewrite (shallow_decompose_all _ _ _ removed_from_head_shallow).
      * by apply (decompose_all_clean _ _ _ removed_from_head_shallow) in Hd.
    + by intros ->.
Qed.

Lemma shared_script_empty (tag : Node) : shared_script ∅ tag = false.
Proof.
  unfold shared_script. destruct (named _ tag); [|done]. simpl.
  by destruct (tag_get _ tag) as [[src|l]|].
Qed.

(** X14.  The end of the body of a rewritten page.  The rewriting ends
    without an exception when the source of every body script that has one
    is a string and no such script holds another.  When it ends, the body
    keeps its name and attributes; its children are the old children that
    are not scripts with a shared source, in their order, followed by the
    nodes of the parsed include of [footer-scripts.html]; no script with a
    shared source is left among or below the old children; and when no
    source is shared the old children are all there, unchanged. *)
Theorem rewrite_body_result (common_js_srcs : gset str) (body : Node) :
  is_elem body = true →
  (Forall (λ s, is_Some (src_of s)) (scripts_with_src body) →
   (∀ s, s ∈ scripts_with_src body → scripts_with_src s = []) →
   ∃ body', rewrite_body common_js_srcs body = Ok body') ∧
  ∀ body', rewrite_body common_js_srcs body = Ok body' →
    let shared := shared_script common_js_srcs in
    let kept := decompose_all shared
                  <$> List.filter (λ c, negb (shared c)) (contents body) in
    tag_name body' = tag_name body ∧ tag_attrs body' = tag_attrs body ∧
    contents body'
      = kept
        ++ contents (html_parser (lit "@@include('./partials/footer-scripts.html')")) ∧
    (∀ k d src, k ∈ kept → d = k ∨ d ∈ descendants k →
       named [lit "script"] d = true → src_of d = Some src →
       src ∉ common_js_srcs) ∧
    (common_js_srcs = ∅ → kept = contents body).
Proof.
  intros He. split.
  - intros Hstr Hvoid. unfold rewrite_body.
    assert (forallb src_is_str (scripts_with_src body) = true) as ->.
    { apply forallb_forall. intros s Hs%list_elem_of_In.
      rewrite Forall_forall in Hstr. destruct (Hstr s Hs) as [src Hsrc].
      unfold src_of in Hsrc. unfold src_is_str.
      by destruct (tag_get _ s) as [[?|?]|]. }
    assert (cleared_script common_js_srcs body = false) as ->; [|by eexists].
    unfold cleared_script. apply not_true_is_false. intros Hex.
    apply existsb_exists in Hex as (s & Hs & Hnest).
    apply andb_true_iff in Hnest as [_ Hnest].
    by rewrite (Hvoid s (proj2 (list_elem_of_In _ _) Hs)) in Hnest.
  - intros body' Hr shared kept. unfold rewrite_body in Hr.
    destruct (_ && _); [|done]. injection Hr as <-.
    destruct body as [name attrs children|s|s]; [|done..].
    split; [done|]. split; [done|]. split; [|split].
    + cbn [decompose_all append_child contents].
      pose proof (decompose_all_contents (shared_script common_js_srcs)
                    (Elem name attrs children)) as Hc.
      cbn [decompose_all contents] in Hc. by rewrite Hc.
    + intros k d src Hk Hd Hn Hsrc Hin.
      assert (shared d = false) as Hsh.
      { subst kept. apply list_elem_of_fmap in Hk as (c & -> & Hc).
        apply list_elem_of_In, filter_In in Hc as [_ Hc].
        apply negb_true_iff in Hc. destruct Hd as [->|Hd].
        - by rewrite (shallow_decompose_all _ _ _
                        (shared_script_shallow common_js_srcs)).
        - by apply (decompose_all_clean _ _ _
                      (shared_script_shallow common_js_srcs)) in Hd. }
      unfold shared, shared_script in Hsh. rewrite Hn in Hsh.
      unfold src_of in Hsrc.
      destruct (tag_get _ d) as [[src'|l]|]; simplify_eq/=.
      by apply bool_decide_eq_false in Hsh.
    + intros ->. subst kept shared. simpl.
      rewrite (filter_all (λ c, negb (shared_script ∅ c))).
      2: { apply Forall_forall. intros c _. by rewrite shared_script_empty. }
      rewrite <- (list_fmap_id children) at 2. apply list_fmap_ext.
      intros i c _. rewrite <- (decompose_all_none c) at 2.
      apply decompose_all_ext, shared_script_empty.
Qed.
End page_rewrite_more.

(** ** The shared head and footer of any corpus *)

Lemma elem_of_foldl_intersection (s : gset str) (rest : list (gset str)) (k : str) :
  k ∈ foldl (∩) s rest ↔ k ∈ s ∧ ∀ t, t ∈ rest → k ∈ t.
Proof.
  revert s. induction rest as [|t rest IH]; intros s; simpl.
  - split; [|by intros [? _]]. intros Hk. split; [done|].
    by intros t ?%elem_of_nil.
  - rewrite IH, elem_of_intersection. split.
    + intros [[Hs Ht] Hrest]. split; [done|].
      intros t' [->|Hin]%elem_of_cons; [done|by apply Hrest].
    + intros [Hs Hall]. split; [split; [done|apply Hall; left]|].
      intros t' Hin. apply Hall. by right.
Qed.

Lemma elem_of_intersection_all (sets : list (gset str)) (k : str) :
  k ∈ intersection_all sets ↔ sets ≠ [] ∧ ∀ s, s ∈ sets → k ∈ s.
Proof.
  destruct sets as [|s rest]; simpl.
  - split; [by intros ?%elem_of_empty|by intros [? _]].
  - rewrite elem_of_foldl_intersection. split.
    + intros [Hs Hall]. split; [done|].
      intros t [->|Hin]%elem_of_cons; [done|by apply Hall].
    + intros [_ Hall]. split; [apply Hall; left|].
      intros t Hin. apply Hall. by right.
Qed.

Section any_corpus.
Context `{PyText, Bs4}.

Lemma heads_of_cons (soup : Node) (soups : list Node) :
  heads_of (soup :: soups)
  = match soup_head soup with
    | Some h => h :: heads_of soups
    | None => heads_of soups
    end.
Proof. done. Qed.

Lemma head_fold_any (soups : list Node) (acc : HeadAcc) :
  head_fold_ok acc (foldl head_step acc soups) (heads_of soups).
Proof.
  revert acc. induction soups as [|soup soups IH]; intros acc.
  - simpl. split; rewrite ?app_nil_r; try done.
    all: intros k [Hk|(h & Hh%elem_of_nil & _)]; done.
  - cbn [foldl]. rewrite heads_of_cons. unfold head_step at 2.
    destruct (soup_head soup) as [head|] eqn:Hhead; [|apply IH].
    match goal with |- head_fold_ok _ (foldl _ ?a _) _ =>
      destruct (IH a) as [Ht Hm Hl Hs Hh Hrm Hrl Hrs Hrh] end.
    cbn [titles meta_sets link_sets style_sets head_script_sets
         rep_meta rep_link rep_style rep_script] in *.
    assert (Hrep : ∀ (name : str) (rep rep' : gmap str str) (k : str),
              (∀ k, rep_update (find_all name head) rep !! k = Some k
                    ∨ (∃ h, h ∈ heads_of soups ∧ k ∈ str_of <$> find_all name h)
                    → rep' !! k = Some k) →
              rep !! k = Some k
              ∨ (∃ h, h ∈ head :: heads_of soups ∧ k ∈ str_of <$> find_all name h) →
              rep' !! k = Some k).
    { intros name rep rep' k Hstep [Hk|(h & [->|Hin]%elem_of_cons & Hk)].
      - apply Hstep. left. apply rep_update_lookup. by left.
      - apply Hstep. left. apply rep_update_lookup. by right.
      - apply Hstep. right. by exists h. }
    split; cbn [fmap list_fmap];
      rewrite ?Ht, ?Hm, ?Hl, ?Hs, ?Hh, <- ?app_assoc; try done.
    + intros k. by apply Hrep.
    + intros k. by apply Hrep.
    + intros k. by apply Hrep.
    + intros k. by apply Hrep.
Qed.

Lemma shared_in_intersection (kept : Node → bool) (name : str) (hs : list Node)
    (line : str) :
  line ∈ intersection_all ((λ h, str_set kept (find_all name h)) <$> hs)
  ↔ shared_in kept name hs line.
Proof.
  rewrite elem_of_intersection_all. unfold shared_in. split.
  - intros [Hne Hall]. split; [by destruct hs|]. intros h Hh.
    destruct (proj1 (elem_of_str_set kept (find_all name h) line))
      as (m & Hm & Hk & ->); [|by exists m].
    apply Hall, list_elem_of_fmap. by exists h.
  - intros [Hne Hall]. split; [by destruct hs|].
    intros s (h & -> & Hh)%list_elem_of_fmap.
    destruct (Hall h Hh) as (m & Hm & Hk & <-).
    apply elem_of_str_set. by exists m.
Qed.

Lemma rep_lines_shared (kept : Node → bool) (name : str) (hs : list Node)
    (rep : gmap str str) :
  (∀ k, (∃ h, h ∈ hs ∧ k ∈ str_of <$> find_all name h) → rep !! k = Some k) →
  let common := intersection_all ((λ h, str_set kept (find_all name h)) <$> hs) in
  rep_lines rep common = Some (sorted (elements common)).
Proof.
  intros Hrep common. apply rep_lines_same. intros k Hk.
  apply shared_in_intersection in Hk as [Hne Hall].
  destruct hs as [|h hs]; [done|].
  destruct (Hall h) as (m & Hm & _ & <-); [left|].
  apply Hrep. exists h. split; [left|]. apply list_elem_of_fmap. by exists m.
Qed.

Lemma bodies_of_cons (soup : Node) (soups : list Node) :
  bodies_of (soup :: soups)
  = match soup_body soup with
    | Some b => b :: bodies_of soups
    | None => bodies_of soups
    end.
Proof. done. Qed.

Lemma footer_scripts_loop_Some (scripts : list Node) (srcs srcs' : gset str)
    (rep rep' : gmap str str) :
  footer_scripts_loop scripts srcs rep = Some (srcs', rep') →
  Forall (λ s, is_Some (src_of s)) scripts.
Proof.
  revert srcs rep. induction scripts as [|s scripts IH]; intros srcs rep; simpl;
    [by constructor|].
  destruct (tag_get (lit "src") s) as [[src|l]|] eqn:Hget; [|done..].
  intros Hl%IH. apply Forall_cons. split; [|done].
  unfold src_of. rewrite Hget. by eexists.
Qed.

(** The footer pass over any documents: one set of sources for every body,
    and a dict that maps every source met to the markup of a script that
    has it. *)
Lemma footer_loop_any (all : list Node) (soups : list Node)
    (sets sets' : list (gset str)) (rep rep' : gmap str str) :
  (∀ b s, b ∈ bodies_of soups → s ∈ scripts_with_src b → s ∈ all) →
  footer_rep_ok all (⋃ sets) rep →
  footer_loop soups sets rep = Some (sets', rep') →
  sets' = sets ++ (srcs_of_body <$> bodies_of soups) ∧
  footer_rep_ok all (⋃ sets') rep'.
Proof.
  revert sets rep. induction soups as [|soup soups IH]; intros sets rep Hall Hok;
    cbn [footer_loop].
  - intros [= <- <-]. by rewrite app_nil_r.
  - rewrite bodies_of_cons in Hall |- *.
    destruct (soup_body soup) as [body|] eqn:Hbody; [|by apply IH].
    destruct (footer_scripts_loop _ _ _) as [[srcs rep1]|] eqn:Hloop; [|done].
    pose proof (footer_scripts_loop_Some _ _ _ _ _ Hloop) as Hsrc.
    destruct (footer_scripts_loop_spec all (scripts_with_src body) ∅ rep Hsrc)
      as (srcs0 & rep0 & Hloop' & Hsrcs & Hok1 & Hkeep).
    { intros s Hs. apply (Hall body); [left|done]. }
    { by intros ? ?%elem_of_empty. }
    rewrite Hloop in Hloop'. injection Hloop' as <- <-.
    rewrite (right_id_L ∅ (∪)) in Hsrcs. fold (srcs_of_body body) in Hsrcs.
    subst srcs. intros Hrest. apply IH in Hrest as [-> Hok'].
    + split; [rewrite <- app_assoc; reflexivity|done].
    + intros b s Hb. apply Hall. by right.
    + rewrite union_list_app_L. simpl. rewrite (right_id_L ∅ (∪)).
      apply footer_rep_ok_union; [|done].
      apply footer_rep_ok_single. intros src Hsrc'. apply Hkeep.
      intros src0 ->%elem_of_singleton. by apply Hok.
Qed.

Lemma footer_loop_total (soups : list Node) (sets : list (gset str))
    (rep : gmap str str) :
  (∀ b s, b ∈ bodies_of soups → s ∈ scripts_with_src b → is_Some (src_of s)) →
  is_Some (footer_loop soups sets rep).
Proof.
  revert sets rep. induction soups as [|soup soups IH]; intros sets rep Hall;
    cbn [footer_loop]; [done|].
  rewrite bodies_of_cons in Hall.
  destruct (soup_body soup) as [body|] eqn:Hbody; [|by apply IH].
  destruct (footer_scripts_loop_spec (scripts_with_src body)
              (scripts_with_src body) ∅ rep)
    as (srcs0 & rep0 & -> & _); [..|apply IH].
  - apply Forall_forall. intros s Hs. apply (Hall body); [left|done].
  - done.
  - by intros ? ?%elem_of_empty.
  - intros b s Hb. apply Hall. by right.
Qed.

Lemma elem_of_srcs_of_body (body : Node) (src : str) :
  src ∈ srcs_of_body body ↔
  ∃ s, s ∈ scripts_with_src body ∧ src_of s = Some src.
Proof. unfold srcs_of_body. by rewrite elem_of_list_to_set, list_elem_of_omap. Qed.

Lemma intersection_all_subseteq (sets : list (gset str)) :
  intersection_all sets ⊆ ⋃ sets.
Proof.
  intros k [Hne Hall]%elem_of_intersection_all.
  destruct sets as [|s sets]; [done|]. simpl.
  apply elem_of_union_l, Hall. left.
Qed.

(** What [_extract_common_head_and_footer] returns, with the two loops
    summarized. *)
Lemma extract_unfold (corpus : list (Path * Node)) (fr : Fragments) :
  _extract_common_head_and_footer corpus = Some fr →
  let hs := heads_of corpus.*2 in
  let bs := bodies_of corpus.*2 in
  let common kept name :=
    intersection_all ((λ h, str_set kept (find_all name h)) <$> hs) in
  let suffix := _longest_common_suffix (head_title <$> hs) in
  ∃ rep lines,
    footer_rep_ok (flat_map scripts_with_src bs)
      (intersection_all (srcs_of_body <$> bs)) rep ∧
    rep_lines rep (intersection_all (srcs_of_body <$> bs)) = Some lines ∧
    fr = {| title_meta :=
              [title_line suffix]
              ++ sorted (elements (common meta_kept (lit "meta")))
              ++ sorted (elements (common link_kept (lit "link")));
            head_css :=
              stylesheet_lines corpus
              ++ sorted (elements (common (λ _, true) (lit "style")))
              ++ sorted (elements (common head_script_kept (lit "script")));
            footer_scripts := lines;
            page_titles := page_titles_of corpus.*1 (head_title <$> hs) suffix;
            common_js_srcs := intersection_all (srcs_of_body <$> bs) |}.
Proof.
  intros Hfr hs bs common suffix.
  unfold _extract_common_head_and_footer in Hfr. cbv zeta in Hfr.
  destruct (head_fold_any corpus.*2 head_acc0)
    as [Ht Hm Hl Hs Hh Hrm Hrl Hrs Hrh].
  cbn [titles meta_sets link_sets style_sets head_script_sets head_acc0 app]
    in Ht, Hm, Hl, Hs, Hh.
  rewrite Ht, Hm, Hl, Hs, Hh in Hfr. fold hs in Hfr.
  rewrite (rep_lines_shared meta_kept (lit "meta") hs) in Hfr
    by (intros k Hk; apply Hrm; by right).
  rewrite (rep_lines_shared link_kept (lit "link") hs) in Hfr
    by (intros k Hk; apply Hrl; by right).
  rewrite (rep_lines_shared (λ _, true) (lit "style") hs) in Hfr
    by (intros k Hk; apply Hrs; by right).
  rewrite (rep_lines_shared head_script_kept (lit "script") hs) in Hfr
    by (intros k Hk; apply Hrh; by right).
  cbn [mbind option_bind] in Hfr.
  destruct (footer_loop corpus.*2 [] ∅) as [[sets rep]|] eqn:Hloop; [|done].
  apply (footer_loop_any (flat_map scripts_with_src bs)) in Hloop as [-> Hok].
  2: { intros b s Hb Hs'. apply list_elem_of_In, in_flat_map. exists b.
       by rewrite <- !list_elem_of_In. }
  2: { intros src Hsrc. simpl in Hsrc. by apply elem_of_empty in Hsrc. }
  cbn [mbind option_bind app] in Hfr. fold bs in Hfr, Hok.
  destruct (rep_lines rep _) as [lines|] eqn:Hlines; [|done].
  cbn [mbind option_bind] in Hfr. injection Hfr as <-.
  exists rep, lines. split; [|done].
  intros src Hsrc. apply Hok. by apply intersection_all_subseteq.
Qed.

(** X15.  The two head fragments of any corpus.  The first line of
    [title-meta.html] is the title line; a line is in the file exactly when
    it is the title line, or the markup of a meta without a charset in every
    head, or the markup of a link other than a stylesheet in every head.  A
    line is in [head-css.html] exactly when it is a stylesheet link of the
    first document, or the markup of a style in every head, or the markup of
    a script with a source or an inline body in every head. *)
Theorem head_fragments_of_any_corpus (corpus : list (Path * Node))
    (fr : Fragments) :
  _extract_common_head_and_footer corpus = Some fr →
  let hs := heads_of corpus.*2 in
  let suffix := _longest_common_suffix (head_title <$> hs) in
  head (title_meta fr) = Some (title_line suffix) ∧
  (∀ line, line ∈ title_meta fr ↔
     line = title_line suffix ∨ shared_in meta_kept (lit "meta") hs line
     ∨ shared_in link_kept (lit "link") hs line) ∧
  (∀ line, line ∈ head_css fr ↔
     line ∈ stylesheet_lines corpus
     ∨ shared_in (λ _, true) (lit "style") hs line
     ∨ shared_in head_script_kept (lit "script") hs line).
Proof.
  intros Hfr hs suffix.
  apply extract_unfold in Hfr as (rep & lines & _ & _ & ->).
  cbn [title_meta head_css]. split; [done|]. split.
  - intros line. cbn [app]. rewrite elem_of_cons, elem_of_app.
    by rewrite !elem_of_sorted_elements, !shared_in_intersection.
  - intros line. rewrite !elem_of_app.
    by rewrite !elem_of_sorted_elements, !shared_in_intersection.
Qed.

(** X16.  The footer of any corpus.  A source is shared exactly when there
    is a body and every body holds a script with this source.  The file
    [footer-scripts.html] has one line for every shared source, and every
    line is the markup of a body script of some document that has this
    source. *)
Theorem footer_fragment_of_any_corpus (corpus : list (Path * Node))
    (fr : Fragments) :
  _extract_common_head_and_footer corpus = Some fr →
  let bs := bodies_of corpus.*2 in
  (∀ src, src ∈ common_js_srcs fr ↔
     bs ≠ [] ∧
     ∀ b, b ∈ bs → ∃ s, s ∈ scripts_with_src b ∧ src_of s = Some src) ∧
  length (footer_scripts fr) = size (common_js_srcs fr) ∧
  (∀ src, src ∈ common_js_srcs fr →
     ∃ b s, b ∈ bs ∧ s ∈ scripts_with_src b ∧ src_of s = Some src ∧
            str_of s ∈ footer_scripts fr) ∧
  (∀ line, line ∈ footer_scripts fr →
     ∃ src b s, src ∈ common_js_srcs fr ∧ b ∈ bs ∧ s ∈ scripts_with_src b ∧
                src_of s = Some src ∧ line = str_of s).
Proof.
  intros Hfr bs.
  apply extract_unfold in Hfr as (rep & lines & Hok & Hlines & ->).
  cbn [footer_scripts common_js_srcs]. subst bs.
  set (bs := bodies_of corpus.*2) in *. clearbody bs.
  assert (∀ s, s ∈ flat_map scripts_with_src bs →
               ∃ b, b ∈ bs ∧ s ∈ scripts_with_src b) as Hflat.
  { intros s (b & Hb & Hs)%list_elem_of_In%in_flat_map.
    exists b. by rewrite !list_elem_of_In. }
  split; [|split; [|split]].
  - intros src. rewrite elem_of_intersection_all. split.
    + intros [Hne Hall]. split; [intros Hbs; apply Hne; by rewrite Hbs|].
      intros b Hb.
      apply elem_of_srcs_of_body, Hall, list_elem_of_fmap. by exists b.
    + intros [Hne Hall]. split; [by intros Hnil%fmap_nil_inv|].
      intros X (b & -> & Hb)%list_elem_of_fmap.
      by apply elem_of_srcs_of_body, Hall.
  - unfold rep_lines in Hlines. apply length_mapM in Hlines.
    rewrite <- Hlines, sorted_Permutation. done.
  - intros src Hsrc.
    destruct (rep_lines_footer _ _ _ Hok) as (lines' & Hl' & Hin).
    rewrite Hlines in Hl'. injection Hl' as <-.
    destruct (Hin src Hsrc) as (s & Hs & Hsrc' & Hline).
    destruct (Hflat s Hs) as (b & Hb & Hsb). by exists b, s.
  - intros line Hline. unfold rep_lines in Hlines.
    apply mapM_Some_1 in Hlines.
    apply list_elem_of_lookup in Hline as [i Hi].
    destruct (Forall2_lookup_r _ _ _ _ _ Hlines Hi) as (src & Hsrc & Hrep).
    apply list_elem_of_lookup_2, elem_of_sorted_elements in Hsrc.
    destruct (Hok src Hsrc) as (s & Hs & Hsrc' & Hrep').
    rewrite Hrep' in Hrep. injection Hrep as <-.
    destruct (Hflat s Hs) as (b & Hb & Hsb). by exists src, b, s.
Qed.

(** X17.  [_extract_common_head_and_footer] ends without an exception
    exactly when the source of every body script that has one is a string:
    the lookups in the dicts of representatives never fail, and the one
    statement that can raise is [srcs.add(s.get("src"))] for a list. *)
Theorem head_and_footer_raises_iff (corpus : list (Path * Node)) :
  is_Some (_extract_common_head_and_footer corpus) ↔
  ∀ b s, b ∈ bodies_of corpus.*2 → s ∈ scripts_with_src b →
         is_Some (src_of s).
Proof.
  split.
  - intros [fr Hfr] b s Hb Hs.
    unfold _extract_common_head_and_footer in Hfr. cbv zeta in Hfr.
    destruct (rep_lines (rep_meta _) _); [|done].
    destruct (rep_lines (rep_link _) _); [|done].
    destruct (rep_lines (rep_style _) _); [|done].
    destruct (rep_lines (rep_script _) _); [|done].
    cbn [mbind option_bind] in Hfr.
    destruct (footer_loop corpus.*2 [] ∅) as [[sets rep]|] eqn:Hloop; [|done].
    clear Hfr. revert Hloop Hb. generalize (@nil (gset str)) (∅ : gmap str str).
    induction corpus.*2 as [|soup soups IH]; intros sets0 rep0;
      cbn [footer_loop].
    + by intros _ ?%elem_of_nil.
    + rewrite bodies_of_cons.
      destruct (soup_body soup) as [body|]; [|apply IH].
      destruct (footer_scripts_loop _ _ _) as [[srcs rep1]|] eqn:Hl; [|done].
      intros Hrest [->|Hb]%elem_of_cons; [|by eapply IH].
      apply footer_scripts_loop_Some in Hl. rewrite Forall_forall in Hl.
      by apply Hl.
  - intros Hall. unfold _extract_common_head_and_footer. cbv zeta.
    destruct (head_fold_any corpus.*2 head_acc0)
      as [Ht Hm Hl Hs Hh Hrm Hrl Hrs Hrh].
    cbn [titles meta_sets link_sets style_sets head_script_sets head_acc0 app]
      in Ht, Hm, Hl, Hs, Hh.
    rewrite Ht, Hm, Hl, Hs, Hh.
    rewrite (rep_lines_shared meta_kept (lit "meta"))
      by (intros k Hk; apply Hrm; by right).
    rewrite (rep_lines_shared link_kept (lit "link"))
      by (intros k Hk; apply Hrl; by right).
    rewrite (rep_lines_shared (λ _, true) (lit "style"))
      by (intros k Hk; apply Hrs; by right).
    rewrite (rep_lines_shared head_script_kept (lit "script"))
      by (intros k Hk; apply Hrh; by right).
    cbn [mbind option_bind].
    destruct (footer_loop_total corpus.*2 [] ∅ Hall) as [[sets rep] Hloop].
    rewrite Hloop. cbn [mbind option_bind].
    apply (footer_loop_any (flat_map scripts_with_src (bodies_of corpus.*2)))
      in Hloop as [-> Hok].
    2: { intros b s Hb Hs'. apply list_elem_of_In, in_flat_map. exists b.
         by rewrite <- !list_elem_of_In. }
    2: { intros src Hsrc. simpl in Hsrc. by apply elem_of_empty in Hsrc. }
    cbn [app] in *.
    destruct (rep_lines_footer (flat_map scripts_with_src (bodies_of corpus.*2))
                (intersection_all (srcs_of_body <$> bodies_of corpus.*2)) rep)
      as (lines & -> & _); [|by eexists].
    intros src Hsrc. apply Hok. by apply intersection_all_subseteq.
Qed.
End any_corpus.

(** ** The residual titles of the pages *)

Lemma foldl_insert_absent (f : str → str) (l : list (Path * str))
    (d : gmap Path str) (p : Path) :
  p ∉ l.*1 → foldl (λ d pt, <[pt.1 := f pt.2]> d) d l !! p = d !! p.
Proof.
  revert d. induction l as [|[p0 t0] l IH]; intros d; simpl; [done|].
  intros [Hne Hp]%not_elem_of_cons. rewrite IH by done.
  by rewrite lookup_insert_ne.
Qed.

Lemma foldl_insert_lookup (f : str → str) (l : list (Path * str))
    (d : gmap Path str) (p : Path) (t : str) :
  NoDup l.*1 → (p, t) ∈ l →
  foldl (λ d pt, <[pt.1 := f pt.2]> d) d l !! p = Some (f t).
Proof.
  revert d. induction l as [|[p0 t0] l IH]; intros d; simpl;
    [by intros _ ?%elem_of_nil|].
  intros [Hp0 Hnd]%NoDup_cons [[= -> ->]|Hin]%elem_of_cons.
  - rewrite foldl_insert_absent by done. apply lookup_insert_eq.
  - by apply IH.
Qed.

Lemma foldl_insert_dom (f : str → str) (l : list (Path * str))
    (d : gmap Path str) :
  dom (foldl (λ d pt, <[pt.1 := f pt.2]> d) d l) = list_to_set l.*1 ∪ dom d.
Proof.
  revert d. induction l as [|[p0 t0] l IH]; intros d; simpl; [set_solver|].
  rewrite IH, dom_insert_L. set_solver.
Qed.

Lemma heads_of_all (soups : list Node) :
  Forall (λ soup, is_Some (soup_head soup)) soups →
  Forall2 (λ soup h, soup_head soup = Some h) soups (heads_of soups).
Proof.
  induction 1 as [|soup soups [h Hh] _ IH]; [constructor|].
  rewrite heads_of_cons, Hh. by constructor.
Qed.

Section titles_of_pages.
Context `{PyText, Bs4}.

(** X18.  The residual titles of a corpus in which every document has a
    head, as html5lib gives it, and no path comes twice: [page_titles] has an
    entry for every path and no other, and the entry of a page is the title
    of its own head without the shared suffix. *)
Theorem page_titles_of_any_corpus (corpus : list (Path * Node))
    (fr : Fragments) :
  _extract_common_head_and_footer corpus = Some fr →
  Forall (λ soup, is_Some (soup_head soup)) corpus.*2 →
  NoDup corpus.*1 →
  let suffix := _longest_common_suffix (head_title <$> heads_of corpus.*2) in
  dom (page_titles fr) = list_to_set corpus.*1 ∧
  ∀ p soup h, (p, soup) ∈ corpus → soup_head soup = Some h →
    page_titles fr !! p = Some (residual_title suffix (head_title h)).
Proof.
  intros Hfr Hheads Hnd suffix.
  apply extract_unfold in Hfr as (rep & lines & _ & _ & ->).
  cbn [page_titles]. fold suffix. unfold page_titles_of.
  apply heads_of_all in Hheads.
  assert (length corpus.*1 = length (head_title <$> heads_of corpus.*2)) as Hlen.
  { apply Forall2_length in Hheads. by rewrite !length_fmap in *. }
  assert ((zip corpus.*1 (head_title <$> heads_of corpus.*2)).*1 = corpus.*1)
    as Hfst by (apply fst_zip; lia).
  split.
  - rewrite foldl_insert_dom, Hfst. set_solver.
  - intros p soup h Hin Hh. apply foldl_insert_lookup; [by rewrite Hfst|].
    apply list_elem_of_lookup in Hin as [i Hi].
    apply (list_elem_of_lookup_2 _ i), lookup_zip_with_Some.
    exists p, (head_title h). split; [done|].
    split; [by rewrite list_lookup_fmap, Hi|].
    assert (corpus.*2 !! i = Some soup) as Hsoup
      by by rewrite list_lookup_fmap, Hi.
    destruct (Forall2_lookup_l _ _ _ _ _ Hheads Hsoup) as (h' & Hh' & Heq).
    rewrite Hh in Heq. injection Heq as <-.
    by rewrite list_lookup_fmap, Hh'.
Qed.
End titles_of_pages.

(** ** More on [_mine_and_tag_candidates] *)

Lemma attrs_del_set (k : str) (v : AttrValue) (d : Attrs) :
  attrs_del k (attrs_set k v d) = attrs_del k d.
Proof.
  unfold attrs_set. destruct (has_attr k d).
  - unfold attrs_del. induction d as [|[k0 v0] d IH]; [reflexivity|].
    cbn [fmap list_fmap List.filter fst].
    destruct (bool_decide (k0 = k)) eqn:Hk; cbn [fst negb].
    + rewrite (bool_decide_eq_true_2 (k = k)) by done. cbn [negb]. apply IH.
    + rewrite Hk. cbn [negb]. f_equal. apply IH.
  - unfold attrs_del. rewrite List.filter_app. simpl.
    rewrite bool_decide_eq_true_2 by done. simpl. by rewrite app_nil_r.
Qed.

Lemma erase_markers_set_marker (key : str) (n : Node) :
  erase_markers (set_marker key n) = erase_markers n.
Proof. destruct n; [|done..]. simpl. by rewrite attrs_del_set. Qed.

Lemma erase_markers_update_at (p : place) (key : str) (n n' : Node) :
  update_at p (set_marker key) n = Some n' →
  erase_markers n' = erase_markers n.
Proof.
  revert n n'. induction p as [|i p IH]; intros n n'; simpl.
  - intros [= <-]. apply erase_markers_set_marker.
  - destruct n as [name attrs children|s|s]; [|done..].
    destruct (children !! i) as [c|] eqn:Hc; [|done].
    destruct (update_at p _ c) as [c'|] eqn:Hu; [|done]. intros [= <-]. simpl.
    f_equal. rewrite list_fmap_insert, (IH _ _ Hu).
    apply list_insert_id. by rewrite list_lookup_fmap, Hc.
Qed.

Section miner_more.
Context `{PyText, Bs4, Similarity, PySet}.

(** X19.  What the miner takes as a candidate: an element of the page,
    below the body when there is one, of at least [MIN_NODE_COUNT] nodes,
    that is a header, nav, footer or aside at any depth, or a div or section
    that is a child of the body. *)
Theorem candidates_are_large_components (soup : Node) (tag : place) (el : Node) :
  (tag, el) ∈ candidates_of soup →
  let body := body_or_soup soup in
  get_at tag soup = Some el ∧ is_elem el = true ∧
  MIN_NODE_COUNT ≤ _get_node_size el ∧
  (∃ q, tag = body.1 ++ q ∧ q ≠ []) ∧
  (tag_name el ∈ PRIORITY_TAGS ∨
   tag_name el ∈ [lit "div"; lit "section"] ∧ ∃ i, tag = body.1 ++ [i]).
Proof.
  intros Hin body. unfold candidates_of in Hin.
  pose proof (body_or_soup_valid soup) as Hbody. fold body in Hbody.
  destruct (body_or_soup soup) as [here b] eqn:Hb. subst body.
  cbn [fst snd] in *.
  apply elem_of_app in Hin as [Hin|Hin].
  - apply list_elem_of_In, in_flat_map in Hin as (name & Hname & Hin).
    apply filter_In in Hin as [Hin Hbig]. apply filter_In in Hin as [Hin Hn].
    apply list_elem_of_In, descendants_at_valid in Hin as (q & -> & Hq & Hget).
    unfold named in Hn. apply andb_true_iff in Hn as [He Hn]. simpl in *.
    apply bool_decide_eq_true, list_elem_of_singleton in Hn.
    split; [by rewrite (get_at_app _ _ _ _ Hbody)|]. split; [done|].
    split; [by apply Nat.leb_le|]. split; [by exists q|].
    left. rewrite Hn. by apply list_elem_of_In.
  - apply list_elem_of_In, filter_In in Hin as [Hin Hbig].
    apply filter_In in Hin as [Hin Hn].
    apply list_elem_of_In, list_elem_of_lookup in Hin as [i Hi].
    apply list_lookup_imap_Some in Hi as (c & Hc & [= -> ->]).
    unfold named in Hn. apply andb_true_iff in Hn as [He Hn]. simpl in *.
    apply bool_decide_eq_true in Hn.
    split; [rewrite (get_at_app _ _ _ _ Hbody); simpl; by rewrite Hc|].
    split; [done|]. split; [by apply Nat.leb_le|].
    split; [by exists [i]|]. right. split; [done|]. by exists i.
Qed.

Lemma tag_step_soups (html_path : Path) (st : MineState) (soup : Node)
    (tag : place) :
  soups (tag_step html_path st soup tag).1 = soups st ∧
  ∀ soup', (tag_step html_path st soup tag).2 = Some soup' →
           erase_markers soup' = erase_markers soup.
Proof.
  unfold tag_step. destruct (update_at _ _ _) as [soup1|] eqn:Hu; [|done].
  apply erase_markers_update_at in Hu.
  destruct (find _ _) as [tag_copy|]; [|done].
  destruct (_canonicalize _) as [canonical|]; simpl;
    (split; [done|by intros ? [= <-]]).
Qed.

Lemma tag_loop_soups (html_path : Path) (st : MineState) (soup : Node)
    (found : list place) :
  soups (tag_loop html_path st soup found).1 = soups st ∧
  ∀ soup', (tag_loop html_path st soup found).2 = Some soup' →
           erase_markers soup' = erase_markers soup.
Proof.
  revert st soup. induction found as [|tag rest IH]; intros st soup; simpl.
  - split; [done|by intros ? [= <-]].
  - destruct (tag_step_soups html_path st soup tag) as [Hs He].
    destruct (tag_step html_path st soup tag) as [st' [soup1|]]; simpl in *;
      [|done].
    destruct (IH st' soup1) as [Hs' He']. split; [congruence|].
    intros soup' Hl. rewrite (He' _ Hl). by apply He.
Qed.

(** X20.  Mining changes nothing in a page but the markers: the tree kept
    for a path is the tree of a page of the corpus with this path, up to the
    [data-refactor-id] attributes. *)
Theorem mining_changes_markers_only (corpus : list (Path * Node)) (p : Path)
    (soup' : Node) :
  soups (_mine_and_tag_candidates corpus) !! p = Some soup' →
  ∃ soup, (p, soup) ∈ corpus ∧ erase_markers soup' = erase_markers soup.
Proof.
  unfold _mine_and_tag_candidates.
  assert (∀ (rest done_pages : list (Path * Node)) st,
    (∀ p s', soups st !! p = Some s' →
       ∃ s, (p, s) ∈ done_pages ∧ erase_markers s' = erase_markers s) →
    ∀ p s', soups (foldl mine_page st rest) !! p = Some s' →
       ∃ s, (p, s) ∈ done_pages ++ rest ∧ erase_markers s' = erase_markers s)
    as Hfold.
  { induction rest as [|[path soup] rest IH]; intros done_pages st Hst; simpl.
    - by rewrite app_nil_r.
    - rewrite (cons_middle (path, soup)), app_assoc. apply IH.
      intros q s'. unfold mine_page.
      destruct (tag_loop_soups path st soup (set_iter (candidates_of soup)).*1)
        as [Hs He].
      destruct (tag_loop _ _ _ _) as [st' [soup1|]]; simpl in *.
      + destruct (decide (q = path)) as [->|Hne].
        * rewrite lookup_insert_eq. intros [= <-]. exists soup.
          split; [set_solver|by apply He].
        * rewrite lookup_insert_ne, Hs by done. intros Hq.
          destruct (Hst q s' Hq) as (s & Hin & Heq). exists s.
          split; [set_solver|done].
      + rewrite Hs. intros Hq. destruct (Hst q s' Hq) as (s & Hin & Heq).
        exists s. split; [set_solver|done]. }
  intros Hl. apply (Hfold corpus [] mine_state0) in Hl; [done|].
  intros q s'. simpl. by rewrite lookup_empty.
Qed.

Lemma tag_step_stored (paths : list Path) (html_path : Path) (st : MineState)
    (soup : Node) (tag : place) :
  html_path ∈ paths →
  map_Forall (stored_from paths) (items st) →
  map_Forall (stored_from paths) (items (tag_step html_path st soup tag).1).
Proof.
  intros Hp Hst. unfold tag_step.
  destruct (update_at _ _ _) as [soup1|] eqn:Hu; [|done].
  destruct (update_at_Some_get _ _ _ _ Hu) as [el Hel].
  rewrite (get_at_update_at _ _ _ _ Hu), Hel. simpl.
  destruct (find _ _) as [tag_copy|] eqn:Hfind; [|done].
  destruct (_canonicalize _) as [canonical|] eqn:Hcanon; simpl; [|done].
  apply map_Forall_insert_2; [|done].
  split; [done|]. exists el, tag_copy. simpl. split; [done|].
  split; [|done]. by destruct el.
Qed.

Lemma tag_loop_stored (paths : list Path) (html_path : Path) (st : MineState)
    (soup : Node) (found : list place) :
  html_path ∈ paths →
  map_Forall (stored_from paths) (items st) →
  map_Forall (stored_from paths) (items (tag_loop html_path st soup found).1).
Proof.
  intros Hp. revert st soup.
  induction found as [|tag rest IH]; intros st soup Hst; simpl; [done|].
  pose proof (tag_step_stored paths html_path st soup tag Hp Hst) as Hstep.
  destruct (tag_step html_path st soup tag) as [st' [soup1|]]; simpl in *;
    [by apply IH|done].
Qed.

Lemma mined_items_stored (corpus : list (Path * Node)) :
  map_Forall (stored_from corpus.*1) (items (_mine_and_tag_candidates corpus)).
Proof.
  unfold _mine_and_tag_candidates.
  assert (∀ (rest : list (Path * Node)) st,
    (∀ page, page ∈ rest → page.1 ∈ corpus.*1) →
    map_Forall (stored_from corpus.*1) (items st) →
    map_Forall (stored_from corpus.*1) (items (foldl mine_page st rest)))
    as Hfold.
  { induction rest as [|[path soup] rest IH]; intros st Hin Hst; simpl; [done|].
    apply IH; [intros page Hpage; apply Hin; by right|].
    unfold mine_page.
    pose proof (tag_loop_stored corpus.*1 path st soup
                  (set_iter (candidates_of soup)).*1) as Hloop.
    destruct (tag_loop _ _ _ _) as [st' [soup1|]]; simpl in *;
      apply Hloop; try done; apply (Hin (path, soup)); left. }
  apply Hfold; [|done].
  intros page Hpage. apply list_elem_of_fmap. by exists page.
Qed.

(** X21.  What is stored for a candidate: the path of a page of the corpus,
    the markup of an element that carries the key of the candidate as its
    marker, and the canonical form of a parsed copy of this markup from
    which the marker was removed, with the sketch of the shingles and the
    fingerprint of the element names of this canonical form. *)
Theorem stored_candidates (corpus : list (Path * Node)) (key : str)
    (c : Candidate) :
  items (_mine_and_tag_candidates corpus) !! key = Some c →
  html_path c ∈ corpus.*1 ∧
  ∃ el tag_copy,
    raw_tag_html c = str_of (set_marker key el) ∧
    find (tag_name el) (html5lib (raw_tag_html c)) = Some tag_copy ∧
    _canonicalize (strip_marker tag_copy) = Some (canonical_tag c) ∧
    mh c = minhash (shingles (canonical_tag c)) ∧
    simh c = simhash (simhash_tokens (canonical_tag c)).
Proof. intros Hl. by apply (mined_items_stored corpus) in Hl. Qed.

(** The index after mining answers with stored keys, when an index answers
    with inserted keys only. *)
Lemma tag_step_index (html_path : Path) (st : MineState) (soup : Node)
    (tag : place) :
  (∀ index key m q nk, nk ∈ lsh_query (lsh_insert key m index) q →
                       nk = key ∨ nk ∈ lsh_query index q) →
  (∀ q nk, nk ∈ lsh_query (lsh st) q → nk ∈ dom (items st)) →
  let st' := (tag_step html_path st soup tag).1 in
  ∀ q nk, nk ∈ lsh_query (lsh st') q → nk ∈ dom (items st').
Proof.
  intros Hins Hst. unfold tag_step.
  destruct (update_at _ _ _) as [soup1|]; [|done].
  destruct (find _ _) as [tag_copy|]; [|done].
  destruct (_canonicalize _) as [canonical|]; simpl; [|done].
  intros q nk [->|Hq]%Hins; rewrite dom_insert_L; [set_solver|].
  apply elem_of_union_r. by eapply Hst.
Qed.

Lemma mined_index_stored (corpus : list (Path * Node)) :
  (∀ q, lsh_query lsh_empty q = []) →
  (∀ index key m q nk, nk ∈ lsh_query (lsh_insert key m index) q →
                       nk = key ∨ nk ∈ lsh_query index q) →
  let st := _mine_and_tag_candidates corpus in
  ∀ q nk, nk ∈ lsh_query (lsh st) q → nk ∈ dom (items st).
Proof.
  intros Hempty Hins. unfold _mine_and_tag_candidates.
  assert (∀ (rest : list (Path * Node)) st,
    (∀ q nk, nk ∈ lsh_query (lsh st) q → nk ∈ dom (items st)) →
    ∀ q nk, nk ∈ lsh_query (lsh (foldl mine_page st rest)) q →
            nk ∈ dom (items (foldl mine_page st rest))) as Hfold.
  { induction rest as [|[path soup] rest IH]; intros st Hst; simpl; [done|].
    apply IH. unfold mine_page.
    assert (∀ found st0 soup0,
      (∀ q nk, nk ∈ lsh_query (lsh st0) q → nk ∈ dom (items st0)) →
      ∀ q nk, nk ∈ lsh_query (lsh (tag_loop path st0 soup0 found).1) q →
              nk ∈ dom (items (tag_loop path st0 soup0 found).1)) as Hloop.
    { induction found as [|tag found IHf]; intros st0 soup0 Hst0; simpl; [done|].
      pose proof (tag_step_index path st0 soup0 tag Hins Hst0) as Hstep.
      destruct (tag_step path st0 soup0 tag) as [st1 [soup1|]]; simpl in *;
        [by apply IHf|done]. }
    specialize (Hloop (set_iter (candidates_of soup)).*1 st soup Hst).
    by destruct (tag_loop _ _ _ _) as [st' [soup1|]]. }
  apply Hfold. intros q nk. simpl. rewrite Hempty. by intros ?%elem_of_nil.
Qed.
End miner_more.

(** ** From mining to clustering *)

Section mine_then_cluster.
Context `{PyText, Bs4, Similarity, PySet}.

(** X23.  Clustering what was mined.  When the index answers with inserted
    keys only, the empty index with none, [_cluster_candidates] on the items
    and the index that [_mine_and_tag_candidates] leaves ends without a
    [KeyError]; and every member of every cluster is stored under its key
    and comes from a page of the corpus. *)
Theorem mined_candidates_cluster (corpus : list (Path * Node)) :
  (∀ q, lsh_query lsh_empty q = []) →
  (∀ index key m q nk, nk ∈ lsh_query (lsh_insert key m index) q →
                       nk = key ∨ nk ∈ lsh_query index q) →
  let st := _mine_and_tag_candidates corpus in
  ∃ clusters,
    _cluster_candidates (items st) (lsh st) = Some clusters ∧
    ∀ cl key c, cl ∈ clusters → (key, c) ∈ cl →
      items st !! key = Some c ∧ html_path c ∈ corpus.*1.
Proof.
  intros Hempty Hins st.
  pose proof (mined_index_stored corpus Hempty Hins) as Hindex. fold st in Hindex.
  destruct (seed_loop_stored (items st) (lsh st) (sorted_keys (items st)) [] ∅)
    as [clusters Hc].
  { intros k Hk. unfold sorted_keys in Hk. rewrite sorted_Permutation in Hk.
    by apply elem_of_elements in Hk. }
  { intros k c nk _. apply Hindex. }
  exists clusters. split; [done|]. intros cl key c Hcl Hin.
  assert (items st !! key = Some c) as Hlook.
  { apply _cluster_candidates_ok in Hc as [visited [_ _ _ Hseeded]].
    rewrite Forall_forall in Hseeded.
    destruct (Hseeded cl Hcl) as (key0 & seed & rest & -> & Hseed & Hrest).
    apply elem_of_cons in Hin as [[= -> ->]|Hin]; [done|].
    rewrite Forall_forall in Hrest. by destruct (Hrest _ Hin) as (_ & ? & _). }
  split; [done|]. by destruct (mined_items_stored corpus key c Hlook).
Qed.
End mine_then_cluster.

(** ** The further properties on the worked examples *)

Lemma canonical_form_strings_witness :
  @_canonicalize ascii_text plain_bs4 nav_with_ids = Some nav_canonical ∧
  Text (lit "Home page") ∈ descendants nav_canonical ∧
  lit "Home page" ≠ [] ∧
  @normalize_text ascii_text (lit "Home page") = lit "Home page".
Proof.
  assert (@_canonicalize ascii_text plain_bs4 nav_with_ids = Some nav_canonical)
    as Hc by by vm_compute.
  assert (Text (lit "Home page") ∈ descendants nav_canonical) as Hd
    by (apply list_elem_of_In; vm_compute; auto).
  split; [done|]. split; [done|].
  exact (@canonical_form_strings ascii_text plain_bs4 nav_with_ids nav_canonical
           (Text (lit "Home page")) Hc Hd).
Defined.

Lemma canonical_form_keeps_structure_witness :
  @_canonicalize ascii_text plain_bs4 nav_with_ids = Some nav_canonical ∧
  ∃ root,
    find_child (tag_name nav_with_ids)
      (@html_parser plain_bs4 (@str_of plain_bs4 nav_with_ids)) = Some root ∧
    simhash_tokens nav_canonical = simhash_tokens root.
Proof.
  assert (@_canonicalize ascii_text plain_bs4 nav_with_ids = Some nav_canonical)
    as Hc by by vm_compute.
  split; [done|].
  destruct (@canonical_form_keeps_structure ascii_text plain_bs4 nav_with_ids
              nav_canonical Hc) as (root & Hroot & _ & _ & _ & Htok).
  exists root. exact (conj Hroot Htok).
Defined.

Lemma canonical_form_attributes_witness :
  @_canonicalize ascii_text plain_bs4 nav_with_ids = Some nav_canonical ∧
  dict_attrs (@html_parser plain_bs4 (@str_of plain_bs4 nav_with_ids)) = true ∧
  nav_link_canonical ∈ find_all_tags nav_canonical ∧
  (lit "href", VStr (lit "#")) ∈ tag_attrs nav_link_canonical ∧
  lit "href" ∉ DROP_ATTRS.
Proof.
  assert (@_canonicalize ascii_text plain_bs4 nav_with_ids = Some nav_canonical)
    as Hc by by vm_compute.
  assert (dict_attrs (@html_parser plain_bs4 (@str_of plain_bs4 nav_with_ids))
          = true) as Hd by by vm_compute.
  assert (nav_link_canonical ∈ find_all_tags nav_canonical) as Hel
    by (apply list_elem_of_In; vm_compute; auto).
  assert ((lit "href", VStr (lit "#")) ∈ tag_attrs nav_link_canonical) as Hkv
    by left.
  split; [done|]. split; [done|]. split; [done|]. split; [done|].
  by destruct (@canonical_form_attributes ascii_text plain_bs4 nav_with_ids
                 nav_canonical nav_link_canonical (lit "href") (VStr (lit "#"))
                 Hc Hd Hel Hkv).
Defined.

Lemma canonical_form_size_witness :
  @isspace ascii_text 32%N = true ∧
  @_canonicalize ascii_text plain_bs4 nav_with_ids = Some nav_canonical ∧
  ∃ root,
    find_child (tag_name nav_with_ids)
      (@html_parser plain_bs4 (@str_of plain_bs4 nav_with_ids)) = Some root ∧
    @_get_node_size ascii_text nav_canonical ≤ @_get_node_size ascii_text root.
Proof.
  assert (@isspace ascii_text 32%N = true) as H32 by reflexivity.
  assert (@_canonicalize ascii_text plain_bs4 nav_with_ids = Some nav_canonical)
    as Hc by by vm_compute.
  split; [done|]. split; [done|].
  destruct (@canonical_form_size ascii_text plain_bs4 nav_with_ids nav_canonical
              H32 Hc) as (root & Hroot & _ & Hle).
  exists root. exact (conj Hroot Hle).
Defined.

Lemma to_zss_node_size_witness :
  is_elem nav_with_ids = true ∧
  zss_size (_to_zss_node nav_with_ids) = S (length (find_all_tags nav_with_ids)).
Proof.
  assert (is_elem nav_with_ids = true) as He by reflexivity.
  split; [done|]. by destruct (to_zss_node_size nav_with_ids He).
Defined.

Lemma equal_titles_leave_no_page_title_witness :
  [home_title; home_title] ≠ [] ∧
  (∀ t, t ∈ [home_title; home_title] → t = home_title) ∧
  _longest_common_suffix [home_title; home_title] = home_title.
Proof.
  assert ([home_title; home_title] ≠ []) as Hne by done.
  assert (∀ t, t ∈ [home_title; home_title] → t = home_title) as Hall.
  { intros t Ht. apply list_elem_of_In in Ht. simpl in Ht.
    destruct Ht as [<-|[<-|[]]]; reflexivity. }
  split; [done|]. split; [done|].
  by destruct (equal_titles_leave_no_page_title [home_title; home_title]
                 home_title Hne Hall).
Defined.

Lemma clusters_follow_the_seeds_witness :
  @_cluster_candidates ascii_text exact_similarity pair_items pair_index
    = Some pair_clusters ∧
  seeds pair_clusters `sublist_of` sorted_keys pair_items ∧
  length (seeds pair_clusters) = length pair_clusters.
Proof.
  assert (@_cluster_candidates ascii_text exact_similarity pair_items pair_index
          = Some pair_clusters) as Hrun by by vm_compute.
  split; [done|].
  destruct (@clusters_follow_the_seeds ascii_text exact_similarity pair_items
              pair_index pair_clusters Hrun) as (Hsub & Hlen & _).
  exact (conj Hsub Hlen).
Defined.

Lemma exact_index_answers (k : str) (c : @Candidate exact_similarity) (nk : str) :
  pair_items !! k = Some c →
  nk ∈ @lsh_query exact_similarity pair_index (@mh exact_similarity c) →
  nk ∈ dom pair_items.
Proof.
  intros _ Hq. apply list_elem_of_fmap in Hq as ([k' m] & -> & Hin).
  apply list_elem_of_In, filter_In in Hin as [Hin _].
  apply list_elem_of_In in Hin. unfold pair_index in Hin.
  apply elem_of_cons in Hin as [[= -> _]|Hin];
    [apply (bool_decide_unpack _); by vm_compute|].
  apply elem_of_cons in Hin as [[= -> _]|Hin];
    [apply (bool_decide_unpack _); by vm_compute|].
  by apply elem_of_nil in Hin.
Qed.

Lemma cluster_candidates_never_raises_witness :
  (∀ k c nk, pair_items !! k = Some c →
     nk ∈ @lsh_query exact_similarity pair_index (@mh exact_similarity c) →
     nk ∈ dom pair_items) ∧
  ∃ clusters,
    @_cluster_candidates ascii_text exact_similarity pair_items pair_index
      = Some clusters.
Proof.
  split; [exact exact_index_answers|].
  exact (@cluster_candidates_never_raises ascii_text exact_similarity pair_items
           pair_index exact_index_answers).
Defined.

Lemma accepted_answers_are_clustered_witness :
  @_cluster_candidates ascii_text exact_similarity pair_items pair_index
    = Some pair_clusters ∧
  (key_of 0, small_candidate) :: [(key_of 1, small_candidate)] ∈ pair_clusters ∧
  key_of 1 ∈ @lsh_query exact_similarity pair_index
               (@mh exact_similarity small_candidate) ∧
  pair_items !! key_of 1 = Some small_candidate ∧
  @too_far exact_similarity small_candidate small_candidate = false ∧
  @size_mismatch ascii_text exact_similarity small_candidate small_candidate
    = false ∧
  str_lt (key_of 0) (key_of 1) ∧
  key_of 1 ∈ cluster_keys pair_clusters.
Proof.
  assert (@_cluster_candidates ascii_text exact_similarity pair_items pair_index
          = Some pair_clusters) as Hrun by by vm_compute.
  assert ((key_of 0, small_candidate) :: [(key_of 1, small_candidate)]
          ∈ pair_clusters) as Hcl by left.
  assert (key_of 1 ∈ @lsh_query exact_similarity pair_index
                       (@mh exact_similarity small_candidate)) as Hq
    by (apply list_elem_of_In; vm_compute; auto).
  assert (pair_items !! key_of 1 = Some small_candidate) as Hn by by vm_compute.
  assert (@too_far exact_similarity small_candidate small_candidate = false)
    as Hfar by by vm_compute.
  assert (@size_mismatch ascii_text exact_similarity small_candidate
            small_candidate = false) as Hsize by by vm_compute.
  assert (str_lt (key_of 0) (key_of 1)) as Hlt
    by (split; [by vm_compute|by intros ?%key_of_inj]).
  split; [done|]. split; [done|]. split; [done|]. split; [done|].
  split; [done|]. split; [done|]. split; [done|].
  exact (@accepted_answers_are_clustered ascii_text exact_similarity pair_items
           pair_index pair_clusters Hrun (key_of 0) small_candidate
           [(key_of 1, small_candidate)] (key_of 1) small_candidate
           Hcl Hq Hn Hfar Hsize Hlt).
Defined.

Lemma extract_partials_names_witness :
  @_extract_partials plain_bs4 exact_similarity pair_clusters
    = Some [pair_partial] ∧
  length [pair_partial] = length pair_clusters ∧
  NoDup (partial_name <$> [pair_partial].*1).
Proof.
  assert (@_extract_partials plain_bs4 exact_similarity pair_clusters
          = Some [pair_partial]) as Hrun by by vm_compute.
  split; [done|].
  destruct (@extract_partials_names plain_bs4 exact_similarity pair_clusters
              [pair_partial] Hrun) as (Hlen & _ & Hnd).
  exact (conj Hlen Hnd).
Defined.

Lemma replace_instance_found_witness :
  find_marker (key_of 0) marked_page = Some MARKED_PLACE ∧
  ∃ soup',
    @replace_instance plain_bs4 (lit "a.html")
      (create_include_statement (lit "partial_1_nav.html"))
      (key_of 0, lit "a.html") marked_page = Ok soup' ∧
    get_at [0; 1] soup'
      = Some (Elem (lit "body") []
                [Elem (lit "p") [] [Text (lit "hello")];
                 Text (lit "@@include('./partials/partial_1_nav.html')")]).
Proof.
  assert (find_marker (key_of 0, lit "a.html").1 marked_page = Some MARKED_PLACE)
    as Hf by by vm_compute.
  split; [done|].
  destruct (@replace_instance_found plain_bs4 (lit "a.html")
              (create_include_statement (lit "partial_1_nav.html"))
              (key_of 0, lit "a.html") marked_page MARKED_PLACE Hf) as [_ Hown].
  destruct (Hown eq_refl)
    as (soup' & el & before & after & parent & i & name & attrs & children
        & Hr & _ & _ & _ & Hp & Hparent & _ & Hget & _).
  change MARKED_PLACE with ([0; 1] ++ [1]) in Hp.
  apply app_inj_tail in Hp as [<- <-].
  vm_compute in Hparent. injection Hparent as <- <- <-.
  exists soup'. split; [exact Hr|]. rewrite Hget. by vm_compute.
Defined.

Lemma rewrite_head_result_witness :
  is_elem shared_head = true ∧
  (∀ l, l ∈ find_all (lit "link") shared_head → find_all (lit "link") l = []) ∧
  ∃ head',
    @rewrite_head plain_bs4 ascii_json (lit "Home") shared_head = Ok head' ∧
    tag_name head' = tag_name shared_head.
Proof.
  assert (is_elem shared_head = true) as He by reflexivity.
  assert (∀ l, l ∈ find_all (lit "link") shared_head →
               find_all (lit "link") l = []) as Hvoid.
  { apply Forall_forall, (bool_decide_unpack _). by vm_compute. }
  split; [done|]. split; [done|].
  destruct (@rewrite_head_result plain_bs4 ascii_json (lit "Home") shared_head He)
    as [Hok Hres].
  destruct (Hok Hvoid) as [head' Hr]. exists head'.
  destruct (Hres head' Hr) as (Hname & _). exact (conj Hr Hname).
Defined.

Lemma rewrite_body_result_witness :
  is_elem shared_body = true ∧
  Forall (λ s, is_Some (src_of s)) (scripts_with_src shared_body) ∧
  (∀ s, s ∈ scripts_with_src shared_body → scripts_with_src s = []) ∧
  ∃ body',
    @rewrite_body plain_bs4 {[lit "app.js"]} shared_body = Ok body' ∧
    tag_name body' = tag_name shared_body.
Proof.
  assert (is_elem shared_body = true) as He by reflexivity.
  assert (Forall (λ s, is_Some (src_of s)) (scripts_with_src shared_body)) as Hsrc.
  { apply (bool_decide_unpack _). by vm_compute. }
  assert (∀ s, s ∈ scripts_with_src shared_body → scripts_with_src s = [])
    as Hvoid.
  { apply Forall_forall, (bool_decide_unpack _). by vm_compute. }
  split; [done|]. split; [done|]. split; [done|].
  destruct (@rewrite_body_result plain_bs4 {[lit "app.js"]} shared_body He)
    as [Hok Hres].
  destruct (Hok Hsrc Hvoid) as [body' Hr]. exists body'.
  destruct (Hres body' Hr) as (Hname & _). exact (conj Hr Hname).
Defined.

Lemma head_fragments_of_any_corpus_witness :
  @_extract_common_head_and_footer ascii_text plain_bs4 shared_pages
    = Some shared_fragments ∧
  head (title_meta shared_fragments)
    = Some (title_line
              (_longest_common_suffix
                 (@head_title ascii_text <$> heads_of shared_pages.*2))).
Proof.
  assert (@_extract_common_head_and_footer ascii_text plain_bs4 shared_pages
          = Some shared_fragments) as Hfr
    by (apply Some_default, (bool_decide_unpack _); by vm_compute).
  split; [done|].
  by destruct (@head_fragments_of_any_corpus ascii_text plain_bs4 shared_pages
                 shared_fragments Hfr) as [Hhead _].
Defined.

Lemma footer_fragment_of_any_corpus_witness :
  @_extract_common_head_and_footer ascii_text plain_bs4 shared_pages
    = Some shared_fragments ∧
  length (footer_scripts shared_fragments)
    = size (common_js_srcs shared_fragments).
Proof.
  assert (@_extract_common_head_and_footer ascii_text plain_bs4 shared_pages
          = Some shared_fragments) as Hfr
    by (apply Some_default, (bool_decide_unpack _); by vm_compute).
  split; [done|].
  by destruct (@footer_fragment_of_any_corpus ascii_text plain_bs4 shared_pages
                 shared_fragments Hfr) as (_ & Hlen & _).
Defined.

Lemma page_titles_of_any_corpus_witness :
  @_extract_common_head_and_footer ascii_text plain_bs4 shared_pages
    = Some shared_fragments ∧
  Forall (λ soup, is_Some (soup_head soup)) shared_pages.*2 ∧
  NoDup shared_pages.*1 ∧
  dom (page_titles shared_fragments) = list_to_set shared_pages.*1.
Proof.
  assert (@_extract_common_head_and_footer ascii_text plain_bs4 shared_pages
          = Some shared_fragments) as Hfr
    by (apply Some_default, (bool_decide_unpack _); by vm_compute).
  assert (Forall (λ soup, is_Some (soup_head soup)) shared_pages.*2) as Hheads
    by (apply (bool_decide_unpack _); by vm_compute).
  assert (NoDup shared_pages.*1) as Hnd
    by (apply (bool_decide_unpack _); by vm_compute).
  split; [done|]. split; [done|]. split; [done|].
  by destruct (@page_titles_of_any_corpus ascii_text plain_bs4 shared_pages
                 shared_fragments Hfr Hheads Hnd) as [Hdom _].
Defined.

Lemma candidates_are_large_components_witness :
  (HEADER_PLACE, big (lit "header") [])
    ∈ @candidates_of ascii_text header_nav_page ∧
  get_at HEADER_PLACE header_nav_page = Some (big (lit "header") []) ∧
  MIN_NODE_COUNT ≤ @_get_node_size ascii_text (big (lit "header") []).
Proof.
  assert ((HEADER_PLACE, big (lit "header") [])
            ∈ @candidates_of ascii_text header_nav_page) as Hin
    by (apply list_elem_of_In; vm_compute; auto).
  split; [done|].
  destruct (@candidates_are_large_components ascii_text header_nav_page
              HEADER_PLACE (big (lit "header") []) Hin)
    as (Hget & _ & Hbig & _).
  exact (conj Hget Hbig).
Defined.

Lemma mining_changes_markers_only_witness :
  soups (mine_with plain_bs4 insertion_order header_nav_corpus) !! lit "a.html"
    = Some mined_page ∧
  ∃ soup, (lit "a.html", soup) ∈ header_nav_corpus ∧
          erase_markers mined_page = erase_markers soup.
Proof.
  assert (soups (mine_with plain_bs4 insertion_order header_nav_corpus)
            !! lit "a.html" = Some mined_page) as Hl
    by (apply Some_default, (bool_decide_unpack _); by vm_compute).
  split; [done|].
  exact (@mining_changes_markers_only ascii_text plain_bs4 exact_similarity
           insertion_order header_nav_corpus (lit "a.html") mined_page Hl).
Defined.

Lemma stored_candidates_witness :
  items (mine_with plain_bs4 insertion_order header_nav_corpus) !! key_of 0
    = Some header_candidate ∧
  @html_path exact_similarity header_candidate ∈ header_nav_corpus.*1.
Proof.
  assert (items (mine_with plain_bs4 insertion_order header_nav_corpus)
            !! key_of 0 = Some header_candidate) as Hl
    by (apply Some_default, (bool_decide_unpack _); by vm_compute).
  split; [done|].
  by destruct (@stored_candidates ascii_text plain_bs4 exact_similarity
                 insertion_order header_nav_corpus (key_of 0) header_candidate Hl)
    as [Hpath _].
Defined.

Lemma exact_index_empty (q : @MinHash exact_similarity) :
  @lsh_query exact_similarity (@lsh_empty exact_similarity) q = [].
Proof. done. Qed.

Lemma exact_index_insert (index : @LSH exact_similarity) (key : str)
    (m q : @MinHash exact_similarity) (nk : str) :
  nk ∈ @lsh_query exact_similarity (@lsh_insert exact_similarity key m index) q →
  nk = key ∨ nk ∈ @lsh_query exact_similarity index q.
Proof.
  simpl. rewrite List.filter_app, fmap_app, elem_of_app. intros [Hin|Hin].
  - by right.
  - left. simpl in Hin. case_bool_decide; simpl in Hin.
    + by apply list_elem_of_singleton in Hin.
    + by apply elem_of_nil in Hin.
Qed.

Lemma mined_candidates_cluster_witness :
  (∀ q, @lsh_query exact_similarity (@lsh_empty exact_similarity) q = []) ∧
  (∀ index key m q nk,
     nk ∈ @lsh_query exact_similarity (@lsh_insert exact_similarity key m index) q →
     nk = key ∨ nk ∈ @lsh_query exact_similarity index q) ∧
  ∃ clusters,
    @_cluster_candidates ascii_text exact_similarity
      (items (mine_with plain_bs4 insertion_order header_nav_corpus))
      (lsh (mine_with plain_bs4 insertion_order header_nav_corpus))
    = Some clusters.
Proof.
  split; [exact exact_index_empty|]. split; [exact exact_index_insert|].
  destruct (@mined_candidates_cluster ascii_text plain_bs4 exact_similarity
              insertion_order header_nav_corpus exact_index_empty
              exact_index_insert) as (clusters & Hc & _).
  exists clusters. exact Hc.
Defined.
